(** * A teaching-grade JavaScript bundler: shallow embedding and properties

    The development follows the pipeline of the repository:
    resolver, parser, graph builder, chunk planner, module transformer,
    code generator, and the loader that the entry bundle carries.

    JavaScript strings are modelled as [string] (sequences of 8-bit code
    units), `Map` and `Set` as insertion-ordered lists, thrown `Error`s as
    the [Throw] branch of [result]. *)

From Stdlib Require Import String Ascii List Bool Arith Lia.
From stdpp Require Import base list strings gmap.

Set Warnings "-register-all".

(** ** Exceptions *)

Inductive result (A : Type) : Type :=
| Ok (a : A)
| Throw (message : string).
Arguments Ok {A} a.
Arguments Throw {A} message.

Definition bind {A B} (r : result A) (k : A -> result B) : result B :=
  match r with
  | Ok a => k a
  | Throw m => Throw m
  end.

Notation "'let!' x ':=' r 'in' k" := (bind r (fun x => k))
  (at level 10, x name, r at level 100, k at level 200).
Notation "'let!' ' p ':=' r 'in' k" := (bind r (fun p => k))
  (at level 10, p pattern, r at level 100, k at level 200).

Definition is_ok {A} (r : result A) : bool :=
  match r with Ok _ => true | Throw _ => false end.

(** ** Strings *)

(** The double quote and the line feed, which string literals here never
    contain. *)
Definition dq : string := String (ascii_of_nat 34) EmptyString.
Definition nl : string := String (ascii_of_nat 10) EmptyString.

(** `s.startsWith(p)` *)
Definition startsWith (s p : string) : bool := String.prefix p s.

(** `s.split(c)` for a one-character separator. *)
Fixpoint split_go (c : ascii) (cur : string) (s : string) : list string :=
  match s with
  | EmptyString => [String.rev cur]
  | String a rest =>
      if Ascii.eqb a c then String.rev cur :: split_go c EmptyString rest
      else split_go c (String a cur) rest
  end.
Definition split (c : ascii) (s : string) : list string := split_go c EmptyString s.

(** `l.join(sep)` *)
Definition join (sep : string) (l : list string) : string := String.concat sep l.

(** [contains s t]: [t] occurs in [s] as a contiguous substring. *)
Definition contains (s t : string) : Prop :=
  exists pre post, s = pre +:+ t +:+ post.

(** `s.includes(t)` *)
Fixpoint includes (s t : string) : bool :=
  String.prefix t s ||
  match s with
  | EmptyString => false
  | String _ rest => includes rest t
  end.

(** White space removed by `String.prototype.trim` within the 8-bit range. *)
Definition isSpace (a : ascii) : bool :=
  let n := nat_of_ascii a in
  (n =? 9) || (n =? 10) || (n =? 11) || (n =? 12) || (n =? 13) || (n =? 32) || (n =? 160).

Fixpoint trimStart (s : string) : string :=
  match s with
  | String a rest => if isSpace a then trimStart rest else s
  | EmptyString => EmptyString
  end.
Definition trim (s : string) : string :=
  String.rev (trimStart (String.rev (trimStart s))).

(** `s.replace(/^\.\//, '')` *)
Definition stripDotSlash (s : string) : string :=
  match s with
  | String "." (String "/" rest) => rest
  | _ => s
  end.

(** `s.replace(/[...]/g, '_')` for a character class given as a predicate. *)
Fixpoint replaceAll (p : ascii -> bool) (s : string) : string :=
  match s with
  | EmptyString => EmptyString
  | String a rest => String (if p a then "_"%char else a) (replaceAll p rest)
  end.

(** ** Node's `path` module on POSIX

    Only what the bundler calls: `resolve` with an absolute first argument,
    `dirname`, and `relative` between absolute paths. *)
Module path.

Definition sep : ascii := "/"%char.

Definition segments (p : string) : list string :=
  filter (fun s => negb (String.eqb s "")) (split sep p).

(** `normalizeString(path, false)`: [acc] holds the kept segments, last
    one first. *)
Fixpoint normalizeSegments (acc : list string) (segs : list string) : list string :=
  match segs with
  | [] => rev acc
  | s :: rest =>
      if String.eqb s "." then normalizeSegments acc rest
      else if String.eqb s ".." then normalizeSegments (tl acc) rest
      else normalizeSegments (s :: acc) rest
  end.

Definition fromSegments (segs : list string) : string := "/" +:+ join "/" segs.

Definition isAbsolute (p : string) : bool := startsWith p "/".

(** `path.resolve(from, to)` for absolute [from]. *)
Definition resolve (from to : string) : string :=
  if isAbsolute to then fromSegments (normalizeSegments [] (segments to))
  else fromSegments (normalizeSegments [] (segments (from +:+ "/" +:+ to))).

(** `path.dirname(p)`: drop trailing separators, then the last segment. *)
Fixpoint dropWhileSlash (s : string) : string :=
  match s with
  | String a rest => if Ascii.eqb a sep then dropWhileSlash rest else s
  | EmptyString => EmptyString
  end.
Fixpoint dropUntilSlash (s : string) : string :=
  match s with
  | String a rest => if Ascii.eqb a sep then s else dropUntilSlash rest
  | EmptyString => EmptyString
  end.
Definition dirname (p : string) : string :=
  match p with
  | EmptyString => "."
  | String c0 body =>
      let hasRoot := Ascii.eqb c0 sep in
      match dropUntilSlash (dropWhileSlash (String.rev body)) with
      | EmptyString => if hasRoot then "/" else "."
      | String _ r =>
          if hasRoot && String.eqb r "" then "//" else String c0 (String.rev r)
      end
  end.

Fixpoint dropCommon (a b : list string) : list string * list string :=
  match a, b with
  | x :: a', y :: b' => if String.eqb x y then dropCommon a' b' else (a, b)
  | _, _ => (a, b)
  end.

(** `path.relative(from, to)` for absolute arguments. *)
Definition relative (from to : string) : string :=
  let '(up, down) := dropCommon (normalizeSegments [] (segments from))
                                (normalizeSegments [] (segments to)) in
  join "/" (map (fun _ => "..") up ++ down).

End path.


(** ** Resolver (resolver.js) *)
Module Resolver.

Definition EXTENSIONS : list string := [""; ".js"; ".json"; "/index.js"].

Section WithFileSystem.
(** [isFile p] is `fs.existsSync(p) && fs.statSync(p).isFile()` on the
    filesystem snapshot of the build. *)
Variable isFile : string -> bool.

(** The `for (const ext of EXTENSIONS)` loop. *)
Fixpoint tryExtensions (basePath : string) (exts : list string) : option string :=
  match exts with
  | [] => None
  | ext :: rest =>
      let candidate := basePath +:+ ext in
      if isFile candidate then Some candidate else tryExtensions basePath rest
  end.

Definition bareSpecifierMessage (specifier : string) : string :=
  "Cannot resolve bare specifier " +:+ dq +:+ specifier +:+ dq +:+
  ". Only relative paths are supported.".

Definition unresolvedMessage (specifier fromDir basePath : string) : string :=
  "Cannot resolve module " +:+ dq +:+ specifier +:+ dq +:+ " from " +:+
  dq +:+ fromDir +:+ dq +:+ ". Tried:" +:+ nl +:+
  join nl (map (fun ext => "  " +:+ basePath +:+ ext) EXTENSIONS).

Definition resolveModule (specifier fromDir : string) : result string :=
  if negb (startsWith specifier ".") then Throw (bareSpecifierMessage specifier)
  else
    let basePath := path.resolve fromDir specifier in
    match tryExtensions basePath EXTENSIONS with
    | Some candidate => Ok candidate
    | None => Throw (unresolvedMessage specifier fromDir basePath)
    end.
End WithFileSystem.

(** The candidate list as the specification words it. *)
Definition candidates (base : string) : list string :=
  [base; base +:+ ".js"; base +:+ ".json"; base +:+ "/index.js"].

End Resolver.

(** ** `Map` and `Set`

    Both iterate in insertion order; `set` on a present key keeps the key's
    position and replaces its value. *)
Section Collections.
Context {K : Type} `{EqDecision K} {V : Type}.

Fixpoint map_get (m : list (K * V)) (k : K) : option V :=
  match m with
  | [] => None
  | (k', v) :: rest => if decide (k' = k) then Some v else map_get rest k
  end.

Definition map_has (m : list (K * V)) (k : K) : bool :=
  match map_get m k with Some _ => true | None => false end.

Fixpoint map_set (m : list (K * V)) (k : K) (v : V) : list (K * V) :=
  match m with
  | [] => [(k, v)]
  | (k', v') :: rest =>
      if decide (k' = k) then (k, v) :: rest else (k', v') :: map_set rest k v
  end.

Definition set_has (s : list K) (k : K) : bool := bool_decide (k ∈ s).

Definition set_add (s : list K) (k : K) : list K :=
  if set_has s k then s else s ++ [k].
End Collections.

(** ** Syntax trees (ESTree, as acorn produces them)

    A node carries its identity [nid] (JavaScript compares nodes by
    reference), its `type`, its range, and the scalar properties the bundler
    reads: `name` (identifiers), `value` (string literals; the fragment has
    no other literal used as a module source), `computed`, `expression`
    (arrow functions with an expression body).  Child properties are kept by
    name; a single child is a one-element list, `null` an empty one. *)
Inductive node : Type :=
  Node (nid : nat) (type : string) (start end_ : nat)
       (name : option string) (value : string) (computed expression : bool)
       (fields : list (string * list node)).

Definition nid (n : node) : nat := let 'Node i _ _ _ _ _ _ _ _ := n in i.
Definition ntype (n : node) : string := let 'Node _ t _ _ _ _ _ _ _ := n in t.
Definition nstart (n : node) : nat := let 'Node _ _ s _ _ _ _ _ _ := n in s.
Definition nend (n : node) : nat := let 'Node _ _ _ e _ _ _ _ _ := n in e.
Definition nname (n : node) : option string := let 'Node _ _ _ _ x _ _ _ _ := n in x.
Definition nvalue (n : node) : string := let 'Node _ _ _ _ _ v _ _ _ := n in v.
Definition ncomputed (n : node) : bool := let 'Node _ _ _ _ _ _ c _ _ := n in c.
Definition nexpression (n : node) : bool := let 'Node _ _ _ _ _ _ _ x _ := n in x.
Definition nfields (n : node) : list (string * list node) :=
  let 'Node _ _ _ _ _ _ _ _ f := n in f.

(** `n.f` for a property holding a list of nodes, and for one holding a
    single node or `null`. *)
Definition children (f : string) (n : node) : list node :=
  default [] (map_get (nfields n) f).
Definition child (f : string) (n : node) : option node := head (children f n).

(** `a === b` on nodes. *)
Definition same (a b : node) : bool := nid a =? nid b.
(** `p.f === n` *)
Definition childIs (f : string) (p n : node) : bool :=
  match child f p with Some c => same c n | None => false end.
(** `p.f.includes(n)` *)
Definition childrenInclude (f : string) (p n : node) : bool :=
  existsb (fun c => same c n) (children f p).

(** `o.name` and `o.value` read through a possibly absent node. *)
Definition nameOf (o : option node) : option string := o ≫= nname.
Definition valueOf (o : option node) : string := default "" (nvalue <$> o).

(** Template interpolation of a string-or-undefined. *)
Definition show (o : option string) : string := default "undefined" o.

(** Shorthands for writing trees down. *)
Definition nd (i : nat) (ty : string) (s e : nat) (fields : list (string * list node)) : node :=
  Node i ty s e None "" false false fields.
Definition ndComputed (i : nat) (ty : string) (s e : nat)
    (fields : list (string * list node)) : node :=
  Node i ty s e None "" true false fields.
Definition ndExpression (i : nat) (ty : string) (s e : nat)
    (fields : list (string * list node)) : node :=
  Node i ty s e None "" false true fields.
Definition ident (i s e : nat) (x : string) : node :=
  Node i "Identifier" s e (Some x) "" false false [].
Definition literal (i s e : nat) (v : string) : node :=
  Node i "Literal" s e None v false false [].

(** ** acorn-walk

    [base ty n] is what `base[ty]` does on [n]: it either re-dispatches the
    same node under another type, or visits children, each a property name
    with the override it is visited under (the empty override stands for
    none).  Node kinds outside the fragment are leaves. *)
Inductive action : Type :=
| Redirect (ty : string)
| Visit (plan : list (string * string)).

Definition isAmong (ty : string) (l : list string) : bool :=
  existsb (String.eqb ty) l.

Definition base (ty : string) (n : node) : action :=
  if isAmong ty ["Statement"; "Expression"; "MemberPattern"] then Redirect (ntype n)
  else if String.eqb ty "Pattern" then
    if String.eqb (ntype n) "Identifier" then Redirect "VariablePattern"
    else if String.eqb (ntype n) "MemberExpression" then Redirect "MemberPattern"
    else Redirect (ntype n)
  else if isAmong ty ["FunctionDeclaration"; "FunctionExpression"; "ArrowFunctionExpression"]
  then Redirect "Function"
  else if isAmong ty ["ClassDeclaration"; "ClassExpression"] then Redirect "Class"
  else if isAmong ty ["Program"; "BlockStatement"] then Visit [("body", "Statement")]
  else if isAmong ty ["ExpressionStatement"; "ParenthesizedExpression"; "ChainExpression"]
  then Visit [("expression", "Expression")]
  else if String.eqb ty "IfStatement" then
    Visit [("test", "Expression"); ("consequent", "Statement"); ("alternate", "Statement")]
  else if String.eqb ty "LabeledStatement" then Visit [("body", "Statement")]
  else if isAmong ty ["ReturnStatement"; "YieldExpression"; "AwaitExpression";
                      "ThrowStatement"; "SpreadElement"; "UnaryExpression";
                      "UpdateExpression"]
  then Visit [("argument", "Expression")]
  else if String.eqb ty "VariableDeclaration" then Visit [("declarations", "")]
  else if String.eqb ty "VariableDeclarator" then
    Visit [("id", "Pattern"); ("init", "Expression")]
  else if String.eqb ty "Function" then
    Visit [("id", "Pattern"); ("params", "Pattern");
           ("body", if nexpression n then "Expression" else "Statement")]
  else if String.eqb ty "Class" then
    Visit [("id", "Pattern"); ("superClass", "Expression"); ("body", "")]
  else if String.eqb ty "ClassBody" then Visit [("body", "")]
  else if isAmong ty ["MethodDefinition"; "PropertyDefinition"; "Property"] then
    Visit ((if ncomputed n then [("key", "Expression")] else []) ++ [("value", "Expression")])
  else if String.eqb ty "RestElement" then Visit [("argument", "Pattern")]
  else if String.eqb ty "ArrayPattern" then Visit [("elements", "Pattern")]
  else if String.eqb ty "ArrayExpression" then Visit [("elements", "Expression")]
  else if String.eqb ty "ObjectExpression" then Visit [("properties", "")]
  else if isAmong ty ["BinaryExpression"; "LogicalExpression"] then
    Visit [("left", "Expression"); ("right", "Expression")]
  else if isAmong ty ["AssignmentExpression"; "AssignmentPattern"] then
    Visit [("left", "Pattern"); ("right", "Expression")]
  else if String.eqb ty "ConditionalExpression" then
    Visit [("test", "Expression"); ("consequent", "Expression"); ("alternate", "Expression")]
  else if isAmong ty ["NewExpression"; "CallExpression"] then
    Visit [("callee", "Expression"); ("arguments", "Expression")]
  else if String.eqb ty "MemberExpression" then
    Visit (("object", "Expression") ::
           (if ncomputed n then [("property", "Expression")] else []))
  else if isAmong ty ["ExportNamedDeclaration"; "ExportDefaultDeclaration"] then
    Visit [("declaration",
            if String.eqb (ntype n) "ExportNamedDeclaration"
               || bool_decide (is_Some (child "declaration" n ≫= child "id"))
            then "Statement" else "Expression");
           ("source", "Expression")]
  else if String.eqb ty "ImportDeclaration" then
    Visit [("specifiers", ""); ("source", "Expression")]
  else if String.eqb ty "ImportExpression" then Visit [("source", "Expression")]
  else if String.eqb ty "TaggedTemplateExpression" then
    Visit [("tag", "Expression"); ("quasi", "Expression")]
  else if String.eqb ty "TemplateLiteral" then
    Visit [("quasis", ""); ("expressions", "Expression")]
  else Visit [].

(** One callback opportunity: the dispatched type, the node, and the
    `ancestors` array at that moment, innermost first (so the node itself is
    at index 0, its parent at index 1). *)
Record visit := { vtype : string; vnode : node; vancestors : list node }.

(** `walk.ancestor` (and `walk.simple`, which is the same traversal without
    the ancestor array): children first, then the visitor of the dispatched
    type.  A node is re-dispatched at most four times in a row
    (`Statement`, `FunctionDeclaration`, `Function`). *)
Fixpoint walk (anc : list node) (n : node) (override : string) {struct n} : list visit :=
  let anc' := n :: anc in
  (fix dispatch (k : nat) (ty : string) {struct k} : list visit :=
     match k with
     | 0 => []
     | S k' =>
         match base ty n with
         | Redirect ty' => dispatch k' ty'
         | Visit plan =>
             flat_map (fun '(f, ov) =>
               (fix fields_ (fs : list (string * list node)) : list visit :=
                  match fs with
                  | [] => []
                  | (g, kids) :: rest =>
                      if String.eqb g f then
                        (fix kids_ (ks : list node) : list visit :=
                           match ks with
                           | [] => []
                           | c :: ks' => walk anc' c ov ++ kids_ ks'
                           end) kids
                      else fields_ rest
                  end) (nfields n)) plan
         end ++ [{| vtype := ty; vnode := n; vancestors := anc' |}]
     end) 5 (if String.eqb override "" then ntype n else override).

(** ** Module records (parser.js) *)

Module spec.
Record t := { local : option string; imported : option string }.
End spec.

Module imp.
(** An entry of `imports`; `resolvedPath` is attached by the graph
    builder. *)
Record t := {
  source : string;
  specifiers : list spec.t;
  node_ : node;
  resolvedPath : option string }.
End imp.

Module exp.
(** An entry of `exports.named`; [None] stands for `null` and for an
    absent property. *)
Record t := {
  local : option string;
  exported : option string;
  node_ : node;
  declarationNode : option node;
  reexportSource : option string }.
End exp.

Module dyn.
(** An entry of `dynamicImports`; `source` is `null` for a non-literal
    argument. *)
Record t := {
  source : option string;
  node_ : node;
  resolvedPath : option string }.
End dyn.

Module binding.
Record t := { modulePath : string; importedName : option string }.
End binding.

Inductive defaultKind := declaration | expression.

#[global] Instance defaultKind_eq_dec : EqDecision defaultKind.
Proof. solve_decision. Defined.

Record exportsInfo := {
  named : list exp.t;
  hasDefault : bool;
  defaultNode : option node;
  defaultType : option defaultKind }.

Record moduleInfo := {
  filePath : string;
  source : string;
  ast : node;
  imports : list imp.t;
  exports : exportsInfo;
  dynamicImports : list dyn.t;
  importedBindings : list (option string * binding.t) }.

(** A string is truthy unless empty; `null` and `undefined` are falsy. *)
Definition truthy (o : option string) : bool :=
  match o with Some s => negb (String.eqb s "") | None => false end.

(** The filesystem snapshot of one build.  A regular file holds its text
    and what `acorn.parse` makes of it (a tree, or a syntax error). *)
Inductive fsEntry : Type :=
| File (text : string) (parsed : result node)
| Directory.

Definition fileSystem := string -> option fsEntry.

Definition isFile (fs : fileSystem) (p : string) : bool :=
  match fs p with Some (File _ _) => true | _ => false end.

Module Parser.

(** The variables the visitors of `parseModule` close over. *)
Record state := {
  imports_ : list imp.t;
  dynamicImports_ : list dyn.t;
  namedExports : list exp.t;
  hasDefault_ : bool;
  defaultNode_ : option node;
  defaultType_ : option defaultKind;
  importedBindings_ : list (option string * binding.t) }.

Definition initial : state :=
  {| imports_ := []; dynamicImports_ := []; namedExports := [];
     hasDefault_ := false; defaultNode_ := None; defaultType_ := None;
     importedBindings_ := [] |}.

Definition specifierOf (s : node) : spec.t :=
  if String.eqb (ntype s) "ImportDefaultSpecifier" then
    {| spec.local := nameOf (child "local" s); spec.imported := Some "default" |}
  else if String.eqb (ntype s) "ImportNamespaceSpecifier" then
    {| spec.local := nameOf (child "local" s); spec.imported := Some "*" |}
  else
    {| spec.local := nameOf (child "local" s);
       spec.imported := nameOf (child "imported" s) |}.

Definition ImportDeclaration (n : node) (st : state) : state :=
  let specifiers := map specifierOf (children "specifiers" n) in
  let source := valueOf (child "source" n) in
  {| imports_ := imports_ st ++
       [{| imp.source := source; imp.specifiers := specifiers;
           imp.node_ := n; imp.resolvedPath := None |}];
     dynamicImports_ := dynamicImports_ st;
     namedExports := namedExports st;
     hasDefault_ := hasDefault_ st;
     defaultNode_ := defaultNode_ st;
     defaultType_ := defaultType_ st;
     importedBindings_ :=
       fold_left (fun m s =>
                    map_set m (spec.local s)
                      {| binding.modulePath := source;
                         binding.importedName := spec.imported s |})
                 specifiers (importedBindings_ st) |}.

Definition declared (n decl : node) (id : option node) : exp.t :=
  {| exp.local := nameOf id; exp.exported := nameOf id; exp.node_ := n;
     exp.declarationNode := Some decl; exp.reexportSource := None |}.

Definition exportsOfDeclaration (n : node) : list exp.t :=
  match child "declaration" n with
  | None => []
  | Some decl =>
      if String.eqb (ntype decl) "FunctionDeclaration" then
        [declared n decl (child "id" decl)]
      else if String.eqb (ntype decl) "VariableDeclaration" then
        map (fun d => declared n decl (child "id" d)) (children "declarations" decl)
      else if String.eqb (ntype decl) "ClassDeclaration" then
        [declared n decl (child "id" decl)]
      else []
  end.

Definition exportsOfSpecifiers (n : node) : list exp.t :=
  map (fun s =>
         {| exp.local := nameOf (child "local" s);
            exp.exported := nameOf (child "exported" s);
            exp.node_ := n;
            exp.declarationNode := None;
            exp.reexportSource := nvalue <$> child "source" n |})
      (children "specifiers" n).

Definition ExportNamedDeclaration (n : node) (st : state) : state :=
  {| imports_ := imports_ st;
     dynamicImports_ := dynamicImports_ st;
     namedExports := namedExports st ++ exportsOfDeclaration n ++ exportsOfSpecifiers n;
     hasDefault_ := hasDefault_ st;
     defaultNode_ := defaultNode_ st;
     defaultType_ := defaultType_ st;
     importedBindings_ := importedBindings_ st |}.

Definition ExportDefaultDeclaration (n : node) (st : state) : state :=
  {| imports_ := imports_ st;
     dynamicImports_ := dynamicImports_ st;
     namedExports := namedExports st;
     hasDefault_ := true;
     defaultNode_ := Some n;
     defaultType_ :=
       Some (if isAmong (default "" (ntype <$> child "declaration" n))
                  ["FunctionDeclaration"; "ClassDeclaration"]
             then declaration else expression);
     importedBindings_ := importedBindings_ st |}.

Definition ImportExpression (n : node) (st : state) : state :=
  {| imports_ := imports_ st;
     dynamicImports_ := dynamicImports_ st ++
       [{| dyn.source :=
             if String.eqb (default "" (ntype <$> child "source" n)) "Literal"
             then Some (valueOf (child "source" n)) else None;
           dyn.node_ := n; dyn.resolvedPath := None |}];
     namedExports := namedExports st;
     hasDefault_ := hasDefault_ st;
     defaultNode_ := defaultNode_ st;
     defaultType_ := defaultType_ st;
     importedBindings_ := importedBindings_ st |}.

(** The visitor object handed to `walk.simple`. *)
Definition visitor (st : state) (v : visit) : state :=
  if String.eqb (vtype v) "ImportDeclaration" then ImportDeclaration (vnode v) st
  else if String.eqb (vtype v) "ExportNamedDeclaration" then ExportNamedDeclaration (vnode v) st
  else if String.eqb (vtype v) "ExportDefaultDeclaration" then ExportDefaultDeclaration (vnode v) st
  else if String.eqb (vtype v) "ImportExpression" then ImportExpression (vnode v) st
  else st.

(** `parseModule` once the file is read and parsed. *)
Definition extract (filePath text : string) (tree : node) : moduleInfo :=
  let st := fold_left visitor (walk [] tree "") initial in
  {| filePath := filePath;
     source := text;
     ast := tree;
     imports := imports_ st;
     exports := {| named := namedExports st; hasDefault := hasDefault_ st;
                   defaultNode := defaultNode_ st; defaultType := defaultType_ st |};
     dynamicImports := dynamicImports_ st;
     importedBindings := importedBindings_ st |}.

Definition parseModule (fs : fileSystem) (filePath : string) : result moduleInfo :=
  match fs filePath with
  | None => Throw ("ENOENT: no such file or directory, open '" +:+ filePath +:+ "'")
  | Some Directory => Throw "EISDIR: illegal operation on a directory, read"
  | Some (File text parsed) =>
      let! tree := parsed in
      Ok (extract filePath text tree)
  end.

End Parser.

(** ** Graph builder and chunk planner (dependency-graph.js) *)
Module DependencyGraph.

Abbreviation graph := (list (string * moduleInfo)).

(** The loop over `moduleInfo.imports`: each import gets its
    `resolvedPath`, and paths the graph does not hold are queued. *)
Fixpoint followImports (fs : fileSystem) (dir : string) (g : graph)
    (imps : list imp.t) : result (list imp.t * list string) :=
  match imps with
  | [] => Ok ([], [])
  | i :: rest =>
      let! resolved := Resolver.resolveModule (isFile fs) (imp.source i) dir in
      let! '(rest', pushed) := followImports fs dir g rest in
      Ok ({| imp.source := imp.source i; imp.specifiers := imp.specifiers i;
             imp.node_ := imp.node_ i; imp.resolvedPath := Some resolved |} :: rest',
          (if map_has g resolved then [] else [resolved]) ++ pushed)
  end.

(** The loop over `moduleInfo.dynamicImports`; sites without a literal
    source are left alone. *)
Fixpoint followDynamicImports (fs : fileSystem) (dir : string) (g : graph)
    (dyns : list dyn.t) : result (list dyn.t * list string) :=
  match dyns with
  | [] => Ok ([], [])
  | d :: rest =>
      if truthy (dyn.source d) then
        let! resolved := Resolver.resolveModule (isFile fs) (default "" (dyn.source d)) dir in
        let! '(rest', pushed) := followDynamicImports fs dir g rest in
        Ok ({| dyn.source := dyn.source d; dyn.node_ := dyn.node_ d;
               dyn.resolvedPath := Some resolved |} :: rest',
            (if map_has g resolved then [] else [resolved]) ++ pushed)
      else
        let! '(rest', pushed) := followDynamicImports fs dir g rest in
        Ok (d :: rest', pushed)
  end.

(** The `while (queue.length > 0)` loop of `buildDependencyGraph`; [None]
    when [fuel] iterations do not empty the queue.  The record stored in
    the graph is the one the two inner loops then fill in. *)
Fixpoint buildLoop (fuel : nat) (fs : fileSystem) (g : graph) (queue : list string)
    : option (result graph) :=
  match queue with
  | [] => Some (Ok g)
  | file :: queue' =>
      match fuel with
      | 0 => None
      | S fuel' =>
          if map_has g file then buildLoop fuel' fs g queue'
          else
            match Parser.parseModule fs file with
            | Throw m => Some (Throw m)
            | Ok info =>
                let g1 := map_set g file info in
                let dir := path.dirname file in
                match followImports fs dir g1 (imports info) with
                | Throw m => Some (Throw m)
                | Ok (imports', pushed1) =>
                    match followDynamicImports fs dir g1 (dynamicImports info) with
                    | Throw m => Some (Throw m)
                    | Ok (dynamicImports', pushed2) =>
                        let info' :=
                          {| filePath := filePath info; source := source info;
                             ast := ast info; imports := imports';
                             exports := exports info;
                             dynamicImports := dynamicImports';
                             importedBindings := importedBindings info |} in
                        buildLoop fuel' fs (map_set g1 file info')
                                  (queue' ++ pushed1 ++ pushed2)
                    end
                end
            end
      end
  end.

Definition buildDependencyGraph (fuel : nat) (fs : fileSystem) (entryPath : string)
    : option (result graph) :=
  buildLoop fuel fs [] [entryPath].

Definition toModuleId (absolutePath projectRoot : string) : string :=
  let rel := path.relative projectRoot absolutePath in
  "./" +:+ join "/" (split path.sep rel).

Definition isSlash (a : ascii) : bool := Ascii.eqb a "/" || Ascii.eqb a "\".
Definition isDot (a : ascii) : bool := Ascii.eqb a ".".

(** The last `replace(/_js$/, '_js')` changes nothing. *)
Definition toChunkId (moduleId : string) : string :=
  replaceAll isDot (replaceAll isSlash (stripDotSlash moduleId)).

(** `toModuleId(x.resolvedPath, projectRoot)`; `path.relative` rejects
    `undefined`. *)
Definition resolvedId (resolvedPath : option string) (projectRoot : string)
    : result string :=
  match resolvedPath with
  | Some p => Ok (toModuleId p projectRoot)
  | None =>
      Throw "The to argument must be of type string. Received undefined"
  end.

Fixpoint depIds (projectRoot : string) (imps : list imp.t) : result (list string) :=
  match imps with
  | [] => Ok []
  | i :: rest =>
      let! d := resolvedId (imp.resolvedPath i) projectRoot in
      let! ds := depIds projectRoot rest in
      Ok (d :: ds)
  end.

Abbreviation modulesMap := (list (string * moduleInfo)).

(** The breadth-first loop that steps 1 and 2 of `identifyChunks` both
    run over static imports: [visited] is the set being filled
    (`mainModuleIds`, `chunkModuleIds`), [excluded] the main chunk's set in
    step 2 and empty in step 1. *)
Fixpoint staticLoop (fuel : nat) (modules : modulesMap) (projectRoot : string)
    (excluded visited queue : list string) : option (result (list string)) :=
  match queue with
  | [] => Some (Ok visited)
  | modId :: queue' =>
      match fuel with
      | 0 => None
      | S fuel' =>
          if set_has visited modId || set_has excluded modId
          then staticLoop fuel' modules projectRoot excluded visited queue'
          else
            let visited' := set_add visited modId in
            match map_get modules modId with
            | None => staticLoop fuel' modules projectRoot excluded visited' queue'
            | Some info =>
                match depIds projectRoot (imports info) with
                | Throw m => Some (Throw m)
                | Ok deps =>
                    staticLoop fuel' modules projectRoot excluded visited'
                      (queue' ++ filter (fun d => negb (set_has visited' d)
                                                  && negb (set_has excluded d)) deps)
                end
            end
      end
  end.

Record chunk := {
  id : string;
  moduleIds : list string;
  entryModuleId : option string;
  originalChunks : list string (* shared chunks only *) }.

Abbreviation chunkMap := (list (string * chunk)).

(** *** `splitSharedModules` *)

(** Which lazy chunks hold each module. *)
Definition countModules (lazyChunks : chunkMap) : list (string * list string) :=
  fold_left (fun counts '(chunkId, c) =>
    fold_left (fun counts modId =>
                 let counts' := if map_has counts modId then counts
                                else map_set counts modId [] in
                 map_set counts' modId
                   (set_add (default [] (map_get counts' modId)) chunkId))
              (moduleIds c) counts)
    lazyChunks [].

Definition sharedModulesOf (moduleCounts : list (string * list string))
    : list (string * list string) :=
  filter (fun '(_, chunks) => 2 <=? length chunks) moduleCounts.

(** `Array.prototype.sort()` without a comparator, on strings. *)
Fixpoint insertSorted (x : string) (l : list string) : list string :=
  match l with
  | [] => [x]
  | y :: rest => if String.ltb y x || String.eqb y x then y :: insertSorted x rest
                 else x :: l
  end.
Definition sortStrings (l : list string) : list string :=
  fold_left (fun acc x => insertSorted x acc) l [].

Definition groupKey (chunkSet : list string) : string :=
  join "|" (sortStrings chunkSet).

Record group := { gModuleIds : list string; gChunkIds : list string }.

Definition groupsOf (sharedModules : list (string * list string))
    : list (string * group) :=
  fold_left (fun groups '(modId, chunkIds) =>
    let key := groupKey chunkIds in
    let groups' := if map_has groups key then groups
                   else map_set groups key
                          {| gModuleIds := []; gChunkIds := chunkIds |} in
    match map_get groups' key with
    | Some g => map_set groups' key
                  {| gModuleIds := set_add (gModuleIds g) modId;
                     gChunkIds := gChunkIds g |}
    | None => groups'
    end)
    sharedModules [].

(** `[...group.moduleIds][0]`, interpolated into the chunk name. *)
Definition firstModId (g : group) : option string := head (gModuleIds g).

Definition sharedChunkOf (g : group) : chunk :=
  let sharedChunkId := "shared_" +:+ toChunkId (show (firstModId g)) in
  {| id := sharedChunkId; moduleIds := gModuleIds g;
     entryModuleId := None; originalChunks := gChunkIds g |}.

Definition sharedChunksOf (groups : list (string * group)) : chunkMap :=
  fold_left (fun shared '(_, g) =>
               let c := sharedChunkOf g in map_set shared (id c) c)
            groups [].

Definition removeShared (sharedModules : list (string * list string))
    (lazyChunks : chunkMap) : chunkMap :=
  fold_left (fun updated '(chunkId, c) =>
               map_set updated chunkId
                 {| id := id c;
                    moduleIds := filter (fun m => negb (map_has sharedModules m))
                                        (moduleIds c);
                    entryModuleId := entryModuleId c;
                    originalChunks := originalChunks c |})
            lazyChunks [].

Definition splitSharedModules (lazyChunks : chunkMap) : chunkMap * chunkMap :=
  let sharedModules := sharedModulesOf (countModules lazyChunks) in
  if length sharedModules =? 0 then (lazyChunks, [])
  else (removeShared sharedModules lazyChunks,
        sharedChunksOf (groupsOf sharedModules)).

(** *** `identifyChunks` *)

Record chunkInfo := {
  mainChunk : chunk;
  lazyChunks : chunkMap;
  chunkGroupMap : list (string * list string);
  modules : modulesMap;
  dynamicEntryPoints : list (string * string) }.

Definition modulesOf (g : graph) (projectRoot : string) : modulesMap :=
  fold_left (fun modules '(absPath, info) =>
               map_set modules (toModuleId absPath projectRoot) info)
            g [].

(** Collecting the targets of the dynamic imports, keyed by module id. *)
Definition dynamicEntryPointsOf (modules : modulesMap) (projectRoot : string)
    : list (string * string) :=
  fold_left (fun points '(_, info) =>
    fold_left (fun points d =>
                 if truthy (dyn.resolvedPath d) then
                   let targetId := toModuleId (default "" (dyn.resolvedPath d)) projectRoot in
                   map_set points targetId (toChunkId targetId)
                 else points)
              (dynamicImports info) points)
    modules [].

(** Step 2: one breadth-first search per dynamic entry point. *)
Fixpoint lazyChunksOf (fuel : nat) (modules : modulesMap) (projectRoot : string)
    (mainModuleIds : list string) (points : list (string * string))
    (lazy : chunkMap) : option (result chunkMap) :=
  match points with
  | [] => Some (Ok lazy)
  | (targetModuleId, chunkId) :: rest =>
      match staticLoop fuel modules projectRoot mainModuleIds [] [targetModuleId] with
      | None => None
      | Some (Throw m) => Some (Throw m)
      | Some (Ok chunkModuleIds) =>
          lazyChunksOf fuel modules projectRoot mainModuleIds rest
            (map_set lazy chunkId
               {| id := chunkId; moduleIds := chunkModuleIds;
                  entryModuleId := Some targetModuleId; originalChunks := [] |})
      end
  end.

(** Step 4, inner loop: the shared chunks whose `originalChunks` has
    [chunkId], in the iteration order of the `sharedChunks` map. *)
Fixpoint neededShared (chunkId : string) (sharedChunks : chunkMap) : list string :=
  match sharedChunks with
  | [] => []
  | (sharedId, sharedChunk) :: rest =>
      if set_has (originalChunks sharedChunk) chunkId
      then sharedId :: neededShared chunkId rest
      else neededShared chunkId rest
  end.

(** Step 4: `chunkGroupMap[chunkId] = neededChunks` for every lazy chunk. *)
Definition chunkGroupMapOf (updatedLazyChunks sharedChunks : chunkMap)
    : list (string * list string) :=
  fold_left (fun groups '(chunkId, _) =>
               map_set groups chunkId (neededShared chunkId sharedChunks ++ [chunkId]))
            updatedLazyChunks [].

(** `new Map([...updatedLazyChunks, ...sharedChunks])` *)
Definition mergeChunks (updatedLazyChunks sharedChunks : chunkMap) : chunkMap :=
  fold_left (fun m '(k, c) => map_set m k c) (updatedLazyChunks ++ sharedChunks) [].

(** What steps 1 and 2 of `identifyChunks` leave for steps 3 and 4. *)
Record reached := {
  rModules : modulesMap;
  rMainModuleIds : list string;
  rPoints : list (string * string);
  rLazyChunks : chunkMap }.

Definition reach (fuel : nat) (g : graph) (entryPath projectRoot : string)
    : option (result reached) :=
  let entryModuleId := toModuleId entryPath projectRoot in
  let modules := modulesOf g projectRoot in
  match staticLoop fuel modules projectRoot [] [] [entryModuleId] with
  | None => None
  | Some (Throw m) => Some (Throw m)
  | Some (Ok mainModuleIds) =>
      let points := dynamicEntryPointsOf modules projectRoot in
      match lazyChunksOf fuel modules projectRoot mainModuleIds points [] with
      | None => None
      | Some (Throw m) => Some (Throw m)
      | Some (Ok lazy) =>
          Some (Ok {| rModules := modules; rMainModuleIds := mainModuleIds;
                      rPoints := points; rLazyChunks := lazy |})
      end
  end.

(** Steps 3 and 4, and the returned object. *)
Definition plan (r : reached) : chunkInfo :=
  let '(updatedLazyChunks, sharedChunks) := splitSharedModules (rLazyChunks r) in
  {| mainChunk := {| id := "main"; moduleIds := rMainModuleIds r;
                     entryModuleId := None; originalChunks := [] |};
     lazyChunks := mergeChunks updatedLazyChunks sharedChunks;
     chunkGroupMap := chunkGroupMapOf updatedLazyChunks sharedChunks;
     modules := rModules r;
     dynamicEntryPoints := rPoints r |}.

Definition identifyChunks (fuel : nat) (g : graph) (entryPath projectRoot : string)
    : option (result chunkInfo) :=
  match reach fuel g entryPath projectRoot with
  | None => None
  | Some (Throw m) => Some (Throw m)
  | Some (Ok r) => Some (Ok (plan r))
  end.

End DependencyGraph.

(** ** magic-string

    The patch buffer the transformer edits, as far as it is used: a chain of
    chunks covering the original text, split at the boundaries of every
    edit.  `intro` and `outro` stay empty since nothing is appended or
    prepended. *)
Module MagicString.

Record chunk := {
  cstart : nat;
  cend : nat;
  coriginal : string;
  content : string;
  edited : bool }.

Record t := { original : string; chunks : list chunk }.

Definition new (text : string) : t :=
  {| original := text;
     chunks := [{| cstart := 0; cend := String.length text; coriginal := text;
                   content := text; edited := false |}] |}.

(** `chunk.edit(content)` *)
Definition edit (text : string) (c : chunk) : chunk :=
  {| cstart := cstart c; cend := cend c; coriginal := coriginal c;
     content := text; edited := true |}.

(** `chunk.split(index)` *)
Definition splitChunk (c : chunk) (index : nat) : chunk * chunk :=
  let sliceIndex := index - cstart c in
  let originalBefore := substring 0 sliceIndex (coriginal c) in
  let originalAfter :=
    substring sliceIndex (String.length (coriginal c) - sliceIndex) (coriginal c) in
  ({| cstart := cstart c; cend := index; coriginal := originalBefore;
      content := if edited c then "" else originalBefore; edited := edited c |},
   {| cstart := index; cend := cend c; coriginal := originalAfter;
      content := if edited c then "" else originalAfter; edited := edited c |}).

(** `_splitChunk` on the chunk that contains [index]. *)
Fixpoint splitAt (index : nat) (cs : list chunk) : result (list chunk) :=
  match cs with
  | [] => Ok []
  | c :: rest =>
      if (cstart c <? index) && (index <? cend c) then
        if edited c && negb (String.eqb (content c) "") then
          Throw "Cannot split a chunk that has already been edited"
        else let '(c1, c2) := splitChunk c index in Ok (c1 :: c2 :: rest)
      else
        let! rest' := splitAt index rest in Ok (c :: rest')
  end.

(** `_split(index)`: nothing to do at an existing boundary. *)
Definition split_ (index : nat) (cs : list chunk) : result (list chunk) :=
  if existsb (fun c => (cstart c =? index) || (cend c =? index)) cs then Ok cs
  else splitAt index cs.

(** The loop of `remove`, from the chunk that starts the range. *)
Fixpoint removeFrom (e : nat) (cs : list chunk) : list chunk :=
  match cs with
  | [] => []
  | c :: rest => edit "" c :: (if cend c <? e then removeFrom e rest else rest)
  end.
Fixpoint removeAt (s e : nat) (cs : list chunk) : list chunk :=
  match cs with
  | [] => []
  | c :: rest => if cstart c =? s then removeFrom e cs else c :: removeAt s e rest
  end.

Definition remove (s e : nat) (m : t) : result t :=
  if s =? e then Ok m
  else if String.length (original m) <? e then Throw "Character is out of bounds"
  else if e <? s then Throw "end must be greater than start"
  else
    let! cs1 := split_ s (chunks m) in
    let! cs2 := split_ e cs1 in
    Ok {| original := original m; chunks := removeAt s e cs2 |}.

(** The loop of `update`: blank every chunk after the first one up to
    the chunk that ends the range. *)
Fixpoint blankUntil (e : nat) (cs : list chunk) : result (list chunk) :=
  match cs with
  | [] => Throw "Cannot overwrite across a split point"
  | c :: rest =>
      if cend c =? e then Ok (edit "" c :: rest)
      else let! rest' := blankUntil e rest in Ok (edit "" c :: rest')
  end.
Fixpoint overwriteAt (s e : nat) (text : string) (cs : list chunk)
    : result (list chunk) :=
  match cs with
  | [] => Throw "Cannot overwrite past the end of the text"
  | c :: rest =>
      if cstart c =? s then
        if cend c =? e then Ok (edit text c :: rest)
        else let! rest' := blankUntil e rest in Ok (edit text c :: rest')
      else let! rest' := overwriteAt s e text rest in Ok (c :: rest')
  end.

(** `overwrite(start, end, content)`.  A start beyond the text, which no
    parsed node has, is reported as an error here. *)
Definition overwrite (s e : nat) (text : string) (m : t) : result t :=
  if String.length (original m) <? e then Throw "end is out of bounds"
  else if s =? e then Throw "Cannot overwrite a zero-length range"
  else
    let! cs1 := split_ s (chunks m) in
    let! cs2 := split_ e cs1 in
    let! cs3 := overwriteAt s e text cs2 in
    Ok {| original := original m; chunks := cs3 |}.

Definition toString (m : t) : string :=
  fold_right (fun c acc => content c +:+ acc) "" (chunks m).

(** The current text of the chunks that lie within the original range
    from [a] to [b]. *)
Definition renderedChunks (a b : nat) (cs : list chunk) : string :=
  fold_right (fun c acc => if (a <=? cstart c) && (cend c <=? b)
                           then content c +:+ acc else acc) "" cs.
Definition rendered (a b : nat) (m : t) : string := renderedChunks a b (chunks m).

(** *** The shape of the chunk chain

    [cover a cs b]: the chunks [cs] are non-empty, adjacent, and run from
    [a] to [b]. *)
Inductive cover : nat -> list chunk -> nat -> Prop :=
| cover_nil a : cover a [] a
| cover_cons c rest b :
    cstart c < cend c -> cover (cend c) rest b -> cover (cstart c) (c :: rest) b.

(** [x] is a split point of a chain that starts at [a]. *)
Definition isBoundary (a : nat) (cs : list chunk) (x : nat) : Prop :=
  x = a \/ x ∈ map cend cs.

(** What `remove` and `overwrite` do to a chain that is split at both ends
    of the range: the chunk that starts the range takes the new text, the
    other chunks of the range become empty. *)
Definition inRange (s e : nat) (c : chunk) : bool := (s <=? cstart c) && (cstart c <? e).
Definition editRange (s e : nat) (text : string) (cs : list chunk) : list chunk :=
  map (fun c => if inRange s e c then edit (if cstart c =? s then text else "") c else c) cs.

(** A buffer over a text of length [n] on which the ranges [E] have been
    edited: its chain covers the text, is split at the ends of every range of
    [E], and every edited chunk lies within a range of [E]. *)
Definition edited_within (n : nat) (E : list (nat * nat)) (m : t) : Prop :=
  String.length (original m) = n
  /\ cover 0 (chunks m) n
  /\ (forall r, r ∈ E -> isBoundary 0 (chunks m) r.1 /\ isBoundary 0 (chunks m) r.2)
  /\ (forall c, c ∈ chunks m -> edited c = true ->
        exists r, r ∈ E /\ r.1 <= cstart c /\ cend c <= r.2).

End MagicString.

(** ** Module transformer (transformer.js) *)
Module Transformer.
Import DependencyGraph.

Definition isAlnum (a : ascii) : bool :=
  let n := nat_of_ascii a in
  ((97 <=? n) && (n <=? 122)) || ((65 <=? n) && (n <=? 90)) || ((48 <=? n) && (n <=? 57)).

(** `s.replace(/\.js$/, '')` *)
Definition stripJsSuffix (s : string) : string :=
  match String.rev s with
  | String "s" (String "j" (String "." r)) => String.rev r
  | _ => s
  end.

Definition makeVarName (modulePath : string) : string :=
  "_" +:+ replaceAll (fun a => negb (isAlnum a)) (stripJsSuffix (stripDotSlash modulePath))
      +:+ "_".

Record getter := { exported : option string; getter_ : string }.
Record replacement := { rstart : nat; rend : nat; rtext : string }.

(** What `transformModule` builds up as it goes. *)
Record state := {
  s : MagicString.t;
  moduleVarNames : list (string * string);
  loadModuleCalls : list string;
  exportGetters : list getter }.

Definition loadModuleCall (varName moduleId : string) : string :=
  "var " +:+ varName +:+ " = loadModule(" +:+ dq +:+ moduleId +:+ dq +:+ ");".

(** Step 1: a variable name for each import source, and the module id of
    each import. *)
Fixpoint step1 (projectRoot : string) (imps : list imp.t)
    (names : list (string * string)) : result (list (imp.t * string) * list (string * string)) :=
  match imps with
  | [] => Ok ([], names)
  | i :: rest =>
      let! moduleId := resolvedId (imp.resolvedPath i) projectRoot in
      let names' := if map_has names (imp.source i) then names
                    else map_set names (imp.source i) (makeVarName (imp.source i)) in
      let! '(rest', names'') := step1 projectRoot rest names' in
      Ok ((i, moduleId) :: rest', names'')
  end.

(** Step 2: a `loadModule` call for each import, whose declaration is
    removed. *)
Fixpoint step2 (imps : list (imp.t * string)) (st : state) : result state :=
  match imps with
  | [] => Ok st
  | (i, moduleId) :: rest =>
      let varName := show (map_get (moduleVarNames st) (imp.source i)) in
      let! s' := MagicString.remove (nstart (imp.node_ i)) (nend (imp.node_ i)) (s st) in
      step2 rest {| s := s'; moduleVarNames := moduleVarNames st;
                    loadModuleCalls := loadModuleCalls st ++ [loadModuleCall varName moduleId];
                    exportGetters := exportGetters st |}
  end.

(** Step 3, one named export. *)
Definition namedExport (info : moduleInfo) (projectRoot : string) (e : exp.t)
    (st : state) : result state :=
  let! s' :=
    match exp.declarationNode e with
    | Some decl => MagicString.remove (nstart (exp.node_ e)) (nstart decl) (s st)
    | None => MagicString.remove (nstart (exp.node_ e)) (nend (exp.node_ e)) (s st)
    end in
  if truthy (exp.reexportSource e) then
    let reexportSource := default "" (exp.reexportSource e) in
    let moduleId :=
      toModuleId (path.resolve (path.dirname (filePath info)) reexportSource) projectRoot in
    let fresh := negb (map_has (moduleVarNames st) reexportSource) in
    let names := if fresh
                 then map_set (moduleVarNames st) reexportSource (makeVarName reexportSource)
                 else moduleVarNames st in
    let calls := if fresh
                 then loadModuleCalls st ++ [loadModuleCall (makeVarName reexportSource) moduleId]
                 else loadModuleCalls st in
    let varName := show (map_get names reexportSource) in
    Ok {| s := s'; moduleVarNames := names; loadModuleCalls := calls;
          exportGetters := exportGetters st ++
            [{| exported := exp.exported e;
                getter_ := "() => " +:+ varName +:+ "." +:+ show (exp.local e) |}] |}
  else
    Ok {| s := s'; moduleVarNames := moduleVarNames st;
          loadModuleCalls := loadModuleCalls st;
          exportGetters := exportGetters st ++
            [{| exported := exp.exported e;
                getter_ := "() => " +:+ show (exp.local e) |}] |}.

Fixpoint step3 (info : moduleInfo) (projectRoot : string) (es : list exp.t)
    (st : state) : result state :=
  match es with
  | [] => Ok st
  | e :: rest =>
      let! st' := namedExport info projectRoot e st in
      step3 info projectRoot rest st'
  end.

Definition withDefault (s' : MagicString.t) (target : string) (st : state) : state :=
  {| s := s'; moduleVarNames := moduleVarNames st;
     loadModuleCalls := loadModuleCalls st;
     exportGetters := exportGetters st ++
       [{| exported := Some "default"; getter_ := "() => " +:+ target |}] |}.

(** Step 3, the default export. *)
Definition defaultExport (info : moduleInfo) (st : state) : result state :=
  if hasDefault (exports info) then
    match defaultNode (exports info) with
    | None => Throw "Cannot read properties of null (reading 'declaration')"
    | Some defNode =>
        match child "declaration" defNode with
        | None => Throw "Cannot read properties of undefined (reading 'start')"
        | Some decl =>
            if bool_decide (defaultType (exports info) = Some declaration) then
              let declName := nameOf (child "id" decl) in
              let! s1 := MagicString.remove (nstart defNode) (nstart decl) (s st) in
              if truthy declName then Ok (withDefault s1 (show declName) st)
              else
                let! s2 := MagicString.overwrite (nstart defNode) (nstart decl)
                             "var __default_export__ = " s1 in
                Ok (withDefault s2 "__default_export__" st)
            else
              let! s1 := MagicString.overwrite (nstart defNode) (nstart decl)
                           "var __default_export__ = " (s st) in
              Ok (withDefault s1 "__default_export__" st)
        end
    end
  else Ok st.

(** Step 4: the contexts in which the `Identifier` visitor leaves an
    occurrence alone. *)
Definition skipped (n parent : node) : bool :=
  isAmong (ntype parent) ["ImportSpecifier"; "ImportDefaultSpecifier";
                          "ImportNamespaceSpecifier"; "ImportDeclaration"]
  || String.eqb (ntype parent) "ExportSpecifier"
  || (String.eqb (ntype parent) "Property" && childIs "key" parent n
      && negb (ncomputed parent))
  || (String.eqb (ntype parent) "MemberExpression" && childIs "property" parent n
      && negb (ncomputed parent))
  || (String.eqb (ntype parent) "VariableDeclarator" && childIs "id" parent n)
  || (isAmong (ntype parent) ["FunctionDeclaration"; "ClassDeclaration"]
      && childIs "id" parent n)
  || (isAmong (ntype parent) ["FunctionDeclaration"; "FunctionExpression";
                              "ArrowFunctionExpression"]
      && childrenInclude "params" parent n)
  || (String.eqb (ntype parent) "LabeledStatement" && childIs "label" parent n)
  || (String.eqb (ntype parent) "BreakStatement" && childIs "label" parent n)
  || (String.eqb (ntype parent) "ContinueStatement" && childIs "label" parent n).

(** The `Identifier` visitor: the replacement it records, if any. *)
Definition Identifier (bindings : list (option string * binding.t))
    (names : list (string * string)) (n : node) (ancestors : list node)
    : option replacement :=
  match map_get bindings (nname n) with
  | None => None
  | Some b =>
      match ancestors !! 1 with
      | None => None
      | Some parent =>
          if skipped n parent then None
          else
            match map_get names (binding.modulePath b) with
            | None => None
            | Some varName =>
                if String.eqb varName "" then None
                else
                  let r :=
                    if bool_decide (binding.importedName b = Some "*") then varName
                    else if bool_decide (binding.importedName b = Some "default")
                    then varName +:+ "[" +:+ dq +:+ "default" +:+ dq +:+ "]"
                    else varName +:+ "." +:+ show (binding.importedName b) in
                  let isCallTarget :=
                    String.eqb (ntype parent) "CallExpression" && childIs "callee" parent n in
                  let isTaggedTemplate :=
                    String.eqb (ntype parent) "TaggedTemplateExpression"
                    && childIs "tag" parent n in
                  Some {| rstart := nstart n; rend := nend n;
                          rtext := if isCallTarget || isTaggedTemplate
                                   then "(0, " +:+ r +:+ ")" else r |}
            end
      end
  end.

Definition collectReplacements (info : moduleInfo) (names : list (string * string))
    : list replacement :=
  flat_map (fun v =>
              if String.eqb (vtype v) "Identifier" then
                match Identifier (importedBindings info) names (vnode v) (vancestors v) with
                | Some r => [r]
                | None => []
                end
              else [])
           (walk [] (ast info) "").

(** `replacements.sort((a, b) => b.start - a.start)`, a stable sort. *)
Fixpoint insertByStart (r : replacement) (l : list replacement) : list replacement :=
  match l with
  | [] => [r]
  | x :: rest => if rstart r <=? rstart x then x :: insertByStart r rest else r :: l
  end.
Definition sortByStartDescending (l : list replacement) : list replacement :=
  fold_left (fun acc r => insertByStart r acc) l [].

Fixpoint applyReplacements (rs : list replacement) (m : MagicString.t)
    : result MagicString.t :=
  match rs with
  | [] => Ok m
  | r :: rest =>
      let! m' := MagicString.overwrite (rstart r) (rend r) (rtext r) m in
      applyReplacements rest m'
  end.

Definition dynamicImportCall (chunkId targetModuleId : string) : string :=
  "loadChunk(" +:+ dq +:+ chunkId +:+ dq +:+ ").then(loadModule.bind(loadModule, "
  +:+ dq +:+ targetModuleId +:+ dq +:+ "))".

(** Step 5 *)
Fixpoint step5 (projectRoot : string) (dyns : list dyn.t) (m : MagicString.t)
    : result MagicString.t :=
  match dyns with
  | [] => Ok m
  | d :: rest =>
      if truthy (dyn.resolvedPath d) then
        let targetModuleId := toModuleId (default "" (dyn.resolvedPath d)) projectRoot in
        let chunkId := toChunkId targetModuleId in
        let! m' := MagicString.overwrite (nstart (dyn.node_ d)) (nend (dyn.node_ d))
                     (dynamicImportCall chunkId targetModuleId) m in
        step5 projectRoot rest m'
      else step5 projectRoot rest m
  end.

Definition getterEntry (g : getter) : string :=
  "    " +:+ dq +:+ show (exported g) +:+ dq +:+ ": " +:+ getter_ g.

Definition markLine : string := "loadModule.markAsESModule(exports);".

Definition defineExportsCall (gs : list getter) : string :=
  "loadModule.defineExports(exports, {" +:+ nl +:+
  join ("," +:+ nl) (map getterEntry gs) +:+ nl +:+ "});".

(** The lines of the factory body, before they are joined. *)
Definition factoryLines (info : moduleInfo) (st : state) : list string :=
  (if (0 <? length (exportGetters st)) || hasDefault (exports info) then
     markLine ::
     (if 0 <? length (exportGetters st) then [defineExportsCall (exportGetters st)] else [])
   else [markLine])
  ++ (if 0 <? length (loadModuleCalls st) then [join nl (loadModuleCalls st)] else [])
  ++ [trim (MagicString.toString (s st))].

(** The state after all edits of `transformModule`. *)
Definition transformState (info : moduleInfo) (projectRoot : string) : result state :=
  let! '(imps, names) := step1 projectRoot (imports info) [] in
  let! st2 := step2 imps {| s := MagicString.new (source info);
                            moduleVarNames := names;
                            loadModuleCalls := []; exportGetters := [] |} in
  let! st3 := step3 info projectRoot (named (exports info)) st2 in
  let! st3' := defaultExport info st3 in
  let replacements :=
    sortByStartDescending (collectReplacements info (moduleVarNames st3')) in
  let! s4 := applyReplacements replacements (s st3') in
  let! s5 := step5 projectRoot (dynamicImports info) s4 in
  Ok {| s := s5; moduleVarNames := moduleVarNames st3';
        loadModuleCalls := loadModuleCalls st3';
        exportGetters := exportGetters st3' |}.

Definition transformModule (info : moduleInfo) (projectRoot : string) : result string :=
  let! st := transformState info projectRoot in
  Ok (join (nl +:+ nl) (factoryLines info st)).

(** *** The ranges that `transformModule` edits

    In the order of the edits: the import declarations, the named exports
    (the `export` keyword of a declaration, else the whole statement), the
    `export default` prefix, the identifiers the `Identifier` visitor sees,
    the dynamic imports that were resolved. *)
Definition range : Type := nat * nat.

Definition importRanges (info : moduleInfo) : list range :=
  map (fun i => (nstart (imp.node_ i), nend (imp.node_ i))) (imports info).

Definition exportRange (e : exp.t) : range :=
  match exp.declarationNode e with
  | Some decl => (nstart (exp.node_ e), nstart decl)
  | None => (nstart (exp.node_ e), nend (exp.node_ e))
  end.

Definition identifierRanges (info : moduleInfo) : list range :=
  map (fun v => (nstart (vnode v), nend (vnode v)))
      (filter (fun v => vtype v = "Identifier") (walk [] (ast info) "")).

Definition dynamicRanges (info : moduleInfo) : list range :=
  map (fun d => (nstart (dyn.node_ d), nend (dyn.node_ d)))
      (filter (fun d => truthy (dyn.resolvedPath d) = true) (dynamicImports info)).

(** Two ranges are compatible when they are the same range or do not
    overlap. *)
Definition disjoint (r1 r2 : range) : Prop := r1.2 <= r2.1 \/ r2.2 <= r1.1.
Definition compatible (r1 r2 : range) : Prop := r1 = r2 \/ disjoint r1 r2.

(** What a parser guarantees of the ranges of a module whose
    `export default` prefix is [d]: each is a non-empty range of the source,
    any two are compatible, and no identifier or dynamic import lies in the
    prefix. *)
Definition ranges_wf (info : moduleInfo) (d : range) : Prop :=
  let later := identifierRanges info ++ dynamicRanges info in
  let all := importRanges info ++ map exportRange (named (exports info)) ++ [d] ++ later in
  (forall r, r ∈ all -> r.1 < r.2 <= String.length (source info))
  /\ (forall r1 r2, r1 ∈ all -> r2 ∈ all -> compatible r1 r2)
  /\ (forall r, r ∈ later -> disjoint r d).

End Transformer.

(** ** Code generator (code-generator.js) *)
Module CodeGenerator.
Import DependencyGraph.

(** `indentCode` *)
Definition indentCode (code prefix : string) : string :=
  join nl (map (fun line => if String.eqb (trim line) "" then "" else prefix +:+ line)
               (split (ascii_of_nat 10) code)).

(** `JSON.stringify` on a string and on an array of strings. *)
Definition hexDigit (n : nat) : ascii :=
  ascii_of_nat (if n <? 10 then 48 + n else 87 + n).
Fixpoint jsonEscape (s : string) : string :=
  match s with
  | EmptyString => EmptyString
  | String a rest =>
      let n := nat_of_ascii a in
      (if n =? 34 then "\" +:+ dq
       else if n =? 92 then "\\"
       else if n =? 8 then "\b"
       else if n =? 9 then "\t"
       else if n =? 10 then "\n"
       else if n =? 12 then "\f"
       else if n =? 13 then "\r"
       else if n <? 32 then
         "\u00" +:+ String (hexDigit (n / 16)) (String (hexDigit (n mod 16)) EmptyString)
       else String a EmptyString) +:+ jsonEscape rest
  end.
Definition jsonString (s : string) : string := dq +:+ jsonEscape s +:+ dq.
Definition jsonArray (l : list string) : string :=
  "[" +:+ join "," (map jsonString l) +:+ "]".

(** `Object.entries`: array-index keys come first, in increasing order,
    then the other keys in insertion order. *)
Definition isDigit (a : ascii) : bool :=
  let n := nat_of_ascii a in (48 <=? n) && (n <=? 57).
Fixpoint digitsValue (acc : N) (s : string) : N :=
  match s with
  | EmptyString => acc
  | String a rest => digitsValue (acc * 10 + N.of_nat (nat_of_ascii a - 48))%N rest
  end.
Definition arrayIndex (k : string) : option N :=
  match k with
  | EmptyString => None
  | String a rest =>
      if forallb isDigit (list_ascii_of_string k)
         && (negb (Ascii.eqb a "0") || String.eqb rest "")
         && (String.length k <=? 10)
         && (digitsValue 0 k <? 4294967295)%N
      then Some (digitsValue 0 k) else None
  end.
Fixpoint insertIndexed {V} (e : N * (string * V)) (l : list (N * (string * V)))
    : list (N * (string * V)) :=
  match l with
  | [] => [e]
  | x :: rest => if (fst x <=? fst e)%N then x :: insertIndexed e rest else e :: l
  end.
Definition objectEntries {V} (o : list (string * V)) : list (string * V) :=
  map snd (fold_left (fun acc e => match arrayIndex (fst e) with
                                   | Some i => insertIndexed (i, e) acc
                                   | None => acc
                                   end) o [])
  ++ filter (fun e => bool_decide (arrayIndex (fst e) = None)) o.

(** The banner, the opening of the scoped block and of the registry. *)
Definition mainHeader : list string :=
  [
   "// ================================================================";
   "// MAIN BUNDLE (Entry Chunk)";
   "// ================================================================";
   "// This is the entry chunk. It contains:";
   "//   1. The Module Registry — factory functions for all statically-imported modules";
   "//   2. The Module Cache — so each module executes only once";
   "//   3. The loadModule() function — the core module loader";
   "//   4. Runtime helpers — for ES module interop and lazy loading";
   "//   5. The entry point execution";
   "//";
   "// In webpack, this entire IIFE is the entry chunk output.";
   "// We use readable names instead of webpack's minified ones.";
   "// See the name mapping in README.md for the full correspondence.";
   "(() => {";
   dq +:+ "use strict" +:+ dq +:+ ";";
   "";
   "// ========================================================";
   "// MODULE REGISTRY (webpack: __webpack_modules__)";
   "// ========================================================";
   "// A Module is a single source file wrapped in a factory function.";
   "// This object maps Module IDs (file paths) to their factory functions.";
   "// All modules in the " +:+ dq +:+ "main" +:+ dq +:+ " Chunk are registered here at build time.";
   "// Modules from lazy Chunks are added at runtime when those chunks load.";
   "//";
   "// Each factory receives three arguments:";
   "//   module  — the module object (module.exports is the exports object)";
   "//   exports — shorthand for module.exports";
   "//   loadModule — the module loader function (to require dependencies)";
   "var moduleRegistry = {"
  ].

(** The module cache. *)
Definition moduleCacheLines : list string :=
  [
   "";
   "// ========================================================";
   "// MODULE CACHE (webpack: __webpack_module_cache__)";
   "// ========================================================";
   "// Each module is executed at most once. After the first execution,";
   "// its exports are cached here. Subsequent loadModule() calls";
   "// return the cached exports without re-executing the factory.";
   "var moduleCache = {};"
  ].

(** The core module loader. *)
Definition loaderLines : list string :=
  [
   "";
   "// ========================================================";
   "// CORE MODULE LOADER (webpack: __webpack_require__)";
   "// ========================================================";
   "// This is the heart of the bundler runtime. When a module calls";
   "// loadModule(" +:+ dq +:+ "./src/utils/math.js" +:+ dq +:+ "), this function:";
   "//   1. Checks the cache — if already loaded, returns cached exports";
   "//   2. Creates a new module object with an empty exports object";
   "//   3. Calls the factory function from moduleRegistry";
   "//   4. Returns the populated exports object";
   "function loadModule(moduleId) {";
   "  // Check if module is already cached";
   "  var cachedModule = moduleCache[moduleId];";
   "  if (cachedModule !== undefined) {";
   "    return cachedModule.exports;";
   "  }";
   "";
   "  // Create a new module and put it in the cache";
   "  var module = moduleCache[moduleId] = {";
   "    exports: {}";
   "  };";
   "";
   "  // Execute the module factory";
   "  moduleRegistry[moduleId](module, module.exports, loadModule);";
   "";
   "  // Return the module's exports";
   "  return module.exports;";
   "}"
  ].

(** The helpers attached to the loader. *)
Definition helperLines : list string :=
  [
   "";
   "// ========================================================";
   "// RUNTIME HELPERS";
   "// ========================================================";
   "// These helper functions are attached to loadModule so that";
   "// module factories (including those in lazy chunks) can access";
   "// them via the loadModule parameter. This mirrors webpack's";
   "// pattern of attaching helpers to __webpack_require__.";
   "";
   "// Mark exports as an ES module (webpack: __webpack_require__.r)";
   "// Sets Symbol.toStringTag = " +:+ dq +:+ "Module" +:+ dq +:+ " and __esModule = true.";
   "// This is how other code (and bundlers) detect ES module exports.";
   "loadModule.markAsESModule = function(exports) {";
   "  if (typeof Symbol !== " +:+ dq +:+ "undefined" +:+ dq +:+ " && Symbol.toStringTag) {";
   "    Object.defineProperty(exports, Symbol.toStringTag, { value: " +:+ dq +:+ "Module" +:+ dq +:+ " });";
   "  }";
   "  Object.defineProperty(exports, " +:+ dq +:+ "__esModule" +:+ dq +:+ ", { value: true });";
   "};";
   "";
   "// Define getter-based exports (webpack: __webpack_require__.d)";
   "// Instead of setting exports.add = add directly, we define a getter.";
   "// This creates " +:+ dq +:+ "live bindings" +:+ dq +:+ " — if the original variable changes,";
   "// the exported value updates too. This is required by the ES module spec.";
   "loadModule.defineExports = function(exports, definition) {";
   "  for (var key in definition) {";
   "    if (loadModule.hasOwnProp(definition, key) && !loadModule.hasOwnProp(exports, key)) {";
   "      Object.defineProperty(exports, key, { enumerable: true, get: definition[key] });";
   "    }";
   "  }";
   "};";
   "";
   "// hasOwnProperty shorthand (webpack: __webpack_require__.o)";
   "loadModule.hasOwnProp = function(obj, prop) {";
   "  return Object.prototype.hasOwnProperty.call(obj, prop);";
   "};"
  ].

(** The lazy-loading runtime, up to the chunk-group table. *)
Definition lazyRuntimeHead : list string :=
  [
   "";
   "// ========================================================";
   "// LAZY LOADING RUNTIME";
   "// ========================================================";
   "// Everything below handles on-demand chunk loading via import().";
   "// Webpack uses a JSONP-like pattern: lazy chunks push their data";
   "// into a global array, and the main chunk's runtime picks it up.";
   "";
   "// Chunk loading state machine (webpack: installedChunks)";
   "// For each chunk ID, the value is:";
   "//   0            = already loaded and available";
   "//   undefined    = not yet requested";
   "//   [resolve, reject, promise] = currently loading";
   "var chunkStatus = {};";
   "";
   "// Map chunk ID to filename (webpack: __webpack_require__.u)";
   "// In a real bundler this might have content hashes. We keep it simple.";
   "function getChunkFileName(chunkId) {";
   "  return chunkId + " +:+ dq +:+ ".js" +:+ dq +:+ ";";
   "}";
   "";
   "// Base URL for loading chunks (webpack: __webpack_require__.p)";
   "// In production, this might be " +:+ dq +:+ "https://cdn.example.com/assets/" +:+ dq +:+ ".";
   "var publicPath = " +:+ dq +:+ dq +:+ ";";
   "";
   "// ---- ChunkGroup Map ----";
   "// A ChunkGroup is a set of Chunks that must ALL be loaded before a";
   "// certain dynamic import can execute. When shared modules are extracted";
   "// into separate chunks, a single import() may need multiple chunks.";
   "//";
   "// This map says: " +:+ dq +:+ "to fulfill import('./feature-a.js'), load these chunks";
   "// in order." +:+ dq +:+ " The last chunk in each array is the one with the actual";
   "// module; the preceding ones are shared dependency chunks."
  ].

(** The lazy-loading runtime, after the chunk-group table. *)
Definition lazyRuntimeTail : list string :=
  [
   "";
   "// Async chunk loading orchestrator (webpack: __webpack_require__.e)";
   "// Called when code hits a dynamic import(). Looks up the ChunkGroup";
   "// to find ALL chunks that need to load, then waits for all of them.";
   "// Returns a Promise that resolves when all chunks are ready.";
   "function loadChunk(chunkId) {";
   "  var chunkIds = chunkGroupMap[chunkId] || [chunkId];";
   "  var promises = [];";
   "";
   "  for (var i = 0; i < chunkIds.length; i++) {";
   "    var id = chunkIds[i];";
   "    var status = chunkStatus[id];";
   "";
   "    if (status === 0) {";
   "      // Already loaded — skip";
   "      continue;";
   "    }";
   "";
   "    if (status) {";
   "      // Currently loading — reuse the existing promise";
   "      promises.push(status[2]);";
   "    } else {";
   "      // Not yet requested — create a new promise and start loading";
   "      var promise = new Promise(function(resolve, reject) {";
   "        chunkStatus[id] = [resolve, reject];";
   "      });";
   "      chunkStatus[id][2] = promise;";
   "      promises.push(promise);";
   "";
   "      // Inject a <script> tag to load the chunk file";
   "      var url = publicPath + getChunkFileName(id);";
   "      loadScript(url);";
   "    }";
   "  }";
   "";
   "  // Wait for ALL chunks in the ChunkGroup to load";
   "  return Promise.all(promises);";
   "}";
   "";
   "// DOM <script> injection (webpack: __webpack_require__.l)";
   "// Creates a script element and appends it to the document head.";
   "// The loaded script will call the JSONP callback (below), which";
   "// registers the chunk's modules and resolves the loading promise.";
   "function loadScript(url) {";
   "  var script = document.createElement(" +:+ dq +:+ "script" +:+ dq +:+ ");";
   "  script.src = url;";
   "  script.onerror = function() {";
   "    console.error(" +:+ dq +:+ "Failed to load chunk: " +:+ dq +:+ " + url);";
   "  };";
   "  document.head.appendChild(script);";
   "}";
   "";
   "// ---- JSONP Callback System ----";
   "// Webpack's lazy loading uses a JSONP-like pattern:";
   "//   1. The main bundle creates a global array: self[" +:+ dq +:+ "bundlerChunkCallbacks" +:+ dq +:+ "]";
   "//   2. It overrides .push() on that array with a custom installer function";
   "//   3. Lazy chunk files call: self[" +:+ dq +:+ "bundlerChunkCallbacks" +:+ dq +:+ "].push([chunkIds, modules])";
   "//   4. The overridden .push() picks up the data, registers modules,";
   "//      and resolves the loading promise";
   "//";
   "// This is why it's called " +:+ dq +:+ "JSONP" +:+ dq +:+ " — the chunk file is a script that";
   "// calls a global function (push) with its data as the argument.";
   "// (webpack: webpackChunkApp)";
   "";
   "// Install chunk data: register modules and resolve promises";
   "function installChunk(data) {";
   "  var chunkIds = data[0];";
   "  var moreModules = data[1];";
   "";
   "  // Register all modules from this chunk into the module registry";
   "  for (var moduleId in moreModules) {";
   "    if (loadModule.hasOwnProp(moreModules, moduleId)) {";
   "      moduleRegistry[moduleId] = moreModules[moduleId];";
   "    }";
   "  }";
   "";
   "  // Mark all chunk IDs as loaded and resolve their promises";
   "  for (var i = 0; i < chunkIds.length; i++) {";
   "    var id = chunkIds[i];";
   "    if (chunkStatus[id]) {";
   "      chunkStatus[id][0](); // resolve the promise";
   "    }";
   "    chunkStatus[id] = 0; // mark as loaded";
   "  }";
   "}";
   "";
   "// Set up the global JSONP callback array";
   "var callbacks = self[" +:+ dq +:+ "bundlerChunkCallbacks" +:+ dq +:+ "] = self[" +:+ dq +:+ "bundlerChunkCallbacks" +:+ dq +:+ "] || [];";
   "";
   "// Process any chunks that loaded before this script ran";
   "// (edge case: if a lazy chunk's <script> loads before the main bundle finishes)";
   "for (var i = 0; i < callbacks.length; i++) {";
   "  installChunk(callbacks[i]);";
   "}";
   "";
   "// Override .push() so future chunk loads are handled immediately";
   "callbacks.push = function(data) {";
   "  installChunk(data);";
   "};"
  ].

(** The entry point banner. *)
Definition entryBanner : list string :=
  [
   "";
   "// ========================================================";
   "// ENTRY POINT";
   "// ========================================================";
   "// This kicks off the application by loading the entry module.";
   "// The entry module's factory runs, which triggers loadModule()";
   "// calls for its dependencies, recursively initializing the";
   "// entire module graph."
  ].

(** The banner of a lazy chunk after its title, and the opening of the envelope. *)
Definition lazyChunkBanner : list string :=
  [
   "// A Chunk is a group of Modules bundled into one file for network delivery.";
   "// This is a " +:+ dq +:+ "lazy" +:+ dq +:+ " chunk — it loads on-demand when import() is called.";
   "// It pushes its chunk IDs and module factories into the global callback";
   "// array, which the main chunk's runtime picks up and registers.";
   "//";
   "// Structure: [chunkIds, moduleFactories]";
   "//   chunkIds — array of chunk IDs this file fulfills";
   "//   moduleFactories — object mapping module IDs to factory functions";
   "(self[" +:+ dq +:+ "bundlerChunkCallbacks" +:+ dq +:+ "] = self[" +:+ dq +:+ "bundlerChunkCallbacks" +:+ dq +:+ "] || []).push(["
  ].


(** `transformModule(modules.get(moduleId), projectRoot)` *)
Definition transformed (modules : modulesMap) (projectRoot moduleId : string)
    : result string :=
  match map_get modules moduleId with
  | None => Throw "Cannot read properties of undefined (reading 'source')"
  | Some info => Transformer.transformModule info projectRoot
  end.

(** One registry entry: the lines pushed for a module, with the given
    indentation of the entry and of its body. *)
Definition factoryEntry (outer inner : string) (modules : modulesMap)
    (projectRoot moduleId : string) : result (list string) :=
  let! body := transformed modules projectRoot moduleId in
  Ok [""; outer +:+ "// ---- Module: " +:+ moduleId +:+ " ----";
      outer +:+ dq +:+ moduleId +:+ dq +:+ ": (module, exports, loadModule) => {";
      indentCode body inner;
      outer +:+ "},"].

Fixpoint factoryEntries (outer inner : string) (modules : modulesMap)
    (projectRoot : string) (ids : list string) : result (list string) :=
  match ids with
  | [] => Ok []
  | moduleId :: rest =>
      let! entry := factoryEntry outer inner modules projectRoot moduleId in
      let! entries := factoryEntries outer inner modules projectRoot rest in
      Ok (entry ++ entries)
  end.

Definition chunkGroupEntries (chunkGroupMap : list (string * list string)) : string :=
  join ("," +:+ nl)
       (map (fun '(k, v) => "  " +:+ dq +:+ k +:+ dq +:+ ": " +:+ jsonArray v)
            (objectEntries chunkGroupMap)).

Definition generateMainBundle (mainChunk : chunk)
    (chunkGroupMap : list (string * list string)) (modules : modulesMap)
    (projectRoot : string) (hasLazyChunks : bool) : result string :=
  let mainModuleIds := moduleIds mainChunk in
  let entryModuleId := head mainModuleIds in
  let! registry := factoryEntries "  " "    " modules projectRoot mainModuleIds in
  Ok (join nl
        (mainHeader ++ registry ++ ["};"]
         ++ moduleCacheLines ++ loaderLines ++ helperLines
         ++ (if hasLazyChunks
             then lazyRuntimeHead
                  ++ ["var chunkGroupMap = {"; chunkGroupEntries chunkGroupMap; "};"]
                  ++ lazyRuntimeTail
             else [])
         ++ entryBanner
         ++ ["var entryExports = loadModule(" +:+ dq +:+ show entryModuleId +:+ dq +:+ ");";
             "})();"])).

Definition generateLazyChunk (chunkId : string) (c : chunk) (modules : modulesMap)
    (projectRoot : string) : result string :=
  let! entries := factoryEntries "    " "      " modules projectRoot (moduleIds c) in
  Ok (join nl
        (["// ================================================================";
          "// LAZY CHUNK: " +:+ chunkId;
          "// ================================================================"]
         ++ lazyChunkBanner
         ++ ["  [" +:+ dq +:+ chunkId +:+ dq +:+ "],"; "  {"]
         ++ entries
         ++ ["  }"; "]);"])).

Record bundle := { filename : string; content : string }.

Fixpoint generateLazyBundles (chunks : chunkMap) (modules : modulesMap)
    (projectRoot : string) : result (list bundle) :=
  match chunks with
  | [] => Ok []
  | (chunkId, c) :: rest =>
      let! text := generateLazyChunk chunkId c modules projectRoot in
      let! bundles := generateLazyBundles rest modules projectRoot in
      Ok ({| filename := chunkId +:+ ".js"; content := text |} :: bundles)
  end.

Definition generateBundles (info : chunkInfo) (projectRoot : string)
    : result (list bundle) :=
  let hasLazyChunks := 0 <? length (lazyChunks info) in
  let! main := generateMainBundle (mainChunk info) (chunkGroupMap info)
                 (modules info) projectRoot hasLazyChunks in
  let! lazy := generateLazyBundles (lazyChunks info) (modules info) projectRoot in
  Ok ({| filename := "main.js"; content := main |} :: lazy).

(** The module ids for which `generateBundles` pushes a factory, file by
    file: `main.js` gets the main chunk's, each entry of `lazyChunks` its
    own. *)
Definition emittedFactories (info : chunkInfo) : list (string * list string) :=
  ("main.js", moduleIds (mainChunk info))
  :: map (fun '(chunkId, c) => (chunkId +:+ ".js", moduleIds c)) (lazyChunks info).

(** How many factories the emitted files hold for a module id. *)
Definition factoryCount (info : chunkInfo) (moduleId : string) : nat :=
  length (filter (String.eqb moduleId) (flat_map snd (emittedFactories info))).

(** The line that opens the factory of a module in an emitted file. *)
Definition factoryHeader (moduleId : string) : string :=
  dq +:+ moduleId +:+ dq +:+ ": (module, exports, loadModule) => {".

End CodeGenerator.

(** ** The loader of the entry bundle

    The function `loadModule` that `generateMainBundle` emits
    (see [CodeGenerator.loaderLines]), over the two objects it closes over,
    `moduleRegistry` and `moduleCache`.  Module ids begin with `./`, so no
    key of either object names a property inherited from
    `Object.prototype`, and both are finite maps.

    A factory is what it does with its arguments: it may call the loader it
    was handed, define a property on an exports object, assign
    `module.exports`, or throw.  [invoked] records every factory
    invocation, in order. *)
Module Runtime.

Definition loc := nat.

Inductive outcome (A : Type) : Type :=
| Returned (a : A)
| Thrown (message : string)
| OutOfFuel.
Arguments Returned {A} a.
Arguments Thrown {A} message.
Arguments OutOfFuel {A}.

Section Loader.
Context {val : Type}.

Inductive object : Type :=
| ModuleObject (exports : loc)
| ExportsObject (props : gmap string val).

Inductive code : Type :=
| Done
| Require (moduleId : string) (k : loc -> code)
| Define (target : loc) (key : string) (v : val) (k : code)
| Assign (module exports : loc) (k : code)
| Raise (message : string).

(** `(module, exports, loadModule) => { ... }`; the loader argument is the
    one [Require] calls. *)
Definition factory := loc -> loc -> code.

Record state := {
  moduleRegistry : gmap string factory;
  moduleCache : gmap string loc;
  heap : gmap loc object;
  next : loc;
  invoked : list string }.

(** `m.exports` *)
Definition exportsOf (st : state) (m : loc) : loc :=
  match heap st !! m with
  | Some (ModuleObject e) => e
  | _ => 0
  end.

(** `loadModule.defineExports`, one key: an own key is left as it is. *)
Definition define (target : loc) (key : string) (v : val) (st : state) : state :=
  match heap st !! target with
  | Some (ExportsObject props) =>
      {| moduleRegistry := moduleRegistry st; moduleCache := moduleCache st;
         heap := <[target := ExportsObject
                               (match props !! key with
                                | Some _ => props
                                | None => <[key := v]> props
                                end)]> (heap st);
         next := next st; invoked := invoked st |}
  | _ => st
  end.

(** `module.exports = e` *)
Definition assign (m e : loc) (st : state) : state :=
  {| moduleRegistry := moduleRegistry st; moduleCache := moduleCache st;
     heap := <[m := ModuleObject e]> (heap st);
     next := next st; invoked := invoked st |}.

(** Running the body of a factory, with [load] for the loader it was
    handed. *)
Fixpoint exec (load : string -> state -> outcome loc * state) (c : code) (st : state)
    : outcome unit * state :=
  match c with
  | Done => (Returned (), st)
  | Require moduleId k =>
      match load moduleId st with
      | (Returned e, st') => exec load (k e) st'
      | (Thrown m, st') => (Thrown m, st')
      | (OutOfFuel, st') => (OutOfFuel, st')
      end
  | Define target key v k => exec load k (define target key v st)
  | Assign m e k => exec load k (assign m e st)
  | Raise message => (Thrown message, st)
  end.

(** `var module = moduleCache[moduleId] = { exports: {} };` *)
Definition createModule (moduleId : string) (st : state) : loc * loc * state :=
  let e := next st in
  let m := S (next st) in
  (m, e,
   {| moduleRegistry := moduleRegistry st;
      moduleCache := <[moduleId := m]> (moduleCache st);
      heap := <[m := ModuleObject e]> (<[e := ExportsObject ∅]> (heap st));
      next := S (S (next st));
      invoked := invoked st |}).

Definition invoke (moduleId : string) (st : state) : state :=
  {| moduleRegistry := moduleRegistry st; moduleCache := moduleCache st;
     heap := heap st; next := next st; invoked := invoked st ++ [moduleId] |}.

(** `loadModule(moduleId)`; [fuel] bounds the depth of nested loader
    calls. *)
Fixpoint loadModule (fuel : nat) (moduleId : string) (st : state) : outcome loc * state :=
  match fuel with
  | 0 => (OutOfFuel, st)
  | S fuel' =>
      match moduleCache st !! moduleId with
      | Some cachedModule => (Returned (exportsOf st cachedModule), st)
      | None =>
          let '(m, e, st1) := createModule moduleId st in
          match moduleRegistry st1 !! moduleId with
          | None => (Thrown "moduleRegistry[moduleId] is not a function", st1)
          | Some f =>
              match exec (loadModule fuel') (f m (exportsOf st1 m)) (invoke moduleId st1) with
              | (Returned _, st2) => (Returned (exportsOf st2 m), st2)
              | (Thrown msg, st2) => (Thrown msg, st2)
              | (OutOfFuel, st2) => (OutOfFuel, st2)
              end
          end
      end
  end.

(** The state in which the entry bundle starts: the registry it was
    generated with, an empty cache. *)
Definition initial (registry : gmap string factory) : state :=
  {| moduleRegistry := registry; moduleCache := ∅; heap := ∅; next := 0; invoked := [] |}.

(** What happens to the loader's state in a process: somebody calls
    `loadModule` (the entry kick-off, the continuation of a dynamic import),
    or a chunk installs a factory. *)
Inductive event : Type :=
| Load (fuel : nat) (moduleId : string)
| Install (moduleId : string) (f : factory).

Definition step (st : state) (ev : event) : state :=
  match ev with
  | Load fuel moduleId => (loadModule fuel moduleId st).2
  | Install moduleId f =>
      {| moduleRegistry := <[moduleId := f]> (moduleRegistry st);
         moduleCache := moduleCache st; heap := heap st; next := next st;
         invoked := invoked st |}
  end.

Definition run (registry : gmap string factory) (evs : list event) : state :=
  fold_left step evs (initial registry).

End Loader.
Arguments object : clear implicits.
Arguments code : clear implicits.
Arguments factory : clear implicits.
Arguments state : clear implicits.
Arguments event : clear implicits.
End Runtime.

(** ** Scopes

    The parameters of a function are bound in its body: an occurrence of [x]
    below a function one of whose parameters is [x], [x = default] or
    [...x] does not refer to an import of that name. *)
Definition parameterBinds (x : option string) (p : node) : bool :=
  if String.eqb (ntype p) "Identifier" then bool_decide (nname p = x)
  else if String.eqb (ntype p) "AssignmentPattern" then
    bool_decide (nameOf (child "left" p) = x)
  else if String.eqb (ntype p) "RestElement" then
    bool_decide (nameOf (child "argument" p) = x)
  else false.

Definition isFunction (n : node) : bool :=
  isAmong (ntype n) ["FunctionDeclaration"; "FunctionExpression"; "ArrowFunctionExpression"].

(** [boundByParameter x n ancestors]: the occurrence [n] of [x], with the
    given ancestors (itself first), stands in the body of a function that
    has [x] as a parameter. *)
Definition boundByParameter (x : option string) (n : node) (ancestors : list node) : bool :=
  existsb (fun '(inner, f) =>
             isFunction f && childIs "body" f inner
             && existsb (parameterBinds x) (children "params" f))
          (zip ancestors (tl ancestors)).

(** ** The pipeline of bundler.js, up to writing the files *)
Definition bundle (fuel : nat) (fs : fileSystem) (entryPath projectRoot : string)
    : option (result (list CodeGenerator.bundle)) :=
  match DependencyGraph.buildDependencyGraph fuel fs entryPath with
  | None => None
  | Some (Throw m) => Some (Throw m)
  | Some (Ok g) =>
      match DependencyGraph.identifyChunks fuel g entryPath projectRoot with
      | None => None
      | Some (Throw m) => Some (Throw m)
      | Some (Ok info) => Some (CodeGenerator.generateBundles info projectRoot)
      end
  end.

(** ** Sample projects *)
Module Examples.

(** Two import declarations naming the same source. *)
Definition fsDup_text0 : string :=
  "import { a } from './m.js';" +:+ nl +:+ "import { b } from './m.js';" +:+ nl +:+ "a(b);" +:+ nl.

Definition fsDup_tree0 : node :=
  nd 0 "Program" 0 62 [
    ("body", [
      nd 1 "ImportDeclaration" 0 27 [
        ("specifiers", [
          nd 2 "ImportSpecifier" 9 10 [
            ("imported", [
              ident 3 9 10 "a"]);
            ("local", [
              ident 3 9 10 "a"])]]);
        ("source", [
          literal 4 18 26 "./m.js"])];
      nd 5 "ImportDeclaration" 28 55 [
        ("specifiers", [
          nd 6 "ImportSpecifier" 37 38 [
            ("imported", [
              ident 7 37 38 "b"]);
            ("local", [
              ident 7 37 38 "b"])]]);
        ("source", [
          literal 8 46 54 "./m.js"])];
      nd 9 "ExpressionStatement" 56 61 [
        ("expression", [
          nd 10 "CallExpression" 56 60 [
            ("callee", [
              ident 11 56 57 "a"]);
            ("arguments", [
              ident 12 58 59 "b"])]])]])].

Definition fsDup_text1 : string :=
  "export function a(x) { return x; }" +:+ nl +:+ "export const b = 2;" +:+ nl.

Definition fsDup_tree1 : node :=
  nd 13 "Program" 0 55 [
    ("body", [
      nd 14 "ExportNamedDeclaration" 0 34 [
        ("declaration", [
          nd 15 "FunctionDeclaration" 7 34 [
            ("id", [
              ident 16 16 17 "a"]);
            ("params", [
              ident 17 18 19 "x"]);
            ("body", [
              nd 18 "BlockStatement" 21 34 [
                ("body", [
                  nd 19 "ReturnStatement" 23 32 [
                    ("argument", [
                      ident 20 30 31 "x"])]])]])]])];
      nd 21 "ExportNamedDeclaration" 35 54 [
        ("declaration", [
          nd 22 "VariableDeclaration" 42 54 [
            ("declarations", [
              nd 23 "VariableDeclarator" 48 53 [
                ("id", [
                  ident 24 48 49 "b"]);
                ("init", [
                  literal 25 52 53 "2"])]])]])]])].

Definition fsDup : fileSystem := fun p =>
  if String.eqb p "/p/index.js" then Some (File fsDup_text0 (Ok fsDup_tree0))
  else   if String.eqb p "/p/m.js" then Some (File fsDup_text1 (Ok fsDup_tree1))
  else None.

(** Three lazy chunks; `z.js` and `c.js` are shared by `x.js` and `y.js`, `a.js` by `x.js` and `w.js`. *)
Definition fsShared_text0 : string :=
  "import('./x.js');" +:+ nl +:+ "import('./y.js');" +:+ nl +:+ "import('./w.js');" +:+ nl.

Definition fsShared_tree0 : node :=
  nd 0 "Program" 0 54 [
    ("body", [
      nd 1 "ExpressionStatement" 0 17 [
        ("expression", [
          nd 2 "ImportExpression" 0 16 [
            ("source", [
              literal 3 7 15 "./x.js"])]])];
      nd 4 "ExpressionStatement" 18 35 [
        ("expression", [
          nd 5 "ImportExpression" 18 34 [
            ("source", [
              literal 6 25 33 "./y.js"])]])];
      nd 7 "ExpressionStatement" 36 53 [
        ("expression", [
          nd 8 "ImportExpression" 36 52 [
            ("source", [
              literal 9 43 51 "./w.js"])]])]])].

Definition fsShared_text1 : string :=
  "import './z.js';" +:+ nl +:+ "import './c.js';" +:+ nl +:+ "import './a.js';" +:+ nl.

Definition fsShared_tree1 : node :=
  nd 10 "Program" 0 51 [
    ("body", [
      nd 11 "ImportDeclaration" 0 16 [
        ("source", [
          literal 12 7 15 "./z.js"])];
      nd 13 "ImportDeclaration" 17 33 [
        ("source", [
          literal 14 24 32 "./c.js"])];
      nd 15 "ImportDeclaration" 34 50 [
        ("source", [
          literal 16 41 49 "./a.js"])]])].

Definition fsShared_text2 : string :=
  "import './z.js';" +:+ nl +:+ "import './c.js';" +:+ nl.

Definition fsShared_tree2 : node :=
  nd 17 "Program" 0 34 [
    ("body", [
      nd 18 "ImportDeclaration" 0 16 [
        ("source", [
          literal 19 7 15 "./z.js"])];
      nd 20 "ImportDeclaration" 17 33 [
        ("source", [
          literal 21 24 32 "./c.js"])]])].

Definition fsShared_text3 : string :=
  "import './a.js';" +:+ nl.

Definition fsShared_tree3 : node :=
  nd 22 "Program" 0 17 [
    ("body", [
      nd 23 "ImportDeclaration" 0 16 [
        ("source", [
          literal 24 7 15 "./a.js"])]])].

Definition fsShared_text4 : string :=
  "export const z = 1;" +:+ nl.

Definition fsShared_tree4 : node :=
  nd 25 "Program" 0 20 [
    ("body", [
      nd 26 "ExportNamedDeclaration" 0 19 [
        ("declaration", [
          nd 27 "VariableDeclaration" 7 19 [
            ("declarations", [
              nd 28 "VariableDeclarator" 13 18 [
                ("id", [
                  ident 29 13 14 "z"]);
                ("init", [
                  literal 30 17 18 "1"])]])]])]])].

Definition fsShared_text5 : string :=
  "export const c = 2;" +:+ nl.

Definition fsShared_tree5 : node :=
  nd 31 "Program" 0 20 [
    ("body", [
      nd 32 "ExportNamedDeclaration" 0 19 [
        ("declaration", [
          nd 33 "VariableDeclaration" 7 19 [
            ("declarations", [
              nd 34 "VariableDeclarator" 13 18 [
                ("id", [
                  ident 35 13 14 "c"]);
                ("init", [
                  literal 36 17 18 "2"])]])]])]])].

Definition fsShared_text6 : string :=
  "export const a = 3;" +:+ nl.

Definition fsShared_tree6 : node :=
  nd 37 "Program" 0 20 [
    ("body", [
      nd 38 "ExportNamedDeclaration" 0 19 [
        ("declaration", [
          nd 39 "VariableDeclaration" 7 19 [
            ("declarations", [
              nd 40 "VariableDeclarator" 13 18 [
                ("id", [
                  ident 41 13 14 "a"]);
                ("init", [
                  literal 42 17 18 "3"])]])]])]])].

Definition fsShared : fileSystem := fun p =>
  if String.eqb p "/p/index.js" then Some (File fsShared_text0 (Ok fsShared_tree0))
  else   if String.eqb p "/p/x.js" then Some (File fsShared_text1 (Ok fsShared_tree1))
  else   if String.eqb p "/p/y.js" then Some (File fsShared_text2 (Ok fsShared_tree2))
  else   if String.eqb p "/p/w.js" then Some (File fsShared_text3 (Ok fsShared_tree3))
  else   if String.eqb p "/p/z.js" then Some (File fsShared_text4 (Ok fsShared_tree4))
  else   if String.eqb p "/p/c.js" then Some (File fsShared_text5 (Ok fsShared_tree5))
  else   if String.eqb p "/p/a.js" then Some (File fsShared_text6 (Ok fsShared_tree6))
  else None.

(** A parameter that shadows an imported name. *)
Definition fsShadow_text0 : string :=
  "import { x } from './m.js';" +:+ nl +:+ "function f(x) { return x; }" +:+ nl +:+ "f(x);" +:+ nl.

Definition fsShadow_tree0 : node :=
  nd 0 "Program" 0 62 [
    ("body", [
      nd 1 "ImportDeclaration" 0 27 [
        ("specifiers", [
          nd 2 "ImportSpecifier" 9 10 [
            ("imported", [
              ident 3 9 10 "x"]);
            ("local", [
              ident 3 9 10 "x"])]]);
        ("source", [
          literal 4 18 26 "./m.js"])];
      nd 5 "FunctionDeclaration" 28 55 [
        ("id", [
          ident 6 37 38 "f"]);
        ("params", [
          ident 7 39 40 "x"]);
        ("body", [
          nd 8 "BlockStatement" 42 55 [
            ("body", [
              nd 9 "ReturnStatement" 44 53 [
                ("argument", [
                  ident 10 51 52 "x"])]])]])];
      nd 11 "ExpressionStatement" 56 61 [
        ("expression", [
          nd 12 "CallExpression" 56 60 [
            ("callee", [
              ident 13 56 57 "f"]);
            ("arguments", [
              ident 14 58 59 "x"])]])]])].

Definition fsShadow_text1 : string :=
  "export const x = 1;" +:+ nl.

Definition fsShadow_tree1 : node :=
  nd 15 "Program" 0 20 [
    ("body", [
      nd 16 "ExportNamedDeclaration" 0 19 [
        ("declaration", [
          nd 17 "VariableDeclaration" 7 19 [
            ("declarations", [
              nd 18 "VariableDeclarator" 13 18 [
                ("id", [
                  ident 19 13 14 "x"]);
                ("init", [
                  literal 20 17 18 "1"])]])]])]])].

Definition fsShadow : fileSystem := fun p =>
  if String.eqb p "/p/index.js" then Some (File fsShadow_text0 (Ok fsShadow_tree0))
  else   if String.eqb p "/p/m.js" then Some (File fsShadow_text1 (Ok fsShadow_tree1))
  else None.

(** An anonymous default export. *)
Definition fsDefault_text0 : string :=
  "export default function () {}" +:+ nl.

Definition fsDefault_tree0 : node :=
  nd 0 "Program" 0 30 [
    ("body", [
      nd 1 "ExportDefaultDeclaration" 0 29 [
        ("declaration", [
          nd 2 "FunctionDeclaration" 15 29 [
            ("body", [
              nd 3 "BlockStatement" 27 29 []])]])]])].

Definition fsDefault : fileSystem := fun p =>
  if String.eqb p "/p/index.js" then Some (File fsDefault_text0 (Ok fsDefault_tree0))
  else None.

(** Two dynamic import targets whose chunk ids coincide. *)
Definition fsCollide_text0 : string :=
  "import('./a/b.js');" +:+ nl +:+ "import('./a_b.js');" +:+ nl.

Definition fsCollide_tree0 : node :=
  nd 0 "Program" 0 40 [
    ("body", [
      nd 1 "ExpressionStatement" 0 19 [
        ("expression", [
          nd 2 "ImportExpression" 0 18 [
            ("source", [
              literal 3 7 17 "./a/b.js"])]])];
      nd 4 "ExpressionStatement" 20 39 [
        ("expression", [
          nd 5 "ImportExpression" 20 38 [
            ("source", [
              literal 6 27 37 "./a_b.js"])]])]])].

Definition fsCollide_text1 : string :=
  "export const one = 1;" +:+ nl.

Definition fsCollide_tree1 : node :=
  nd 7 "Program" 0 22 [
    ("body", [
      nd 8 "ExportNamedDeclaration" 0 21 [
        ("declaration", [
          nd 9 "VariableDeclaration" 7 21 [
            ("declarations", [
              nd 10 "VariableDeclarator" 13 20 [
                ("id", [
                  ident 11 13 16 "one"]);
                ("init", [
                  literal 12 19 20 "1"])]])]])]])].

Definition fsCollide_text2 : string :=
  "export const two = 2;" +:+ nl.

Definition fsCollide_tree2 : node :=
  nd 13 "Program" 0 22 [
    ("body", [
      nd 14 "ExportNamedDeclaration" 0 21 [
        ("declaration", [
          nd 15 "VariableDeclaration" 7 21 [
            ("declarations", [
              nd 16 "VariableDeclarator" 13 20 [
                ("id", [
                  ident 17 13 16 "two"]);
                ("init", [
                  literal 18 19 20 "2"])]])]])]])].

Definition fsCollide : fileSystem := fun p =>
  if String.eqb p "/p/index.js" then Some (File fsCollide_text0 (Ok fsCollide_tree0))
  else   if String.eqb p "/p/a/b.js" then Some (File fsCollide_text1 (Ok fsCollide_tree1))
  else   if String.eqb p "/p/a_b.js" then Some (File fsCollide_text2 (Ok fsCollide_tree2))
  else None.

(** A module whose only reference to another file is a re-export. *)
Definition fsReexport_text0 : string :=
  "export { x } from './m.js';" +:+ nl.

Definition fsReexport_tree0 : node :=
  nd 0 "Program" 0 28 [
    ("body", [
      nd 1 "ExportNamedDeclaration" 0 27 [
        ("specifiers", [
          nd 2 "ExportSpecifier" 9 10 [
            ("local", [
              ident 3 9 10 "x"]);
            ("exported", [
              ident 3 9 10 "x"])]]);
        ("source", [
          literal 4 18 26 "./m.js"])]])].

Definition fsReexport_text1 : string :=
  "export const x = 1;" +:+ nl.

Definition fsReexport_tree1 : node :=
  nd 5 "Program" 0 20 [
    ("body", [
      nd 6 "ExportNamedDeclaration" 0 19 [
        ("declaration", [
          nd 7 "VariableDeclaration" 7 19 [
            ("declarations", [
              nd 8 "VariableDeclarator" 13 18 [
                ("id", [
                  ident 9 13 14 "x"]);
                ("init", [
                  literal 10 17 18 "1"])]])]])]])].

Definition fsReexport : fileSystem := fun p =>
  if String.eqb p "/p/index.js" then Some (File fsReexport_text0 (Ok fsReexport_tree0))
  else   if String.eqb p "/p/m.js" then Some (File fsReexport_text1 (Ok fsReexport_tree1))
  else None.

(** The same re-export, its target also imported by the entry. *)
Definition fsReexportReached_text0 : string :=
  "import './a.js';" +:+ nl +:+ "import './m.js';" +:+ nl.

Definition fsReexportReached_tree0 : node :=
  nd 0 "Program" 0 34 [
    ("body", [
      nd 1 "ImportDeclaration" 0 16 [
        ("source", [
          literal 2 7 15 "./a.js"])];
      nd 3 "ImportDeclaration" 17 33 [
        ("source", [
          literal 4 24 32 "./m.js"])]])].

Definition fsReexportReached_text1 : string :=
  "export { x } from './m.js';" +:+ nl.

Definition fsReexportReached_tree1 : node :=
  nd 5 "Program" 0 28 [
    ("body", [
      nd 6 "ExportNamedDeclaration" 0 27 [
        ("specifiers", [
          nd 7 "ExportSpecifier" 9 10 [
            ("local", [
              ident 8 9 10 "x"]);
            ("exported", [
              ident 8 9 10 "x"])]]);
        ("source", [
          literal 9 18 26 "./m.js"])]])].

Definition fsReexportReached_text2 : string :=
  "export const x = 1;" +:+ nl.

Definition fsReexportReached_tree2 : node :=
  nd 10 "Program" 0 20 [
    ("body", [
      nd 11 "ExportNamedDeclaration" 0 19 [
        ("declaration", [
          nd 12 "VariableDeclaration" 7 19 [
            ("declarations", [
              nd 13 "VariableDeclarator" 13 18 [
                ("id", [
                  ident 14 13 14 "x"]);
                ("init", [
                  literal 15 17 18 "1"])]])]])]])].

Definition fsReexportReached : fileSystem := fun p =>
  if String.eqb p "/p/index.js" then Some (File fsReexportReached_text0 (Ok fsReexportReached_tree0))
  else   if String.eqb p "/p/a.js" then Some (File fsReexportReached_text1 (Ok fsReexportReached_tree1))
  else   if String.eqb p "/p/m.js" then Some (File fsReexportReached_text2 (Ok fsReexportReached_tree2))
  else None.

(** What the planner makes of [fsShared]. *)
Definition sharedGraph : DependencyGraph.graph :=
  Eval vm_compute in
    match DependencyGraph.buildDependencyGraph 20 fsShared "/p/index.js" with
    | Some (Ok g) => g
    | _ => []
    end.

Definition sharedLazyChunks : DependencyGraph.chunkMap :=
  [("x_js", {| DependencyGraph.id := "x_js";
               DependencyGraph.moduleIds := ["./x.js"; "./z.js"; "./c.js"; "./a.js"];
               DependencyGraph.entryModuleId := Some "./x.js";
               DependencyGraph.originalChunks := [] |});
   ("y_js", {| DependencyGraph.id := "y_js";
               DependencyGraph.moduleIds := ["./y.js"; "./z.js"; "./c.js"];
               DependencyGraph.entryModuleId := Some "./y.js";
               DependencyGraph.originalChunks := [] |});
   ("w_js", {| DependencyGraph.id := "w_js";
               DependencyGraph.moduleIds := ["./w.js"; "./a.js"];
               DependencyGraph.entryModuleId := Some "./w.js";
               DependencyGraph.originalChunks := [] |})].

Definition sharedReached : DependencyGraph.reached :=
  {| DependencyGraph.rModules := DependencyGraph.modulesOf sharedGraph "/p";
     DependencyGraph.rMainModuleIds := ["./index.js"];
     DependencyGraph.rPoints :=
       [("./x.js", "x_js"); ("./y.js", "y_js"); ("./w.js", "w_js")];
     DependencyGraph.rLazyChunks := sharedLazyChunks |}.

(** What the pipeline makes of [fsReexport]. *)
Definition reexportGraph : DependencyGraph.graph :=
  Eval vm_compute in
    match DependencyGraph.buildDependencyGraph 10 fsReexport "/p/index.js" with
    | Some (Ok g) => g
    | _ => []
    end.

Definition reexportModule : moduleInfo :=
  Eval vm_compute in
    match reexportGraph with
    | (_, info) :: _ => info
    | [] => Parser.extract "" "" (nd 0 "Program" 0 0 [])
    end.

Definition reexportExport : exp.t :=
  Eval vm_compute in
    match named (exports reexportModule) with
    | e :: _ => e
    | [] => {| exp.local := None; exp.exported := None; exp.node_ := ast reexportModule;
               exp.declarationNode := None; exp.reexportSource := None |}
    end.

Definition reexportInfo : DependencyGraph.chunkInfo :=
  DependencyGraph.plan
    {| DependencyGraph.rModules := DependencyGraph.modulesOf reexportGraph "/p";
       DependencyGraph.rMainModuleIds := ["./index.js"];
       DependencyGraph.rPoints := [];
       DependencyGraph.rLazyChunks := [] |}.

Definition reexportBundles : list CodeGenerator.bundle :=
  Eval vm_compute in
    match CodeGenerator.generateBundles reexportInfo "/p" with
    | Ok bundles => bundles
    | Throw _ => []
    end.

Definition reexportState : Transformer.state :=
  Eval vm_compute in
    match Transformer.transformState reexportModule "/p" with
    | Ok st => st
    | Throw _ => {| Transformer.s := MagicString.new "";
                    Transformer.moduleVarNames := [];
                    Transformer.loadModuleCalls := [];
                    Transformer.exportGetters := [] |}
    end.

(** Two modules that import each other. *)
Definition cyclicRegistry : gmap string (Runtime.factory nat) :=
  <["./a.js" := fun _ exports =>
      Runtime.Require "./b.js" (fun _ => Runtime.Define exports "a" 1 Runtime.Done)]>
  (<["./b.js" := fun _ exports =>
      Runtime.Require "./a.js" (fun _ => Runtime.Define exports "b" 2 Runtime.Done)]> ∅).

Definition cyclicProcess : list (Runtime.event nat) :=
  [Runtime.Load 5 "./a.js"; Runtime.Load 5 "./b.js"; Runtime.Load 5 "./a.js"].

(** The module of [fsDefault], as the graph builder stores it. *)
Definition defaultModule : moduleInfo :=
  Eval vm_compute in Parser.extract "/p/index.js" fsDefault_text0 fsDefault_tree0.

End Examples.

(** ** Invariants

    What the proofs below maintain along the loops of the bundler. *)

(** Planner: the groups of shared modules have distinct keys and no group
    is empty. *)
Definition groups_ok (groups : list (string * DependencyGraph.group)) : Prop :=
  NoDup (map fst groups) /\ forall k g, (k, g) ∈ groups -> DependencyGraph.gModuleIds g <> [].

(** The transformer: once a source has a module variable, its `loadModule`
    call has been pushed. *)
Definition call_pushed (call s : string) (st : Transformer.state) : Prop :=
  map_has (Transformer.moduleVarNames st) s = true ->
  call ∈ Transformer.loadModuleCalls st.

(** What holds of the graph and the queue throughout `buildDependencyGraph`:
    each stored record is what the parser extracted from the file, with its
    import sites in place, and each file stored or queued is the entry or the
    resolved path of an import or dynamic import site of a stored record. *)
Definition fromParser (fs : fileSystem) (file : string) (info : moduleInfo) : Prop :=
  exists text tree,
    fs file = Some (File text (Ok tree))
    /\ filePath info = file
    /\ exports info = exports (Parser.extract file text tree)
    /\ map imp.node_ (imports info) = map imp.node_ (imports (Parser.extract file text tree)).

Definition reachedBySite (g : DependencyGraph.graph) (entryPath file : string) : Prop :=
  file = entryPath
  \/ exists q info, (q, info) ∈ g
       /\ (Some file ∈ map imp.resolvedPath (imports info)
           \/ Some file ∈ map dyn.resolvedPath (dynamicImports info)).

Definition graph_ok (fs : fileSystem) (entryPath : string) (g : DependencyGraph.graph)
    (queue : list string) : Prop :=
  (forall file info, (file, info) ∈ g -> fromParser fs file info)
  /\ (forall file, file ∈ map fst g \/ file ∈ queue -> reachedBySite g entryPath file).

(** Every factory that has been invoked is in the cache, and none has been
    invoked twice. *)
Definition consistent {val : Type} (st : Runtime.state val) : Prop :=
  NoDup (Runtime.invoked st) /\ forall moduleId, moduleId ∈ Runtime.invoked st -> is_Some (Runtime.moduleCache st !! moduleId).

(** The buffer has only been edited on ranges of [R]; and moreover on the
    range [d], which now reads [t]. *)
Definition tracked (n : nat) (R : list Transformer.range) (m : MagicString.t) : Prop :=
  exists E, (forall r, r ∈ E -> r ∈ R) /\ MagicString.edited_within n E m.

Definition tracked_at (n : nat) (R : list Transformer.range) (d : Transformer.range)
    (t : string) (m : MagicString.t) : Prop :=
  exists E, (forall r, r ∈ E -> r ∈ R) /\ MagicString.edited_within n E m
            /\ d ∈ E /\ MagicString.rendered d.1 d.2 m = t.

(** The getter that an anonymous default export gets. *)
Definition defaultGetter : Transformer.getter :=
  {| Transformer.exported := Some "default"; Transformer.getter_ := "() => __default_export__" |}.

(** * Properties *)

(** ** Insertion-ordered maps *)
Section CollectionFacts.
Context {K : Type} `{EqDecision K} {V : Type}.
Implicit Types (m : list (K * V)) (k : K) (v : V).

Lemma map_get_set_eq m k v : map_get (map_set m k v) k = Some v.
Proof.
  induction m as [|[k' v'] m IH]; simpl.
  - by rewrite decide_True.
  - destruct (decide (k' = k)); simpl.
    + by rewrite decide_True.
    + by rewrite decide_False.
Qed.

Lemma map_get_set_ne m k k' v : k <> k' -> map_get (map_set m k v) k' = map_get m k'.
Proof.
  intros Hne. induction m as [|[k0 v0] m IH]; simpl.
  - by rewrite decide_False.
  - destruct (decide (k0 = k)) as [->|]; simpl.
    + by rewrite !decide_False.
    + destruct (decide (k0 = k')); auto.
Qed.

Lemma map_has_elem m k : map_has m k = true <-> k ∈ map fst m.
Proof.
  unfold map_has. induction m as [|[k' v'] m IH]; simpl.
  - split; [discriminate|]. intros Hin. inversion Hin.
  - destruct (decide (k' = k)) as [->|Hne].
    + split; auto. intros _. apply elem_of_cons. by left.
    + rewrite IH. split.
      * intros Hin. apply elem_of_cons. by right.
      * intros Hin. apply elem_of_cons in Hin as [Heq|Hin]; [congruence|done].
Qed.

Lemma map_has_false m k : map_has m k = false <-> k ∉ map fst m.
Proof.
  rewrite <- map_has_elem. destruct (map_has m k); split; done.
Qed.

Lemma map_get_elem m k v : map_get m k = Some v -> (k, v) ∈ m.
Proof.
  induction m as [|[k' v'] m IH]; simpl; [discriminate|].
  destruct (decide (k' = k)) as [->|Hne].
  - intros [= ->]. apply elem_of_cons. by left.
  - intros Hg. apply elem_of_cons. right. auto.
Qed.

Lemma map_get_None m k : map_get m k = None <-> k ∉ map fst m.
Proof.
  rewrite <- map_has_false. unfold map_has. by destruct (map_get m k).
Qed.

Lemma elem_map_get m k v : NoDup (map fst m) -> (k, v) ∈ m -> map_get m k = Some v.
Proof.
  induction m as [|[k' v'] m IH]; simpl; intros Hnd Hin; [inversion Hin|].
  apply NoDup_cons in Hnd as [Hk' Hnd].
  apply elem_of_cons in Hin as [[= -> ->]|Hin].
  - by rewrite decide_True.
  - rewrite decide_False; [auto|].
    intros ->. apply Hk'. apply list_elem_of_fmap. by exists (k, v).
Qed.

Lemma map_set_keys m k v :
  map fst (map_set m k v) = if map_has m k then map fst m else map fst m ++ [k].
Proof.
  unfold map_has. induction m as [|[k' v'] m IH]; simpl; [done|].
  destruct (decide (k' = k)) as [->|Hne]; simpl; [done|].
  rewrite IH. by destruct (map_get m k).
Qed.

Lemma map_set_NoDup m k v : NoDup (map fst m) -> NoDup (map fst (map_set m k v)).
Proof.
  intros Hnd. rewrite map_set_keys. destruct (map_has m k) eqn:Hh; [done|].
  apply NoDup_app. split; [done|]. split; [|apply NoDup_singleton].
  intros x Hx Hx'. apply list_elem_of_singleton in Hx' as ->.
  apply map_has_false in Hh. contradiction.
Qed.

Lemma elem_of_map_set m k v k0 v0 :
  (k0, v0) ∈ map_set m k v -> (k0 = k /\ v0 = v) \/ (k0, v0) ∈ m.
Proof.
  induction m as [|[k' v'] m IH]; simpl.
  - intros Hin. apply list_elem_of_singleton in Hin as [= -> ->]. by left.
  - destruct (decide (k' = k)) as [->|Hne]; intros Hin;
      apply elem_of_cons in Hin as [[= -> ->]|Hin].
    + by left.
    + right. apply elem_of_cons. by right.
    + right. apply elem_of_cons. by left.
    + destruct (IH Hin) as [?|?]; [by left|]. right. apply elem_of_cons. by right.
Qed.

Lemma elem_of_map_set_inv m k v k0 v0 :
  NoDup (map fst m) -> (k0, v0) ∈ map_set m k v ->
  (k0 = k /\ v0 = v) \/ (k0 <> k /\ (k0, v0) ∈ m).
Proof.
  intros Hnd Hin. destruct (decide (k0 = k)) as [->|Hne].
  - left. split; [done|].
    apply elem_map_get in Hin; [|by apply map_set_NoDup].
    rewrite map_get_set_eq in Hin. congruence.
  - right. split; [done|]. apply elem_of_map_set in Hin as [[? _]|?]; [contradiction|done].
Qed.

Lemma set_has_elem (s : list K) k : set_has s k = true <-> k ∈ s.
Proof. unfold set_has. apply bool_decide_eq_true. Qed.

Lemma set_add_elem (s : list K) k x : x ∈ set_add s k <-> x = k \/ x ∈ s.
Proof.
  unfold set_add. destruct (set_has s k) eqn:Hh.
  - apply set_has_elem in Hh. split; [by right|]. intros [->|?]; done.
  - rewrite elem_of_app, list_elem_of_singleton. tauto.
Qed.

Lemma set_add_nonempty (s : list K) k : set_add s k <> [].
Proof.
  unfold set_add. destruct (set_has s k) eqn:Hh.
  - apply set_has_elem in Hh. intros ->. inversion Hh.
  - by destruct s.
Qed.

Lemma set_add_NoDup (s : list K) k : NoDup s -> NoDup (set_add s k).
Proof.
  intros Hnd. unfold set_add. destruct (set_has s k) eqn:Hh; [done|].
  apply NoDup_app. split; [done|]. split; [|apply NoDup_singleton].
  intros x Hx Hx'. apply list_elem_of_singleton in Hx' as ->.
  apply set_has_elem in Hx. congruence.
Qed.

End CollectionFacts.

(** ** Paths *)

Example path_resolve_ex : path.resolve "/p/src" "./a/../b.js" = "/p/src/b.js".
Proof. reflexivity. Qed.
Example path_dirname_ex : path.dirname "/p/src/index.js" = "/p/src".
Proof. reflexivity. Qed.
Example path_relative_ex : path.relative "/p" "/p/src/index.js" = "src/index.js".
Proof. reflexivity. Qed.


(** ** Resolver *)

Lemma tryExtensions_first isFile base exts c :
  Resolver.tryExtensions isFile base exts = Some c ->
  exists i ext, exts !! i = Some ext /\ c = base +:+ ext /\ isFile c = true /\
    forall j ext', j < i -> exts !! j = Some ext' -> isFile (base +:+ ext') = false.
Proof.
  revert c. induction exts as [|ext exts IH]; intros c; simpl; [discriminate|].
  destruct (isFile (base +:+ ext)) eqn:Hf.
  - intros [= <-]. exists 0, ext. repeat split; auto. intros j ext' Hj. lia.
  - intros H. destruct (IH _ H) as (i & ext0 & Hi & Hc & Hfile & Hbefore).
    exists (S i), ext0. repeat split; auto.
    intros [|j] ext' Hj; simpl.
    + intros [= <-]. exact Hf.
    + apply Hbefore. lia.
Qed.

Lemma tryExtensions_none isFile base exts :
  Resolver.tryExtensions isFile base exts = None ->
  forall ext, ext ∈ exts -> isFile (base +:+ ext) = false.
Proof.
  induction exts as [|e exts IH]; simpl; intros H ext Hin.
  - inversion Hin.
  - destruct (isFile (base +:+ e)) eqn:Hf; [discriminate|].
    inversion Hin; subst; auto.
Qed.

Lemma append_cons (a : ascii) (s t : string) : String a s +:+ t = String a (s +:+ t).
Proof. reflexivity. Qed.

Lemma append_nil_l (s : string) : "" +:+ s = s.
Proof. reflexivity. Qed.

Lemma append_empty_r (s : string) : s +:+ "" = s.
Proof. induction s as [|a s IH]; [done|]. by rewrite append_cons, IH. Qed.

Lemma append_assoc (a b c : string) : (a +:+ b) +:+ c = a +:+ b +:+ c.
Proof. induction a as [|x a IH]; [done|]. by rewrite !append_cons, IH. Qed.

Lemma contains_refl s : contains s s.
Proof. exists "", "". by rewrite append_nil_l, append_empty_r. Qed.

Lemma contains_append_l s t u : contains s t -> contains (u +:+ s) t.
Proof.
  intros (pre & post & ->). exists (u +:+ pre), post. by rewrite append_assoc.
Qed.

Lemma contains_append_r s t u : contains s t -> contains (s +:+ u) t.
Proof.
  intros (pre & post & ->). exists pre, (post +:+ u). by rewrite !append_assoc.
Qed.

Lemma candidates_extensions base :
  Resolver.candidates base = map (fun ext => base +:+ ext) Resolver.EXTENSIONS.
Proof. unfold Resolver.candidates. simpl. by rewrite append_empty_r. Qed.

Ltac find_substring :=
  solve [ apply contains_refl
        | apply contains_append_r; find_substring
        | apply contains_append_l; find_substring ].

Lemma unresolvedMessage_lists specifier fromDir base c :
  c ∈ Resolver.candidates base ->
  contains (Resolver.unresolvedMessage specifier fromDir base) c.
Proof.
  intros Hin. unfold Resolver.unresolvedMessage.
  do 10 apply contains_append_l.
  unfold Resolver.candidates in Hin. unfold Resolver.EXTENSIONS, join. simpl.
  repeat (apply elem_of_cons in Hin as [-> | Hin]);
    [ | | | | by apply elem_of_nil in Hin ]; find_substring.
Qed.

Lemma resolveModule_relative isFile specifier fromDir :
  startsWith specifier "." = true ->
  Resolver.resolveModule isFile specifier fromDir =
  match Resolver.tryExtensions isFile (path.resolve fromDir specifier) Resolver.EXTENSIONS with
  | Some candidate => Ok candidate
  | None => Throw (Resolver.unresolvedMessage specifier fromDir (path.resolve fromDir specifier))
  end.
Proof. intros Hdot. unfold Resolver.resolveModule. by rewrite Hdot. Qed.

(** C8.  A specifier that does not begin with a dot is rejected with the
    bare-specifier error.  Otherwise, with [base] the specifier resolved
    against the referrer directory, the resolver returns the first of
    [base], [base.js], [base.json], [base/index.js] that is an existing
    regular file, and when there is none it fails with the
    unresolved-module error, whose message lists all four candidates. *)
Theorem resolveModule_spec (isFile : string -> bool) (specifier fromDir : string) :
  let base := path.resolve fromDir specifier in
  (startsWith specifier "." = false ->
     Resolver.resolveModule isFile specifier fromDir
     = Throw (Resolver.bareSpecifierMessage specifier))
  /\ (startsWith specifier "." = true ->
       (forall i c, Resolver.candidates base !! i = Some c -> isFile c = true ->
          (forall j c', j < i -> Resolver.candidates base !! j = Some c' -> isFile c' = false) ->
          Resolver.resolveModule isFile specifier fromDir = Ok c)
       /\ ((forall c, c ∈ Resolver.candidates base -> isFile c = false) ->
           exists message,
             Resolver.resolveModule isFile specifier fromDir = Throw message
             /\ message = Resolver.unresolvedMessage specifier fromDir base
             /\ forall c, c ∈ Resolver.candidates base -> contains message c)).
Proof.
  intros base. split; [|intros Hdot; split].
  - intros Hdot. unfold Resolver.resolveModule. by rewrite Hdot.
  - intros i c Hi Hfile Hbefore. rewrite resolveModule_relative by done.
    fold base. rewrite candidates_extensions in Hi, Hbefore.
    destruct (Resolver.tryExtensions isFile base Resolver.EXTENSIONS) as [c'|] eqn:Htry.
    + apply tryExtensions_first in Htry as (i' & ext & Hi' & -> & Hfile' & Hbefore').
      f_equal.
      destruct (Nat.lt_trichotomy i i') as [Hlt | [-> | Hgt]].
      * apply list_lookup_fmap_Some in Hi as (ext0 & Hc & Hext0). subst c.
        rewrite (Hbefore' i ext0 Hlt Hext0) in Hfile. discriminate.
      * rewrite list_lookup_fmap, Hi' in Hi. by simplify_eq/=.
      * assert (isFile (base +:+ ext) = false) as Hno.
        { apply (Hbefore i'); [lia|]. by rewrite list_lookup_fmap, Hi'. }
        congruence.
    + apply list_lookup_fmap_Some in Hi as (ext0 & -> & Hext0).
      rewrite (tryExtensions_none _ _ _ Htry ext0) in Hfile; [discriminate|].
      by eapply list_elem_of_lookup_2.
  - intros Hnone. exists (Resolver.unresolvedMessage specifier fromDir base).
    split; [|split; [reflexivity|]].
    + rewrite resolveModule_relative by done. fold base.
      destruct (Resolver.tryExtensions isFile base Resolver.EXTENSIONS) as [c'|] eqn:Htry;
        [|reflexivity].
      apply tryExtensions_first in Htry as (i' & ext & Hi' & -> & Hfile' & _).
      rewrite Hnone in Hfile'; [discriminate|].
      rewrite candidates_extensions. apply list_elem_of_fmap. exists ext. split; [done|].
      by eapply list_elem_of_lookup_2.
    + intros c Hc. by apply unresolvedMessage_lists.
Qed.

(** ** Transformer: one `loadModule` statement per import declaration *)

(** C1.  The module `import { a } from './m.js'; import { b } from './m.js';
    a(b);` gets a single module variable [_m_] for its one import source, but
    its factory body carries the statement `var _m_ = loadModule("./m.js");`
    twice, once per import declaration. *)
Theorem transformModule_repeats_loadModule :
  exists g info st body,
    DependencyGraph.buildDependencyGraph 10 Examples.fsDup "/p/index.js" = Some (Ok g)
    /\ map_get g "/p/index.js" = Some info
    /\ map imp.source (imports info) = ["./m.js"; "./m.js"]
    /\ Transformer.transformState info "/p" = Ok st
    /\ Transformer.moduleVarNames st = [("./m.js", "_m_")]
    /\ Transformer.loadModuleCalls st =
         [Transformer.loadModuleCall "_m_" "./m.js"; Transformer.loadModuleCall "_m_" "./m.js"]
    /\ Transformer.transformModule info "/p" = Ok body
    /\ body = "loadModule.markAsESModule(exports);" +:+ nl +:+ nl +:+
              "var _m_ = loadModule(" +:+ dq +:+ "./m.js" +:+ dq +:+ ");" +:+ nl +:+
              "var _m_ = loadModule(" +:+ dq +:+ "./m.js" +:+ dq +:+ ");" +:+ nl +:+ nl +:+
              "(0, _m_.a)(_m_.b);".
Proof.
  do 4 eexists. split; [vm_compute; reflexivity|].
  split; [vm_compute; reflexivity|].
  split; [vm_compute; reflexivity|].
  split; [vm_compute; reflexivity|].
  split; [vm_compute; reflexivity|].
  split; [vm_compute; reflexivity|].
  split; vm_compute; reflexivity.
Qed.

(** ** Planner: chunk ids that coincide *)

(** C6.  The entry `import('./a/b.js'); import('./a_b.js');` reaches the
    module `./a/b.js`, but both targets get the chunk id [a_b_js], the second
    lazy chunk replaces the first, and no emitted file holds a factory for
    `./a/b.js`. *)
Theorem colliding_chunk_ids_drop_a_module :
  exists g info bundles,
    DependencyGraph.buildDependencyGraph 10 Examples.fsCollide "/p/index.js" = Some (Ok g)
    /\ map_has g "/p/a/b.js" = true
    /\ DependencyGraph.toModuleId "/p/a/b.js" "/p" = "./a/b.js"
    /\ DependencyGraph.toChunkId "./a/b.js" = DependencyGraph.toChunkId "./a_b.js"
    /\ DependencyGraph.identifyChunks 10 g "/p/index.js" "/p" = Some (Ok info)
    /\ CodeGenerator.generateBundles info "/p" = Ok bundles
    /\ map CodeGenerator.filename bundles = ["main.js"; "a_b_js.js"]
    /\ CodeGenerator.factoryCount info "./a/b.js" = 0
    /\ forallb (fun b => negb (includes (CodeGenerator.content b)
                                        (CodeGenerator.factoryHeader "./a/b.js")))
               bundles = true.
Proof.
  do 3 eexists. split; [vm_compute; reflexivity|].
  split; [vm_compute; reflexivity|].
  split; [vm_compute; reflexivity|].
  split; [vm_compute; reflexivity|].
  split; [vm_compute; reflexivity|].
  split; [vm_compute; reflexivity|].
  split; [vm_compute; reflexivity|].
  split; vm_compute; reflexivity.
Qed.

(** ** Planner: shared chunks *)
Section SharedChunks.
Import DependencyGraph.

Lemma groupsOf_step_ok groups modId chunkIds :
  groups_ok groups ->
  groups_ok
    (let key := groupKey chunkIds in
     let groups' := if map_has groups key then groups
                    else map_set groups key {| gModuleIds := []; gChunkIds := chunkIds |} in
     match map_get groups' key with
     | Some g => map_set groups' key
                   {| gModuleIds := set_add (gModuleIds g) modId; gChunkIds := gChunkIds g |}
     | None => groups'
     end).
Proof.
  intros [Hnd Hne]. cbv zeta.
  set (key := groupKey chunkIds).
  set (groups' := if map_has groups key then groups else _).
  assert (NoDup (map fst groups')) as Hnd'.
  { unfold groups'. destruct (map_has groups key); [done|]. by apply map_set_NoDup. }
  destruct (map_get groups' key) as [g|] eqn:Hg.
  - split; [by apply map_set_NoDup|].
    intros k g0 Hin. apply elem_of_map_set_inv in Hin; [|done].
    destruct Hin as [[-> ->]|[Hk Hin]].
    + simpl. apply set_add_nonempty.
    + unfold groups' in Hin. destruct (map_has groups key); [by eapply Hne|].
      apply elem_of_map_set in Hin as [[? _]|?]; [contradiction|by eapply Hne].
  - exfalso. unfold groups' in Hg. destruct (map_has groups key) eqn:Hh.
    + unfold map_has in Hh. by rewrite Hg in Hh.
    + by rewrite map_get_set_eq in Hg.
Qed.

Lemma groupsOf_ok sharedModules : groups_ok (groupsOf sharedModules).
Proof.
  unfold groupsOf.
  assert (groups_ok []) as Hinit.
  { split; [constructor|]. intros k g Hin. inversion Hin. }
  revert Hinit. generalize (@nil (string * group)).
  induction sharedModules as [|[modId chunkIds] rest IH]; intros acc Hacc; simpl; [done|].
  apply IH. by apply groupsOf_step_ok.
Qed.

Lemma sharedChunksOf_entries groups k c :
  (k, c) ∈ sharedChunksOf groups ->
  exists key g, (key, g) ∈ groups /\ c = sharedChunkOf g /\ k = id c.
Proof.
  unfold sharedChunksOf.
  assert (forall acc : chunkMap,
    (forall k c, (k, c) ∈ acc -> exists key g, (key, g) ∈ groups /\ c = sharedChunkOf g /\ k = id c) ->
    forall l, (forall x, x ∈ l -> x ∈ groups) ->
    forall k c, (k, c) ∈ fold_left (fun shared '(_, g) =>
                   let c := sharedChunkOf g in map_set shared (id c) c) l acc ->
    exists key g, (key, g) ∈ groups /\ c = sharedChunkOf g /\ k = id c) as Hgen.
  { intros acc Hacc l. revert acc Hacc.
    induction l as [|[key g] l IH]; intros acc Hacc Hsub k0 c0; simpl; [by apply Hacc|].
    apply IH.
    - intros k1 c1 Hin. apply elem_of_map_set in Hin as [[-> ->]|Hin]; [|by apply Hacc].
      exists key, g. split; [|done]. apply Hsub, elem_of_cons. by left.
    - intros x Hx. apply Hsub, elem_of_cons. by right. }
  apply Hgen; [|done]. intros k0 c0 Hin. inversion Hin.
Qed.

End SharedChunks.

(** C2 (as the code has it).  Every shared chunk that `splitSharedModules`
    produces is keyed by its own id, has no entry module, has at least one
    member, and its id is `shared_` followed by the derived chunk id of its
    first member in insertion order, the order in which the lazy chunks'
    searches discovered the modules. *)
Theorem shared_chunk_id_from_first_member
    (lazy updated shared : DependencyGraph.chunkMap) (k : string) (c : DependencyGraph.chunk) :
  DependencyGraph.splitSharedModules lazy = (updated, shared) ->
  (k, c) ∈ shared ->
  exists m, head (DependencyGraph.moduleIds c) = Some m
            /\ DependencyGraph.id c = "shared_" +:+ DependencyGraph.toChunkId m
            /\ k = DependencyGraph.id c
            /\ DependencyGraph.entryModuleId c = None.
Proof.
  unfold DependencyGraph.splitSharedModules.
  destruct (length _ =? 0).
  - intros [= <- <-] Hin. inversion Hin.
  - intros [= <- <-] Hin.
    apply sharedChunksOf_entries in Hin as (key & g & Hg & -> & ->).
    destruct (groupsOf_ok (DependencyGraph.sharedModulesOf (DependencyGraph.countModules lazy)))
      as [_ Hne].
    specialize (Hne _ _ Hg).
    destruct (DependencyGraph.gModuleIds g) as [|m ms] eqn:Hms; [done|].
    exists m. unfold DependencyGraph.sharedChunkOf, DependencyGraph.firstModId. simpl.
    by rewrite Hms.
Qed.

Lemma shared_chunk_id_from_first_member_witness :
  exists m, head ["./z.js"; "./c.js"] = Some m
            /\ "shared_z_js" = "shared_" +:+ DependencyGraph.toChunkId m.
Proof.
  destruct (shared_chunk_id_from_first_member Examples.sharedLazyChunks
              (fst (DependencyGraph.splitSharedModules Examples.sharedLazyChunks))
              (snd (DependencyGraph.splitSharedModules Examples.sharedLazyChunks))
              "shared_z_js"
              {| DependencyGraph.id := "shared_z_js";
                 DependencyGraph.moduleIds := ["./z.js"; "./c.js"];
                 DependencyGraph.entryModuleId := None;
                 DependencyGraph.originalChunks := ["x_js"; "y_js"] |})
    as (m & Hm & Hid & _).
  - vm_compute. reflexivity.
  - vm_compute. apply elem_of_cons. left. reflexivity.
  - exists m. split; [exact Hm | exact Hid].
Defined.

(** C2 (as the specification has it) fails.  In [Examples.fsShared] the
    shared chunk of `./z.js` and `./c.js` is named after `./z.js`, which the
    searches met first, while `./c.js` comes first in sorted order. *)
Lemma shared_chunk_id_not_from_sorted_first :
  exists g info c,
    DependencyGraph.buildDependencyGraph 20 Examples.fsShared "/p/index.js" = Some (Ok g)
    /\ DependencyGraph.identifyChunks 20 g "/p/index.js" "/p" = Some (Ok info)
    /\ map_get (DependencyGraph.lazyChunks info) "shared_z_js" = Some c
    /\ DependencyGraph.moduleIds c = ["./z.js"; "./c.js"]
    /\ head (DependencyGraph.sortStrings (DependencyGraph.moduleIds c)) = Some "./c.js"
    /\ DependencyGraph.id c <> "shared_" +:+ DependencyGraph.toChunkId "./c.js".
Proof.
  do 3 eexists. split; [vm_compute; reflexivity|].
  split; [vm_compute; reflexivity|].
  split; [vm_compute; reflexivity|].
  split; [vm_compute; reflexivity|].
  split; [vm_compute; reflexivity|].
  vm_compute. discriminate.
Qed.

(** ** Planner: the chunk-group map *)
Section ChunkGroups.
Import DependencyGraph.

Lemma neededShared_filter (L : string) (shared : chunkMap) :
  neededShared L shared = map fst (filter (fun kc => L ∈ originalChunks kc.2) shared).
Proof.
  induction shared as [|[k c] rest IH]; [done|].
  rewrite filter_cons. cbn [neededShared snd]. unfold set_has.
  case_bool_decide as Hin.
  - rewrite decide_True by done. cbn [map fst]. by rewrite IH.
  - by rewrite decide_False.
Qed.

Lemma fold_map_set_keys {V W} (f : string -> V -> W) (l : list (string * V))
    (acc : list (string * W)) (k : string) :
  k ∈ map fst (fold_left (fun m '(k, c) => map_set m k (f k c)) l acc)
  <-> k ∈ map fst acc \/ k ∈ map fst l.
Proof.
  revert acc. induction l as [|[k0 c0] l IH]; intros acc; simpl.
  - split; [by left|]. intros [?|Hin]; [done|inversion Hin].
  - rewrite IH, map_set_keys. destruct (map_has acc k0) eqn:Hh.
    + apply map_has_elem in Hh. rewrite elem_of_cons. split; [tauto|].
      intros [?|[->|?]]; tauto.
    + rewrite elem_of_app, list_elem_of_singleton, elem_of_cons. tauto.
Qed.

Lemma fold_map_set_get {V W} (f : string -> W) (l : list (string * V))
    (acc : list (string * W)) (k : string) :
  k ∈ map fst l ->
  map_get (fold_left (fun m '(k, _) => map_set m k (f k)) l acc) k = Some (f k).
Proof.
  revert acc. induction l as [|[k0 c0] l IH]; intros acc Hin; simpl; [inversion Hin|].
  destruct (decide (k ∈ map fst l)) as [Hl|Hl]; [by apply IH|].
  simpl in Hin. apply elem_of_cons in Hin as [->|Hin]; [|contradiction].
  clear IH. revert acc. induction l as [|[k1 c1] l IH]; intros acc; simpl.
  - apply map_get_set_eq.
  - simpl in Hl. apply not_elem_of_cons in Hl as [Hne Hl].
    assert (forall acc', map_get acc' k0 = Some (f k0) ->
              map_get (fold_left (fun m '(k, _) => map_set m k (f k)) l acc') k0 = Some (f k0))
      as Hkeep.
    { clear -Hl. induction l as [|[k2 c2] l IH2]; intros acc' Hacc'; simpl; [done|].
      simpl in Hl. apply not_elem_of_cons in Hl as [Hne2 Hl].
      apply IH2; [done|]. by rewrite map_get_set_ne. }
    apply Hkeep. rewrite map_get_set_ne by done. apply map_get_set_eq.
Qed.

Lemma removeShared_keys sharedModules (lazy : chunkMap) k :
  k ∈ map fst (removeShared sharedModules lazy) <-> k ∈ map fst lazy.
Proof.
  unfold removeShared.
  rewrite (fold_map_set_keys
             (fun _ c => {| id := id c;
                            moduleIds := filter (fun m => negb (map_has sharedModules m))
                                                (moduleIds c);
                            entryModuleId := entryModuleId c;
                            originalChunks := originalChunks c |}) lazy [] k).
  split; [|by right]. intros [Hin|?]; [inversion Hin|done].
Qed.

Lemma splitSharedModules_keys (lazy updated shared : chunkMap) k :
  splitSharedModules lazy = (updated, shared) ->
  k ∈ map fst updated <-> k ∈ map fst lazy.
Proof.
  unfold splitSharedModules. destruct (length _ =? 0); intros [= <- <-]; [done|].
  apply removeShared_keys.
Qed.

Lemma chunkGroupMapOf_get (updated shared : chunkMap) (L : string) :
  L ∈ map fst updated ->
  map_get (chunkGroupMapOf updated shared) L = Some (neededShared L shared ++ [L]).
Proof.
  intros Hin. unfold chunkGroupMapOf.
  by rewrite (fold_map_set_get (fun k => neededShared k shared ++ [k]) updated [] L).
Qed.

End ChunkGroups.

(** C3 (as the code has it).  For every lazy chunk [L], the chunk-group
    map of the plan holds for [L] the ids of all shared chunks whose
    `originalChunks` contain [L], in the iteration order of the shared-chunk
    map (the order in which the shared chunks were created), followed by
    [L] itself as the last element. *)
Theorem chunk_group_of_lazy_chunk (fuel : nat) (g : DependencyGraph.graph)
    (entryPath projectRoot : string) (r : DependencyGraph.reached)
    (info : DependencyGraph.chunkInfo) (updated shared : DependencyGraph.chunkMap)
    (L : string) :
  DependencyGraph.reach fuel g entryPath projectRoot = Some (Ok r) ->
  DependencyGraph.identifyChunks fuel g entryPath projectRoot = Some (Ok info) ->
  DependencyGraph.splitSharedModules (DependencyGraph.rLazyChunks r) = (updated, shared) ->
  L ∈ map fst (DependencyGraph.rLazyChunks r) ->
  map_get (DependencyGraph.chunkGroupMap info) L
  = Some (map fst (filter (fun kc => L ∈ DependencyGraph.originalChunks kc.2) shared) ++ [L]).
Proof.
  intros Hreach Hplan Hsplit HL.
  unfold DependencyGraph.identifyChunks in Hplan. rewrite Hreach in Hplan.
  injection Hplan as <-. unfold DependencyGraph.plan. rewrite Hsplit. simpl.
  rewrite chunkGroupMapOf_get.
  - by rewrite neededShared_filter.
  - by apply (splitSharedModules_keys _ _ _ _ Hsplit).
Qed.

Lemma chunk_group_of_lazy_chunk_witness :
  map_get (DependencyGraph.chunkGroupMap (DependencyGraph.plan Examples.sharedReached)) "x_js"
  = Some (map fst (filter (fun kc => "x_js" ∈ DependencyGraph.originalChunks kc.2)
                          (snd (DependencyGraph.splitSharedModules Examples.sharedLazyChunks)))
          ++ ["x_js"]).
Proof.
  apply (chunk_group_of_lazy_chunk 20 Examples.sharedGraph "/p/index.js" "/p"
           Examples.sharedReached
           (DependencyGraph.plan Examples.sharedReached)
           (fst (DependencyGraph.splitSharedModules Examples.sharedLazyChunks))
           (snd (DependencyGraph.splitSharedModules Examples.sharedLazyChunks))).
  - vm_compute. reflexivity.
  - vm_compute. reflexivity.
  - vm_compute. reflexivity.
  - apply (bool_decide_unpack _). vm_compute. exact I.
Defined.

(** C3 (as the specification has it) fails.  In [Examples.fsShared] the
    lazy chunk [x_js] needs the shared chunks [shared_z_js] and
    [shared_a_js]; its chunk group lists them in that order, the order of
    their creation, which is not the order of their ids. *)
Lemma chunk_group_not_in_id_order :
  exists g info,
    DependencyGraph.buildDependencyGraph 20 Examples.fsShared "/p/index.js" = Some (Ok g)
    /\ DependencyGraph.identifyChunks 20 g "/p/index.js" "/p" = Some (Ok info)
    /\ map_get (DependencyGraph.chunkGroupMap info) "x_js"
       = Some ["shared_z_js"; "shared_a_js"; "x_js"]
    /\ DependencyGraph.sortStrings ["shared_z_js"; "shared_a_js"]
       = ["shared_a_js"; "shared_z_js"]
    /\ map_get (DependencyGraph.chunkGroupMap info) "x_js"
       <> Some (DependencyGraph.sortStrings ["shared_z_js"; "shared_a_js"] ++ ["x_js"]).
Proof.
  do 2 eexists. split; [vm_compute; reflexivity|].
  split; [vm_compute; reflexivity|].
  split; [vm_compute; reflexivity|].
  split; [vm_compute; reflexivity|].
  vm_compute. discriminate.
Qed.

(** ** Transformer: which identifiers are rewritten *)

Lemma isAmong_true ty l : isAmong ty l = true <-> ty ∈ l.
Proof.
  unfold isAmong. induction l as [|x l IH]; simpl.
  - split; [discriminate|]. intros Hin. inversion Hin.
  - rewrite orb_true_iff, IH, elem_of_cons, String.eqb_eq. tauto.
Qed.

Lemma skipped_contexts (n parent : node) :
  (ntype parent = "Property" /\ childIs "key" parent n = true /\ ncomputed parent = false)
  \/ (ntype parent = "MemberExpression" /\ childIs "property" parent n = true
      /\ ncomputed parent = false)
  \/ (ntype parent = "VariableDeclarator" /\ childIs "id" parent n = true)
  \/ (ntype parent ∈ ["FunctionDeclaration"; "ClassDeclaration"]
      /\ childIs "id" parent n = true)
  \/ (ntype parent ∈ ["FunctionDeclaration"; "FunctionExpression"; "ArrowFunctionExpression"]
      /\ childrenInclude "params" parent n = true)
  \/ (ntype parent ∈ ["LabeledStatement"; "BreakStatement"; "ContinueStatement"]
      /\ childIs "label" parent n = true) ->
  Transformer.skipped n parent = true.
Proof.
  unfold Transformer.skipped.
  intros [(Ht & Hk & Hc)|[(Ht & Hk & Hc)|[(Ht & Hk)|[(Ht & Hk)|[(Ht & Hk)|(Ht & Hk)]]]]].
  - rewrite Ht, Hk, Hc. simpl. by rewrite ?orb_true_r.
  - rewrite Ht, Hk, Hc. simpl. by rewrite ?orb_true_r.
  - rewrite Ht, Hk. simpl. by rewrite ?orb_true_r.
  - apply isAmong_true in Ht. rewrite Ht, Hk. simpl. by rewrite ?orb_true_r.
  - apply isAmong_true in Ht. rewrite Ht, Hk. simpl. by rewrite ?orb_true_r.
  - rewrite Hk.
    repeat (apply elem_of_cons in Ht as [Ht|Ht]); [| | |by apply elem_of_nil in Ht];
      rewrite Ht; simpl; by rewrite ?orb_true_r.
Qed.




(** ** Re-exports *)
Section Reexports.
Import DependencyGraph.

(** The parser makes one `imports` entry per `ImportDeclaration` it
    visits, and nothing else adds to the list. *)
Lemma parser_imports_fold (vs : list visit) (st : Parser.state) :
  map imp.node_ (Parser.imports_ (fold_left Parser.visitor vs st))
  = map imp.node_ (Parser.imports_ st)
    ++ map vnode (filter (fun v => vtype v = "ImportDeclaration") vs).
Proof.
  revert st. induction vs as [|v vs IH]; intros st; simpl.
  - by rewrite app_nil_r.
  - rewrite IH, filter_cons. unfold Parser.visitor.
    destruct (String.eqb (vtype v) "ImportDeclaration") eqn:H1.
    + apply String.eqb_eq in H1. rewrite decide_True by done.
      simpl. rewrite map_app. simpl. by rewrite <- app_assoc.
    + apply String.eqb_neq in H1. rewrite decide_False by done.
      by repeat (destruct (String.eqb (vtype v) _)).
Qed.

Lemma parser_imports (file text : string) (tree : node) :
  map imp.node_ (imports (Parser.extract file text tree))
  = map vnode (filter (fun v => vtype v = "ImportDeclaration") (walk [] tree "")).
Proof. unfold Parser.extract. simpl. by rewrite parser_imports_fold. Qed.

Lemma followImports_spec fs dir (g : graph) imps imps' pushed :
  followImports fs dir g imps = Ok (imps', pushed) ->
  map imp.node_ imps' = map imp.node_ imps
  /\ map imp.source imps' = map imp.source imps
  /\ forall p, p ∈ pushed -> Some p ∈ map imp.resolvedPath imps'.
Proof.
  revert imps' pushed. induction imps as [|i rest IH]; intros imps' pushed; simpl.
  - intros [= <- <-]. repeat split. intros p Hp. inversion Hp.
  - destruct (Resolver.resolveModule _ _ _) as [resolved|]; simpl; [|discriminate].
    destruct (followImports fs dir g rest) as [[rest' pushed']|]; simpl; [|discriminate].
    intros [= <- <-]. destruct (IH _ _ eq_refl) as (Hn & Hs & Hp).
    simpl. rewrite Hn, Hs. repeat split.
    intros p Hin. apply elem_of_app in Hin as [Hin|Hin].
    + destruct (map_has g resolved); [inversion Hin|].
      apply list_elem_of_singleton in Hin as ->. apply elem_of_cons. by left.
    + apply elem_of_cons. right. by apply Hp.
Qed.

Lemma followDynamicImports_spec fs dir (g : graph) dyns dyns' pushed :
  followDynamicImports fs dir g dyns = Ok (dyns', pushed) ->
  forall p, p ∈ pushed -> Some p ∈ map dyn.resolvedPath dyns'.
Proof.
  revert dyns' pushed. induction dyns as [|d rest IH]; intros dyns' pushed; simpl.
  - intros [= <- <-] p Hp. inversion Hp.
  - destruct (truthy (dyn.source d)).
    + destruct (Resolver.resolveModule _ _ _) as [resolved|]; simpl; [|discriminate].
      destruct (followDynamicImports fs dir g rest) as [[rest' pushed']|]; simpl;
        [|discriminate].
      intros [= <- <-] p Hin. simpl. apply elem_of_app in Hin as [Hin|Hin].
      * destruct (map_has g resolved); [inversion Hin|].
        apply list_elem_of_singleton in Hin as ->. apply elem_of_cons. by left.
      * apply elem_of_cons. right. by eapply IH.
    + destruct (followDynamicImports fs dir g rest) as [[rest' pushed']|]; simpl;
        [|discriminate].
      intros [= <- <-] p Hin. simpl. apply elem_of_cons. right. by eapply IH.
Qed.

Lemma map_set_absent {V} (m : list (string * V)) k v :
  map_has m k = false -> map_set m k v = m ++ [(k, v)].
Proof.
  unfold map_has. induction m as [|[k' v'] m IH]; simpl; [done|].
  destruct (decide (k' = k)); [discriminate|]. intros Hm. by rewrite IH.
Qed.

Lemma map_set_last {V} (m : list (string * V)) k v v' :
  map_has m k = false -> map_set (m ++ [(k, v)]) k v' = m ++ [(k, v')].
Proof.
  unfold map_has. induction m as [|[k0 v0] m IH]; simpl.
  - intros _. by rewrite decide_True.
  - destruct (decide (k0 = k)); [discriminate|]. intros Hm. by rewrite IH.
Qed.

Lemma reachedBySite_mono (g g' : graph) entryPath file :
  (forall x, x ∈ g -> x ∈ g') -> reachedBySite g entryPath file ->
  reachedBySite g' entryPath file.
Proof.
  intros Hsub [->|(q & info & Hin & Hsite)]; [by left|].
  right. exists q, info. split; [by apply Hsub|done].
Qed.

Lemma buildLoop_ok fuel fs entryPath (g : graph) queue g' :
  graph_ok fs entryPath g queue ->
  buildLoop fuel fs g queue = Some (Ok g') ->
  graph_ok fs entryPath g' [].
Proof.
  revert g queue. induction fuel as [|fuel IH]; intros g queue Hok;
    destruct queue as [|file queue]; simpl.
  - intros [= <-]. exact Hok.
  - discriminate.
  - intros [= <-]. exact Hok.
  - destruct (map_has g file) eqn:Hhas.
    { apply IH. destruct Hok as [Hp Hr]. split; [done|].
      intros f [Hf|Hf]; apply Hr; [by left|]. right. apply elem_of_cons. by right. }
    unfold Parser.parseModule.
    destruct (fs file) as [[text [tree|]|]|] eqn:Hfs; unfold bind; try discriminate.
    set (info := Parser.extract file text tree).
    destruct (followImports fs (path.dirname file) (map_set g file info) (imports info))
      as [[imports' pushed1]|] eqn:Hfi; [|discriminate].
    destruct (followDynamicImports fs (path.dirname file) (map_set g file info)
                (dynamicImports info)) as [[dyns' pushed2]|] eqn:Hfd; [|discriminate].
    rewrite (map_set_absent g file info Hhas), (map_set_last g file _ _ Hhas).
    apply IH. destruct Hok as [Hp Hr].
    apply followImports_spec in Hfi as (Hnodes & _ & Hpushed1).
    pose proof (followDynamicImports_spec _ _ _ _ _ _ Hfd) as Hpushed2.
    split.
    + intros f i Hin. apply elem_of_app in Hin as [Hin|Hin]; [by apply Hp|].
      apply list_elem_of_singleton in Hin as [= -> ->].
      exists text, tree. by repeat split.
    + intros f Hf.
      assert (forall x, x ∈ g -> x ∈ g ++ [(file, {| filePath := filePath info;
                source := source info; ast := ast info; imports := imports';
                exports := exports info; dynamicImports := dyns';
                importedBindings := importedBindings info |})]) as Hsub.
      { intros x Hx. apply elem_of_app. by left. }
      destruct Hf as [Hf|Hf].
      * rewrite map_app in Hf. apply elem_of_app in Hf as [Hf|Hf].
        -- eapply reachedBySite_mono; [exact Hsub|]. apply Hr. by left.
        -- simpl in Hf. apply list_elem_of_singleton in Hf as ->.
           eapply reachedBySite_mono; [exact Hsub|]. apply Hr. right.
           apply elem_of_cons. by left.
      * apply elem_of_app in Hf as [Hf|Hf].
        -- eapply reachedBySite_mono; [exact Hsub|]. apply Hr. right.
           apply elem_of_cons. by right.
        -- right. eexists file, _. split.
           { apply elem_of_app. right. apply list_elem_of_singleton. reflexivity. }
           simpl. apply elem_of_app in Hf as [Hf|Hf]; [left; by apply Hpushed1|].
           right. by apply Hpushed2.
Qed.

Lemma buildDependencyGraph_ok fuel fs entryPath g :
  buildDependencyGraph fuel fs entryPath = Some (Ok g) ->
  graph_ok fs entryPath g [].
Proof.
  apply buildLoop_ok. split.
  - intros file info Hin. inversion Hin.
  - intros file [Hin|Hin]; [inversion Hin|].
    apply list_elem_of_singleton in Hin as ->. by left.
Qed.

Lemma step1_names projectRoot imps names imps' names' k :
  Transformer.step1 projectRoot imps names = Ok (imps', names') ->
  k ∈ map fst names' -> k ∈ map fst names \/ k ∈ map imp.source imps.
Proof.
  revert names imps'. induction imps as [|i rest IH]; intros names imps'; simpl.
  - intros [= <- <-]. by left.
  - destruct (resolvedId _ _) as [moduleId|]; simpl; [|discriminate].
    destruct (Transformer.step1 projectRoot rest _) as [[rest' names'']|] eqn:Hrest;
      simpl; [|discriminate].
    intros [= <- <-] Hk. destruct (IH _ _ Hrest Hk) as [Hin|Hin].
    + destruct (map_has names (imp.source i)); [by left|].
      rewrite map_set_keys in Hin.
      destruct (map_has names (imp.source i)); [by left|].
      apply elem_of_app in Hin as [?|Hin]; [by left|].
      apply list_elem_of_singleton in Hin as ->. right. apply elem_of_cons. by left.
    + right. apply elem_of_cons. by right.
Qed.

Lemma step2_names imps st st' :
  Transformer.step2 imps st = Ok st' ->
  Transformer.moduleVarNames st' = Transformer.moduleVarNames st.
Proof.
  revert st. induction imps as [|[i moduleId] rest IH]; intros st; simpl.
  - by intros [= <-].
  - destruct (MagicString.remove _ _ _) as [s'|]; simpl; [|discriminate].
    intros Hrest. by rewrite (IH _ Hrest).
Qed.

Lemma namedExport_pushed info projectRoot e st st' s :
  let call := Transformer.loadModuleCall (Transformer.makeVarName s)
                (toModuleId (path.resolve (path.dirname (filePath info)) s) projectRoot) in
  Transformer.namedExport info projectRoot e st = Ok st' ->
  call_pushed call s st ->
  call_pushed call s st'
  /\ (map_has (Transformer.moduleVarNames st) s = true ->
      map_has (Transformer.moduleVarNames st') s = true)
  /\ (exp.reexportSource e = Some s -> s <> "" ->
      map_has (Transformer.moduleVarNames st') s = true).
Proof.
  intros call. unfold Transformer.namedExport.
  destruct (match exp.declarationNode e with Some _ => _ | None => _ end) as [s'|];
    simpl; [|discriminate].
  destruct (truthy (exp.reexportSource e)) eqn:Htruthy.
  - destruct (exp.reexportSource e) as [src|] eqn:Hsrc; [|discriminate]. simpl.
    intros [= <-] Hpushed. simpl.
    destruct (map_has (Transformer.moduleVarNames st) src) eqn:Hhas; simpl.
    + split; [done|]. split; [done|]. by intros [= <-] _.
    + assert (forall k, map_has (map_set (Transformer.moduleVarNames st) src
                                   (Transformer.makeVarName src)) k = true
                        <-> k = src \/ map_has (Transformer.moduleVarNames st) k = true)
        as Hkeys.
      { intros k. rewrite !map_has_elem, map_set_keys, Hhas, elem_of_app,
          list_elem_of_singleton. tauto. }
      split; [|split].
      * intros Hs. apply Hkeys in Hs as [->|Hs].
        -- apply elem_of_app. right. apply list_elem_of_singleton. reflexivity.
        -- apply elem_of_app. left. by apply Hpushed.
      * intros Hs. apply Hkeys. by right.
      * intros [= <-] _. apply Hkeys. by left.
  - intros [= <-] Hpushed. simpl. split; [done|]. split; [done|].
    intros Hs Hne. rewrite Hs in Htruthy. simpl in Htruthy.
    apply negb_false_iff, String.eqb_eq in Htruthy. contradiction.
Qed.

Lemma step3_pushed info projectRoot es st st' s e :
  let call := Transformer.loadModuleCall (Transformer.makeVarName s)
                (toModuleId (path.resolve (path.dirname (filePath info)) s) projectRoot) in
  Transformer.step3 info projectRoot es st = Ok st' ->
  call_pushed call s st ->
  (map_has (Transformer.moduleVarNames st) s = true \/
   (e ∈ es /\ exp.reexportSource e = Some s /\ s <> "")) ->
  call ∈ Transformer.loadModuleCalls st'.
Proof.
  intros call. revert st. induction es as [|e0 rest IH]; intros st; simpl.
  - intros [= <-] Hpushed [Hs|(Hin & _)]; [by apply Hpushed|inversion Hin].
  - destruct (Transformer.namedExport info projectRoot e0 st) as [st1|] eqn:H1;
      simpl; [|discriminate].
    intros Hrest Hpushed Hcase.
    destruct (namedExport_pushed _ _ _ _ _ s H1 Hpushed) as (Hp1 & Hmono & Hnew).
    apply (IH st1 Hrest Hp1).
    destruct Hcase as [Hs|(Hin & Hsrc & Hne)]; [left; by apply Hmono|].
    apply elem_of_cons in Hin as [->|Hin]; [left; by apply Hnew|].
    right. by repeat split.
Qed.

Lemma defaultExport_calls info st st' :
  Transformer.defaultExport info st = Ok st' ->
  Transformer.loadModuleCalls st' = Transformer.loadModuleCalls st.
Proof.
  unfold Transformer.defaultExport.
  destruct (hasDefault (exports info)); [|by intros [= <-]].
  destruct (defaultNode (exports info)) as [defNode|]; [|discriminate].
  destruct (child "declaration" defNode) as [decl|]; [|discriminate].
  case_bool_decide.
  - destruct (MagicString.remove _ _ _) as [s1|]; simpl; [|discriminate].
    destruct (truthy _); [by intros [= <-]|].
    destruct (MagicString.overwrite _ _ _ _) as [s2|]; simpl; [|discriminate].
    by intros [= <-].
  - destruct (MagicString.overwrite _ _ _ _) as [s1|]; simpl; [|discriminate].
    by intros [= <-].
Qed.

Lemma reexport_call_emitted info projectRoot st e s :
  e ∈ named (exports info) -> exp.reexportSource e = Some s -> s <> "" ->
  (forall i, i ∈ imports info -> imp.source i <> s) ->
  Transformer.transformState info projectRoot = Ok st ->
  Transformer.loadModuleCall (Transformer.makeVarName s)
    (toModuleId (path.resolve (path.dirname (filePath info)) s) projectRoot)
  ∈ Transformer.loadModuleCalls st.
Proof.
  intros He Hsrc Hne Hfresh. unfold Transformer.transformState.
  destruct (Transformer.step1 projectRoot (imports info) []) as [[imps names]|] eqn:H1;
    simpl; [|discriminate].
  destruct (Transformer.step2 imps _) as [st2|] eqn:H2; simpl; [|discriminate].
  destruct (Transformer.step3 info projectRoot _ st2) as [st3|] eqn:H3; simpl; [|discriminate].
  destruct (Transformer.defaultExport info st3) as [st3'|] eqn:Hd; simpl; [|discriminate].
  destruct (Transformer.applyReplacements _ _) as [s4|]; simpl; [|discriminate].
  destruct (Transformer.step5 _ _ _) as [s5|]; simpl; [|discriminate].
  intros [= <-]. simpl. rewrite (defaultExport_calls _ _ _ Hd).
  apply (step3_pushed _ _ _ _ _ s e H3).
  - intros Hhas. exfalso. apply map_has_elem in Hhas.
    rewrite (step2_names _ _ _ H2) in Hhas. simpl in Hhas.
    destruct (step1_names _ _ _ _ _ _ H1 Hhas) as [Hin|Hin]; [inversion Hin|].
    apply list_elem_of_fmap in Hin as (i & Hi & Hin). by apply (Hfresh i).
  - right. by repeat split.
Qed.

(** The code generator: a factory is only emitted for a module id that the
    `modules` map holds. *)
Lemma factoryEntries_ok outer inner (modules : modulesMap) projectRoot ids ls :
  CodeGenerator.factoryEntries outer inner modules projectRoot ids = Ok ls ->
  forall moduleId, moduleId ∈ ids -> map_has modules moduleId = true.
Proof.
  revert ls. induction ids as [|moduleId rest IH]; intros ls; simpl.
  - intros _ m Hm. inversion Hm.
  - unfold CodeGenerator.factoryEntry, CodeGenerator.transformed, map_has.
    destruct (map_get modules moduleId) as [i|] eqn:Hget; simpl; [|discriminate].
    destruct (Transformer.transformModule i projectRoot); simpl; [|discriminate].
    destruct (CodeGenerator.factoryEntries outer inner modules projectRoot rest)
      as [entries|] eqn:Hrest; simpl; [|discriminate].
    intros _ m Hm. apply elem_of_cons in Hm as [->|Hm].
    + by rewrite Hget.
    + by apply (IH _ eq_refl).
Qed.

Lemma generateLazyBundles_ok (chunks : chunkMap) (modules : modulesMap) projectRoot bs :
  CodeGenerator.generateLazyBundles chunks modules projectRoot = Ok bs ->
  forall k c moduleId, (k, c) ∈ chunks -> moduleId ∈ moduleIds c ->
  map_has modules moduleId = true.
Proof.
  revert bs. induction chunks as [|[k0 c0] rest IH]; intros bs; simpl.
  - intros _ k c m Hin. inversion Hin.
  - unfold CodeGenerator.generateLazyChunk.
    destruct (CodeGenerator.factoryEntries _ _ modules projectRoot (moduleIds c0))
      as [entries|] eqn:Hentries; simpl; [|discriminate].
    destruct (CodeGenerator.generateLazyBundles rest modules projectRoot)
      as [bundles|] eqn:Hrest; simpl; [|discriminate].
    intros _ k c m Hin Hm. apply elem_of_cons in Hin as [[= -> ->]|Hin].
    + by eapply factoryEntries_ok.
    + by eapply (IH _ eq_refl).
Qed.

Lemma generateBundles_ok info projectRoot bundles moduleId :
  CodeGenerator.generateBundles info projectRoot = Ok bundles ->
  moduleId ∈ flat_map snd (CodeGenerator.emittedFactories info) ->
  map_has (modules info) moduleId = true.
Proof.
  unfold CodeGenerator.generateBundles, CodeGenerator.generateMainBundle.
  destruct (CodeGenerator.factoryEntries _ _ (modules info) projectRoot
              (moduleIds (mainChunk info))) as [registry|] eqn:Hmain; simpl; [|discriminate].
  destruct (CodeGenerator.generateLazyBundles _ _ _) as [lazy|] eqn:Hlazy; simpl;
    [|discriminate].
  intros _ Hin. unfold CodeGenerator.emittedFactories in Hin. simpl in Hin.
  apply elem_of_app in Hin as [Hin|Hin]; [by eapply factoryEntries_ok|].
  apply list_elem_of_In, in_flat_map in Hin as ([f ids] & Hf & Hm).
  apply in_map_iff in Hf as ([k c] & [= <- <-] & Hkc).
  eapply generateLazyBundles_ok; [exact Hlazy| |].
  - apply list_elem_of_In. exact Hkc.
  - apply list_elem_of_In. exact Hm.
Qed.

Lemma modulesOf_keys (g : graph) projectRoot k :
  k ∈ map fst (modulesOf g projectRoot) ->
  exists p, p ∈ map fst g /\ k = toModuleId p projectRoot.
Proof.
  unfold modulesOf.
  assert (forall acc : modulesMap,
            k ∈ map fst (fold_left (fun modules '(absPath, info) =>
                           map_set modules (toModuleId absPath projectRoot) info) g acc) ->
            k ∈ map fst acc \/ exists p, p ∈ map fst g /\ k = toModuleId p projectRoot)
    as Hgen.
  { induction g as [|[p i] g IH]; intros acc; simpl; [by left|].
    intros Hk. destruct (IH _ Hk) as [Hin|(p' & Hp' & ->)].
    - rewrite map_set_keys in Hin. destruct (map_has acc _); [by left|].
      apply elem_of_app in Hin as [?|Hin]; [by left|].
      apply list_elem_of_singleton in Hin as ->. right. exists p. split; [|done].
      apply elem_of_cons. by left.
    - right. exists p'. split; [|done]. apply elem_of_cons. by right. }
  intros Hk. destruct (Hgen [] Hk) as [Hin|?]; [inversion Hin|done].
Qed.

Lemma identifyChunks_modules fuel (g : graph) entryPath projectRoot info :
  identifyChunks fuel g entryPath projectRoot = Some (Ok info) ->
  modules info = modulesOf g projectRoot.
Proof.
  unfold identifyChunks, reach.
  destruct (staticLoop _ _ _ _ _ _) as [[mainIds|]|]; try discriminate.
  destruct (lazyChunksOf _ _ _ _ _ _) as [[lazy|]|]; try discriminate.
  intros [= <-]. unfold plan. simpl. by destruct (splitSharedModules lazy).
Qed.

End Reexports.




(** ** Determinism *)
Section Fuel.
Import DependencyGraph.

Lemma buildLoop_mono fuel fuel' fs (g : graph) queue r :
  fuel <= fuel' -> buildLoop fuel fs g queue = Some r -> buildLoop fuel' fs g queue = Some r.
Proof.
  revert fuel' g queue. induction fuel as [|fuel IH]; intros fuel' g queue Hle;
    destruct queue as [|file queue]; simpl.
  - intros H. by destruct fuel'.
  - discriminate.
  - intros H. by destruct fuel'.
  - destruct fuel' as [|fuel']; [lia|]. simpl.
    destruct (map_has g file); [apply IH; lia|].
    destruct (Parser.parseModule fs file) as [info|]; [|done].
    destruct (followImports _ _ _ _) as [[imports' pushed1]|]; [|done].
    destruct (followDynamicImports _ _ _ _) as [[dyns' pushed2]|]; [|done].
    apply IH. lia.
Qed.

Lemma staticLoop_mono fuel fuel' (modules : modulesMap) projectRoot excluded visited queue r :
  fuel <= fuel' ->
  staticLoop fuel modules projectRoot excluded visited queue = Some r ->
  staticLoop fuel' modules projectRoot excluded visited queue = Some r.
Proof.
  revert fuel' visited queue. induction fuel as [|fuel IH]; intros fuel' visited queue Hle;
    destruct queue as [|modId queue]; simpl.
  - intros H. by destruct fuel'.
  - discriminate.
  - intros H. by destruct fuel'.
  - destruct fuel' as [|fuel']; [lia|]. simpl.
    destruct (set_has visited modId || set_has excluded modId); [apply IH; lia|].
    destruct (map_get modules modId) as [info|]; [|apply IH; lia].
    destruct (depIds projectRoot (imports info)) as [deps|]; [|done].
    apply IH. lia.
Qed.

Lemma lazyChunksOf_mono fuel fuel' (modules : modulesMap) projectRoot mainIds points
    (lazy : chunkMap) r :
  fuel <= fuel' ->
  lazyChunksOf fuel modules projectRoot mainIds points lazy = Some r ->
  lazyChunksOf fuel' modules projectRoot mainIds points lazy = Some r.
Proof.
  intros Hle. revert lazy. induction points as [|[target chunkId] rest IH]; intros lazy;
    simpl; [done|].
  destruct (staticLoop fuel _ _ _ _ _) as [r1|] eqn:H1; [|discriminate].
  rewrite (staticLoop_mono _ _ _ _ _ _ _ _ Hle H1).
  destruct r1 as [ids|]; [|done]. apply IH.
Qed.

Lemma identifyChunks_mono fuel fuel' (g : graph) entryPath projectRoot r :
  fuel <= fuel' ->
  identifyChunks fuel g entryPath projectRoot = Some r ->
  identifyChunks fuel' g entryPath projectRoot = Some r.
Proof.
  intros Hle. unfold identifyChunks, reach.
  destruct (staticLoop fuel _ _ _ _ _) as [r1|] eqn:H1; [|discriminate].
  rewrite (staticLoop_mono _ _ _ _ _ _ _ _ Hle H1).
  destruct r1 as [mainIds|]; [|done].
  destruct (lazyChunksOf fuel _ _ _ _ _) as [r2|] eqn:H2; [|discriminate].
  by rewrite (lazyChunksOf_mono _ _ _ _ _ _ _ _ Hle H2).
Qed.

Lemma bundle_mono fuel fuel' fs entryPath projectRoot r :
  fuel <= fuel' ->
  bundle fuel fs entryPath projectRoot = Some r ->
  bundle fuel' fs entryPath projectRoot = Some r.
Proof.
  intros Hle. unfold bundle, buildDependencyGraph.
  destruct (buildLoop fuel fs [] [entryPath]) as [r1|] eqn:H1; [|discriminate].
  rewrite (buildLoop_mono _ _ _ _ _ _ Hle H1).
  destruct r1 as [g|]; [|done].
  destruct (identifyChunks fuel g entryPath projectRoot) as [r2|] eqn:H2; [|discriminate].
  by rewrite (identifyChunks_mono _ _ _ _ _ _ Hle H2).
Qed.

End Fuel.



(** ** The loader of the entry bundle *)
Section LoaderFacts.
Import Runtime.
Context {val : Type}.
Implicit Types (st : state val) (c : code val).

Lemma define_consistent target key (v : val) st :
  consistent st -> consistent (define target key v st).
Proof. unfold define. by destruct (heap st !! target) as [[|]|]. Qed.

Lemma exec_consistent (load : string -> state val -> outcome loc * state val) c st :
  (forall moduleId st, consistent st -> consistent (load moduleId st).2) ->
  consistent st -> consistent (exec load c st).2.
Proof.
  intros Hload. revert st. induction c as [|moduleId k IH|target key v k IH|m e k IH|msg];
    intros st Hst; simpl; auto.
  - specialize (Hload moduleId st Hst).
    destruct (load moduleId st) as [[e| |] st']; simpl in *; auto.
  - apply IH. by apply define_consistent.
Qed.

Lemma loadModule_consistent fuel moduleId st :
  consistent st -> consistent (loadModule fuel moduleId st).2.
Proof.
  revert moduleId st. induction fuel as [|fuel IH]; intros moduleId st Hst; simpl; [done|].
  destruct (moduleCache st !! moduleId) as [m|] eqn:Hcache; [done|].
  simpl. destruct (moduleRegistry st !! moduleId) as [f|] eqn:Hreg.
  - set (st1 := invoke moduleId _).
    assert (consistent st1) as Hst1.
    { destruct Hst as [Hnd Hin]. split; simpl.
      - apply NoDup_app. split; [done|]. split; [|apply NoDup_singleton].
        intros x Hx Hx'. apply list_elem_of_singleton in Hx' as ->.
        destruct (Hin _ Hx) as [? Hsome]. congruence.
      - intros x Hx. apply elem_of_app in Hx as [Hx|Hx].
        + destruct (decide (moduleId = x)) as [->|Hne].
          * rewrite lookup_insert_eq. by eexists.
          * rewrite lookup_insert_ne by done. by apply Hin.
        + apply list_elem_of_singleton in Hx as ->. rewrite lookup_insert_eq. by eexists. }
    pose proof (exec_consistent (loadModule fuel) (f (S (next st)) (exportsOf
      {| moduleRegistry := moduleRegistry st;
         moduleCache := <[moduleId := S (next st)]> (moduleCache st);
         heap := <[S (next st) := ModuleObject (next st)]>
                   (<[next st := ExportsObject ∅]> (heap st));
         next := S (S (next st)); invoked := invoked st |} (S (next st)))) st1 IH Hst1) as Hexec.
    by destruct (exec _ _ st1) as [[[]| |] st2].
  - simpl. destruct Hst as [Hnd Hin]. split; [done|]. simpl. intros x Hx.
    destruct (decide (moduleId = x)) as [->|Hne].
    + rewrite lookup_insert_eq. by eexists.
    + rewrite lookup_insert_ne by done. by apply Hin.
Qed.

Lemma step_consistent st (ev : event val) : consistent st -> consistent (step st ev).
Proof. destruct ev as [fuel moduleId|moduleId f]; simpl; [apply loadModule_consistent|done]. Qed.

Lemma run_consistent (registry : gmap string (factory val)) (evs : list (event val)) :
  consistent (run registry evs).
Proof.
  unfold run.
  assert (consistent (initial registry)) as Hinit.
  { split; simpl; [constructor|]. intros x Hx. inversion Hx. }
  revert Hinit. generalize (initial registry).
  induction evs as [|ev evs IH]; intros st Hst; simpl; [done|].
  apply IH. by apply step_consistent.
Qed.

End LoaderFacts.

(** C7.  If the cache holds the requested id, the loader returns the cached
    module's `exports` and leaves the state as it is, so no factory is
    invoked.  Otherwise it allocates `{exports: {}}`, and the factory runs
    in a state whose cache already holds that module, with the module, its
    (empty) exports object and the loader itself as arguments; what is
    returned is the module's `exports` once the factory is finished.  In
    every process, whatever is loaded or installed and in whatever order,
    no factory is invoked twice. *)
Theorem loader_contract {val : Type} (st : Runtime.state val) (fuel : nat) (moduleId : string) :
  (forall cachedModule,
      Runtime.moduleCache st !! moduleId = Some cachedModule ->
      Runtime.loadModule (S fuel) moduleId st
      = (Runtime.Returned (Runtime.exportsOf st cachedModule), st))
  /\ (forall f,
        Runtime.moduleCache st !! moduleId = None ->
        Runtime.moduleRegistry st !! moduleId = Some f ->
        exists m e st1,
          Runtime.createModule moduleId st = (m, e, st1)
          /\ Runtime.moduleCache st1 !! moduleId = Some m
          /\ Runtime.heap st1 !! m = Some (Runtime.ModuleObject e)
          /\ Runtime.heap st1 !! e = Some (Runtime.ExportsObject ∅)
          /\ Runtime.invoked st1 = Runtime.invoked st
          /\ Runtime.loadModule (S fuel) moduleId st
             = match Runtime.exec (Runtime.loadModule fuel) (f m e)
                       (Runtime.invoke moduleId st1) with
               | (Runtime.Returned _, st2) => (Runtime.Returned (Runtime.exportsOf st2 m), st2)
               | (Runtime.Thrown msg, st2) => (Runtime.Thrown msg, st2)
               | (Runtime.OutOfFuel, st2) => (Runtime.OutOfFuel, st2)
               end)
  /\ (forall (registry : gmap string (Runtime.factory val)) (evs : list (Runtime.event val)),
        NoDup (Runtime.invoked (Runtime.run registry evs))).
Proof.
  split; [|split].
  - intros m Hm. simpl. by rewrite Hm.
  - intros f Hcache Hreg. eexists _, _, _. split; [reflexivity|].
    split; [simpl; by rewrite lookup_insert_eq|].
    split; [simpl; by rewrite lookup_insert_eq|].
    split; [simpl; rewrite lookup_insert_ne by lia; by rewrite lookup_insert_eq|].
    split; [done|].
    simpl. rewrite Hcache, Hreg. unfold Runtime.exportsOf at 1. simpl.
    by rewrite lookup_insert_eq.
  - intros registry evs. apply run_consistent.
Qed.

Lemma loader_contract_witness :
  Runtime.invoked (Runtime.run Examples.cyclicRegistry Examples.cyclicProcess)
  = ["./a.js"; "./b.js"]
  /\ NoDup (Runtime.invoked (Runtime.run Examples.cyclicRegistry Examples.cyclicProcess))
  /\ Runtime.loadModule 1 "./a.js"
       (Runtime.run Examples.cyclicRegistry Examples.cyclicProcess)
     = (Runtime.Returned 0, Runtime.run Examples.cyclicRegistry Examples.cyclicProcess).
Proof.
  destruct (loader_contract (Runtime.run Examples.cyclicRegistry Examples.cyclicProcess)
              0 "./a.js") as (Hcached & _ & Honce).
  split; [vm_compute; reflexivity|].
  split; [apply Honce|].
  rewrite (Hcached 1); [|vm_compute; reflexivity].
  f_equal.
Defined.

(** ** The patch buffer *)
Section Patching.
Import MagicString.

Lemma cover_bounds a cs b :
  cover a cs b -> a <= b /\ forall c, c ∈ cs -> a <= cstart c /\ cstart c < cend c /\ cend c <= b.
Proof.
  induction 1 as [a|c rest b Hc Hrest [IHle IH]].
  - split; [done|]. intros c Hc. inversion Hc.
  - split; [lia|]. intros c' Hc'. apply elem_of_cons in Hc' as [->|Hc']; [lia|].
    destruct (IH _ Hc') as (? & ? & ?). lia.
Qed.

Lemma cover_no_boundary_inside a cs b x :
  cover a cs b -> isBoundary a cs x -> forall c, c ∈ cs -> ~ (cstart c < x < cend c).
Proof.
  intros Hcover. revert x. induction Hcover as [a|c rest b Hc Hrest IH]; intros x Hx c' Hc'.
  - inversion Hc'.
  - destruct (cover_bounds _ _ _ Hrest) as [Hle Hbounds].
    apply elem_of_cons in Hc' as [->|Hc'].
    + destruct Hx as [->|Hx]; [lia|]. simpl in Hx.
      apply elem_of_cons in Hx as [->|Hx]; [lia|].
      apply list_elem_of_fmap in Hx as (c1 & -> & Hc1).
      destruct (Hbounds _ Hc1) as (? & ? & ?). lia.
    + destruct Hx as [->|Hx].
      * destruct (Hbounds _ Hc') as (? & ? & ?). lia.
      * simpl in Hx. apply elem_of_cons in Hx as [->|Hx].
        -- apply IH; [by left|done].
        -- apply IH; [by right|done].
Qed.

Lemma isBoundary_start a cs b x :
  cover a cs b -> isBoundary a cs x -> x < b -> exists c, c ∈ cs /\ cstart c = x.
Proof.
  intros Hcover. revert x. induction Hcover as [a|c rest b Hc Hrest IH]; intros x Hx Hlt.
  - destruct Hx as [->|Hx]; [lia|inversion Hx].
  - destruct Hx as [->|Hx].
    + exists c. split; [apply elem_of_cons; by left|done].
    + simpl in Hx. apply elem_of_cons in Hx.
      assert (isBoundary (cend c) rest x) as Hx' by (destruct Hx as [->|?]; [by left|by right]).
      destruct (IH _ Hx' Hlt) as (c' & Hc' & Heq).
      exists c'. split; [apply elem_of_cons; by right|done].
Qed.

Lemma isBoundary_end a cs b : cover a cs b -> isBoundary a cs b.
Proof.
  induction 1 as [a|c rest b Hc Hrest IH]; [by left|].
  right. simpl. destruct IH as [->|IH]; apply elem_of_cons; [by left|by right].
Qed.

Lemma renderedChunks_app u v l1 l2 :
  renderedChunks u v (l1 ++ l2) = renderedChunks u v l1 +:+ renderedChunks u v l2.
Proof.
  induction l1 as [|c l1 IH]; simpl; [done|].
  destruct ((u <=? cstart c) && (cend c <=? v)); [|done].
  by rewrite IH, append_assoc.
Qed.

(** Splitting. *)
Lemma splitAt_spec a cs b x :
  cover a cs b ->
  (forall c, c ∈ cs -> cstart c < x < cend c -> edited c = false) ->
  exists cs', splitAt x cs = Ok cs'
    /\ cover a cs' b
    /\ (forall y, isBoundary a cs y -> isBoundary a cs' y)
    /\ ((exists c, c ∈ cs /\ cstart c < x < cend c) -> isBoundary a cs' x)
    /\ (forall c', c' ∈ cs' -> edited c' = true -> c' ∈ cs)
    /\ (forall u v, isBoundary a cs u -> isBoundary a cs v -> x <= u \/ v <= x ->
          renderedChunks u v cs' = renderedChunks u v cs).
Proof.
  induction 1 as [a|c rest b Hc Hrest IH]; intros Hedited.
  - exists []. simpl. repeat split; try done.
    + constructor.
    + intros (c & Hc & _). inversion Hc.
  - simpl. destruct ((cstart c <? x) && (x <? cend c)) eqn:Hin.
    + apply andb_true_iff in Hin as [H1 H2]. apply Nat.ltb_lt in H1, H2.
      rewrite (Hedited c) by (try apply elem_of_cons; auto; lia). simpl.
      eexists. split; [reflexivity|].
      split; [|split; [|split; [|split]]].
      * apply (cover_cons {| cstart := cstart c; cend := x; coriginal := _;
                             content := _; edited := false |}); simpl; [lia|].
        apply (cover_cons {| cstart := x; cend := cend c; coriginal := _;
                             content := _; edited := false |}); simpl; [lia|done].
      * intros y [->|Hy]; [by left|]. right. simpl in *.
        apply elem_of_cons in Hy as [->|Hy].
        -- apply elem_of_cons. right. apply elem_of_cons. by left.
        -- do 2 (apply elem_of_cons; right). done.
      * intros _. right. simpl. apply elem_of_cons. by left.
      * intros c' Hc' He. apply elem_of_cons in Hc' as [->|Hc']; [done|].
        apply elem_of_cons in Hc' as [->|Hc']; [done|].
        apply elem_of_cons. by right.
      * intros u v Hu Hv Hx. simpl.
        pose proof (cover_no_boundary_inside _ _ _ u (cover_cons _ _ _ Hc Hrest) Hu c
                      ltac:(apply elem_of_cons; by left)) as Hnu.
        pose proof (cover_no_boundary_inside _ _ _ v (cover_cons _ _ _ Hc Hrest) Hv c
                      ltac:(apply elem_of_cons; by left)) as Hnv.
        assert ((u <=? cstart c) && (x <=? v) = false) as ->.
        { apply andb_false_iff. rewrite Nat.leb_gt, Nat.leb_gt. lia. }
        assert ((u <=? x) && (cend c <=? v) = false) as ->.
        { apply andb_false_iff. rewrite Nat.leb_gt, Nat.leb_gt. lia. }
        assert ((u <=? cstart c) && (cend c <=? v) = false) as ->.
        { apply andb_false_iff. rewrite Nat.leb_gt, Nat.leb_gt. lia. }
        done.
    + destruct IH as (rest' & Hsplit & Hcover' & Hbnd & Hnew & Hed & Hren).
      { intros c' Hc' Hx. apply Hedited; [apply elem_of_cons; by right|done]. }
      rewrite Hsplit. simpl. exists (c :: rest'). split; [done|].
      split; [|split; [|split; [|split]]].
      * by constructor.
      * intros y [->|Hy]; [by left|]. simpl in Hy.
        apply elem_of_cons in Hy as [->|Hy].
        -- right. simpl. apply elem_of_cons. by left.
        -- destruct (Hbnd y) as [->|Hy']; [by right| |].
           ++ right. simpl. apply elem_of_cons. by left.
           ++ right. simpl. apply elem_of_cons. by right.
      * intros (c' & Hc' & Hx). apply elem_of_cons in Hc' as [->|Hc'].
        -- apply andb_false_iff in Hin. rewrite !Nat.ltb_ge in Hin. lia.
        -- destruct Hnew as [->|Hy']; [by exists c'| |].
           ++ right. simpl. apply elem_of_cons. by left.
           ++ right. simpl. apply elem_of_cons. by right.
      * intros c' Hc' He. apply elem_of_cons in Hc' as [->|Hc'].
        -- apply elem_of_cons. by left.
        -- apply elem_of_cons. right. by apply Hed.
      * intros u v Hu Hv Hx. simpl.
        destruct (decide (isBoundary (cend c) rest u /\ isBoundary (cend c) rest v))
          as [[Hu' Hv']|Hno].
        -- by rewrite (Hren u v Hu' Hv' Hx).
        -- (* one of u, v is the start of [c]: no chunk of the rest lies before it *)
           assert (u = cstart c \/ v = cstart c) as Hends.
           { destruct Hu as [->|Hu]; [by left|]. destruct Hv as [->|Hv]; [by right|].
             exfalso. apply Hno. simpl in Hu, Hv.
             apply elem_of_cons in Hu, Hv. split.
             - destruct Hu as [->|?]; [by left|by right].
             - destruct Hv as [->|?]; [by left|by right]. }
           destruct (cover_bounds _ _ _ Hcover') as [_ Hb'].
           destruct (cover_bounds _ _ _ Hrest) as [_ Hb].
           destruct Hends as [->| ->].
           ++ destruct Hv as [Hv|Hv].
              { subst v. rewrite Nat.leb_refl. simpl.
                assert ((cend c <=? cstart c) = false) as -> by (apply Nat.leb_gt; lia).
                assert (forall l, (forall c', c' ∈ l -> cstart c < cend c') ->
                          renderedChunks (cstart c) (cstart c) l = "") as Hnone.
                { induction l as [|c0 l IHl]; intros Hl; simpl; [done|].
                  assert ((cend c0 <=? cstart c) = false) as ->.
                  { apply Nat.leb_gt. apply Hl, elem_of_cons. by left. }
                  rewrite andb_false_r. apply IHl. intros c' Hc'. apply Hl, elem_of_cons.
                  by right. }
                rewrite !Hnone; [done| |].
                - intros c' Hc'. destruct (Hb _ Hc') as (? & ? & ?). lia.
                - intros c' Hc'. destruct (Hb' _ Hc') as (? & ? & ?). lia. }
              simpl in Hv. apply elem_of_cons in Hv.
              assert (isBoundary (cend c) rest v) as Hv'
                by (destruct Hv as [->|?]; [by left|by right]).
              (* the rest is rendered from its own start on *)
              assert (forall l, (forall c', c' ∈ l -> cend c <= cstart c') ->
                        renderedChunks (cstart c) v l = renderedChunks (cend c) v l) as Hshift.
              { induction l as [|c0 l IHl]; intros Hl; simpl; [done|].
                assert (cend c <= cstart c0) by (apply Hl, elem_of_cons; by left).
                assert ((cstart c <=? cstart c0) = true) as -> by (apply Nat.leb_le; lia).
                assert ((cend c <=? cstart c0) = true) as -> by (by apply Nat.leb_le).
                rewrite IHl; [done|]. intros c' Hc'. apply Hl, elem_of_cons. by right. }
              rewrite !Hshift.
              ** rewrite (Hren (cend c) v); [done|by left|done|].
                 destruct Hx as [Hx|Hx]; [|by right].
                 left. apply andb_false_iff in Hin. rewrite !Nat.ltb_ge in Hin. lia.
              ** intros c' Hc'. destruct (Hb _ Hc') as (? & ? & ?). lia.
              ** intros c' Hc'. destruct (Hb' _ Hc') as (? & ? & ?). lia.
           ++ (* v is the start of [c]: nothing from [c] on is rendered *)
              assert (forall l, (forall c', c' ∈ l -> cstart c < cend c') ->
                        renderedChunks u (cstart c) l = "") as Hnone.
              { induction l as [|c0 l IHl]; intros Hl; simpl; [done|].
                assert ((cend c0 <=? cstart c) = false) as ->.
                { apply Nat.leb_gt. apply Hl, elem_of_cons. by left. }
                rewrite andb_false_r. apply IHl. intros c' Hc'. apply Hl, elem_of_cons.
                by right. }
              assert ((cend c <=? cstart c) = false) as -> by (apply Nat.leb_gt; lia).
              rewrite andb_false_r, !Hnone; [done| |].
              ** intros c' Hc'. destruct (Hb _ Hc') as (? & ? & ?). lia.
              ** intros c' Hc'. destruct (Hb' _ Hc') as (? & ? & ?). lia.
Qed.

Lemma cover_start_boundary a cs b c : cover a cs b -> c ∈ cs -> isBoundary a cs (cstart c).
Proof.
  induction 1 as [a|c0 rest b Hc Hrest IH]; intros Hin; [inversion Hin|].
  apply elem_of_cons in Hin as [->|Hin]; [by left|].
  right. simpl. destruct (IH Hin) as [->|Hb]; apply elem_of_cons; [by left|by right].
Qed.

Lemma cover_contains a cs b x :
  cover a cs b -> a <= x < b -> exists c, c ∈ cs /\ cstart c <= x < cend c.
Proof.
  induction 1 as [a|c rest b Hc Hrest IH]; intros Hx; [lia|].
  destruct (decide (x < cend c)) as [Hlt|Hge].
  - exists c. split; [apply elem_of_cons; by left|lia].
  - destruct IH as (c' & Hc' & Hx'); [lia|].
    exists c'. split; [apply elem_of_cons; by right|done].
Qed.

Lemma isBoundary_ge a cs b x : cover a cs b -> isBoundary a cs x -> a <= x <= b.
Proof.
  intros Hcover [->|Hx].
  - destruct (cover_bounds _ _ _ Hcover). lia.
  - apply list_elem_of_fmap in Hx as (c & -> & Hc).
    destruct (cover_bounds _ _ _ Hcover) as [_ Hb]. destruct (Hb _ Hc) as (? & ? & ?). lia.
Qed.

Lemma split_spec a cs b x :
  cover a cs b -> a <= x <= b -> a < b ->
  (forall c, c ∈ cs -> cstart c < x < cend c -> edited c = false) ->
  exists cs', split_ x cs = Ok cs'
    /\ cover a cs' b
    /\ (forall y, isBoundary a cs y -> isBoundary a cs' y)
    /\ isBoundary a cs' x
    /\ (forall c', c' ∈ cs' -> edited c' = true -> c' ∈ cs)
    /\ (forall u v, isBoundary a cs u -> isBoundary a cs v -> x <= u \/ v <= x ->
          renderedChunks u v cs' = renderedChunks u v cs).
Proof.
  intros Hcover Hx Hab Hedited. unfold split_.
  destruct (existsb _ cs) eqn:Hex.
  - exists cs. repeat split; try done.
    apply existsb_exists in Hex as (c & Hc & Hor). apply list_elem_of_In in Hc.
    apply orb_true_iff in Hor as [Heq|Heq]; apply Nat.eqb_eq in Heq; subst x.
    + by eapply cover_start_boundary.
    + right. apply list_elem_of_fmap. by exists c.
  - destruct (splitAt_spec _ _ _ x Hcover Hedited) as (cs' & Hs & Hc' & Hb & Hnew & He & Hr).
    exists cs'. repeat split; try done.
    apply Hnew.
    assert (x < b) as Hlt.
    { destruct (decide (x = b)) as [->|]; [|lia]. exfalso.
      destruct (isBoundary_end _ _ _ Hcover) as [->|Hend]; [lia|].
      apply list_elem_of_fmap in Hend as (c & Hcend & Hc).
      assert (existsb (fun c => (cstart c =? b) || (cend c =? b)) cs = true) as Hex'.
      { apply existsb_exists. exists c. split; [by apply list_elem_of_In|].
        apply orb_true_iff. right. by apply Nat.eqb_eq. }
      congruence. }
    destruct (cover_contains _ _ _ x Hcover ltac:(lia)) as (c & Hc & Hin).
    exists c. split; [done|].
    assert (cstart c <> x) as Hne.
    { intros Heq.
      assert (existsb (fun c => (cstart c =? x) || (cend c =? x)) cs = true) as Hex'.
      { apply existsb_exists. exists c. split; [by apply list_elem_of_In|].
        apply orb_true_iff. left. by apply Nat.eqb_eq. }
      congruence. }
    lia.
Qed.

(** Editing a range that is split at both ends. *)
Lemma editRange_none s e t cs :
  (forall c, c ∈ cs -> inRange s e c = false) -> editRange s e t cs = cs.
Proof.
  induction cs as [|c cs IH]; intros Hno; simpl; [done|].
  rewrite (Hno c) by (apply elem_of_cons; by left).
  rewrite IH; [done|]. intros c' Hc'. apply Hno, elem_of_cons. by right.
Qed.

Lemma inRange_after s e a cs b :
  cover a cs b -> e <= a -> forall c, c ∈ cs -> inRange s e c = false.
Proof.
  intros Hcover Hle c Hc. destruct (cover_bounds _ _ _ Hcover) as [_ Hb].
  destruct (Hb _ Hc) as (? & ? & ?). unfold inRange.
  apply andb_false_iff. right. apply Nat.ltb_ge. lia.
Qed.

Lemma removeFrom_editRange a cs b s e :
  cover a cs b -> s <= a -> a < e -> removeFrom e cs = editRange s e "" cs.
Proof.
  induction 1 as [a|c rest b Hc Hrest IH]; intros Hs He; simpl; [done|].
  unfold inRange at 1.
  assert ((s <=? cstart c) = true) as -> by (apply Nat.leb_le; lia).
  assert ((cstart c <? e) = true) as -> by (apply Nat.ltb_lt; lia).
  simpl. assert ((if cstart c =? s then "" else "") = "") as -> by (by destruct (_ =? _)).
  f_equal. destruct (cend c <? e) eqn:Hend.
  - apply Nat.ltb_lt in Hend. apply IH; lia.
  - apply Nat.ltb_ge in Hend. symmetry. apply editRange_none.
    by apply (inRange_after _ _ _ _ _ Hrest).
Qed.

Lemma removeAt_editRange a cs b s e :
  cover a cs b -> isBoundary a cs s -> s < e ->
  removeAt s e cs = editRange s e "" cs.
Proof.
  induction 1 as [a|c rest b Hc Hrest IH]; intros Hs He; [done|].
  cbn [removeAt]. destruct (cstart c =? s) eqn:Heq.
  - apply Nat.eqb_eq in Heq. subst s.
    apply (removeFrom_editRange _ _ _ _ _ (cover_cons _ _ _ Hc Hrest)); lia.
  - apply Nat.eqb_neq in Heq. simpl.
    assert (isBoundary (cend c) rest s) as Hs'.
    { destruct Hs as [->|Hs]; [done|]. simpl in Hs.
      apply elem_of_cons in Hs as [->|Hs]; [by left|by right]. }
    pose proof (isBoundary_ge _ _ _ _ Hrest Hs').
    unfold inRange at 1.
    assert ((s <=? cstart c) = false) as -> by (apply Nat.leb_gt; lia).
    simpl. f_equal. by apply IH.
Qed.

Lemma blankUntil_editRange a cs b s e t :
  cover a cs b -> s < a -> e ∈ map cend cs ->
  blankUntil e cs = Ok (editRange s e t cs).
Proof.
  induction 1 as [a|c rest b Hc Hrest IH]; intros Hs He; [inversion He|].
  simpl. unfold inRange at 1.
  assert ((s <=? cstart c) = true) as -> by (apply Nat.leb_le; lia).
  assert ((cstart c =? s) = false) as -> by (apply Nat.eqb_neq; lia).
  destruct (cend c =? e) eqn:Heq.
  - apply Nat.eqb_eq in Heq. subst e.
    assert ((cstart c <? cend c) = true) as -> by (by apply Nat.ltb_lt).
    simpl. rewrite editRange_none; [done|].
    by apply (inRange_after _ _ _ _ _ Hrest).
  - apply Nat.eqb_neq in Heq. simpl in He.
    apply elem_of_cons in He as [->|He]; [done|].
    rewrite (IH ltac:(lia) He). simpl.
    apply list_elem_of_fmap in He as (c' & -> & Hc').
    destruct (cover_bounds _ _ _ Hrest) as [_ Hb]. destruct (Hb _ Hc') as (? & ? & ?).
    assert ((cstart c <? cend c') = true) as -> by (apply Nat.ltb_lt; lia).
    done.
Qed.

Lemma overwriteAt_editRange a cs b s e t :
  cover a cs b -> isBoundary a cs s -> isBoundary a cs e -> s < e ->
  overwriteAt s e t cs = Ok (editRange s e t cs).
Proof.
  induction 1 as [a|c rest b Hc Hrest IH]; intros Hs He Hlt.
  - destruct Hs as [->|Hs]; [|inversion Hs]. destruct He as [->|He]; [lia|inversion He].
  - cbn [overwriteAt].
    assert (e ∈ map cend (c :: rest)) as He'.
    { destruct He as [->|He]; [|done].
      pose proof (isBoundary_ge _ _ _ _ (cover_cons _ _ _ Hc Hrest) Hs). lia. }
    simpl in He'. apply elem_of_cons in He'.
    destruct (cstart c =? s) eqn:Heq.
    + apply Nat.eqb_eq in Heq. subst s. simpl. unfold inRange at 1.
      rewrite Nat.leb_refl, Nat.eqb_refl.
      assert ((cstart c <? e) = true) as -> by (by apply Nat.ltb_lt).
      simpl. destruct (cend c =? e) eqn:Hend.
      * apply Nat.eqb_eq in Hend. subst e. rewrite editRange_none; [done|].
        by apply (inRange_after _ _ _ _ _ Hrest).
      * apply Nat.eqb_neq in Hend. destruct He' as [->|He']; [done|].
        by rewrite (blankUntil_editRange _ _ _ (cstart c) e t Hrest Hc He').
    + apply Nat.eqb_neq in Heq.
      assert (isBoundary (cend c) rest s) as Hs'.
      { destruct Hs as [->|Hs]; [done|]. simpl in Hs.
        apply elem_of_cons in Hs as [->|Hs]; [by left|by right]. }
      pose proof (isBoundary_ge _ _ _ _ Hrest Hs').
      assert (isBoundary (cend c) rest e) as He''.
      { destruct He' as [->|He']; [lia|by right]. }
      rewrite (IH Hs' He'' Hlt). simpl. unfold inRange at 1.
      assert ((s <=? cstart c) = false) as -> by (apply Nat.leb_gt; lia).
      done.
Qed.

Lemma editRange_cover a cs b s e t : cover a cs b -> cover a (editRange s e t cs) b.
Proof.
  induction 1 as [a|c rest b Hc Hrest IH]; simpl; [constructor|].
  destruct (inRange s e c).
  - by apply (cover_cons (edit _ c)).
  - by constructor.
Qed.

Lemma editRange_ends s e t cs : map cend (editRange s e t cs) = map cend cs.
Proof.
  induction cs as [|c cs IH]; simpl; [done|]. rewrite IH. by destruct (inRange s e c).
Qed.

Lemma editRange_edited s e t cs c' :
  c' ∈ editRange s e t cs -> edited c' = true ->
  (c' ∈ cs /\ edited c' = true) \/ (s <= cstart c' /\ cstart c' < e).
Proof.
  intros Hin He. unfold editRange in Hin.
  apply list_elem_of_fmap in Hin as (c & -> & Hc).
  destruct (inRange s e c) eqn:Hr.
  - right. apply andb_true_iff in Hr as [H1 H2].
    apply Nat.leb_le in H1. apply Nat.ltb_lt in H2. simpl. lia.
  - by left.
Qed.

Lemma editRange_rendered_other a cs b s e t u v :
  cover a cs b -> v <= s \/ e <= u ->
  renderedChunks u v (editRange s e t cs) = renderedChunks u v cs.
Proof.
  intros Hcover Hdis. induction Hcover as [a|c rest b Hc Hrest IH]; simpl; [done|].
  rewrite IH. destruct (inRange s e c) eqn:Hr; [|done].
  apply andb_true_iff in Hr as [H1 H2].
  apply Nat.leb_le in H1. apply Nat.ltb_lt in H2. simpl.
  assert ((u <=? cstart c) && (cend c <=? v) = false) as ->; [|done].
  apply andb_false_iff. rewrite !Nat.leb_gt. lia.
Qed.

Lemma editRange_cons s e t c rest :
  editRange s e t (c :: rest)
  = (if inRange s e c then edit (if cstart c =? s then t else "") c else c)
    :: editRange s e t rest.
Proof. reflexivity. Qed.

Lemma renderedChunks_cons u v c l :
  renderedChunks u v (c :: l)
  = if (u <=? cstart c) && (cend c <=? v) then content c +:+ renderedChunks u v l
    else renderedChunks u v l.
Proof. reflexivity. Qed.

Lemma renderedChunks_beyond s e l :
  (forall c', c' ∈ l -> e < cend c') -> renderedChunks s e l = "".
Proof.
  induction l as [|c0 l IHl]; intros Hl; [done|].
  rewrite renderedChunks_cons.
  assert ((cend c0 <=? e) = false) as ->.
  { apply Nat.leb_gt. apply Hl, elem_of_cons. by left. }
  rewrite andb_false_r. apply IHl. intros c' Hc'. apply Hl, elem_of_cons. by right.
Qed.

Lemma editRange_rendered_after a cs b s e t :
  cover a cs b -> s < a -> isBoundary a cs e ->
  renderedChunks s e (editRange s e t cs) = "".
Proof.
  induction 1 as [a|c rest b Hc Hrest IH]; intros Hs He; [done|].
  pose proof (cover_no_boundary_inside _ _ _ e (cover_cons _ _ _ Hc Hrest) He c
                ltac:(apply elem_of_cons; by left)) as Hne.
  rewrite editRange_cons. unfold inRange.
  assert ((s <=? cstart c) = true) as -> by (apply Nat.leb_le; lia).
  assert ((cstart c =? s) = false) as -> by (apply Nat.eqb_neq; lia).
  rewrite andb_true_l. destruct (cstart c <? e) eqn:Hlt.
  - apply Nat.ltb_lt in Hlt. rewrite renderedChunks_cons. cbn [edit cstart cend content].
    assert ((s <=? cstart c) = true) as -> by (apply Nat.leb_le; lia).
    assert ((cend c <=? e) = true) as -> by (apply Nat.leb_le; lia).
    rewrite andb_true_l, append_nil_l. apply IH; [lia|].
    destruct He as [->|He]; [lia|]. simpl in He.
    apply elem_of_cons in He as [->|He]; [by left|by right].
  - apply Nat.ltb_ge in Hlt. rewrite renderedChunks_cons.
    assert ((cend c <=? e) = false) as -> by (apply Nat.leb_gt; lia).
    rewrite andb_false_r.
    rewrite editRange_none; [|apply (inRange_after _ _ _ _ _ Hrest); lia].
    destruct (cover_bounds _ _ _ Hrest) as [_ Hb].
    apply renderedChunks_beyond. intros c' Hc'. destruct (Hb _ Hc') as (? & ? & ?). lia.
Qed.

Lemma editRange_rendered a cs b s e t :
  cover a cs b -> isBoundary a cs s -> isBoundary a cs e -> s < e ->
  renderedChunks s e (editRange s e t cs) = t.
Proof.
  induction 1 as [a|c rest b Hc Hrest IH]; intros Hs He Hlt.
  - destruct Hs as [->|Hs]; [|inversion Hs]. destruct He as [->|He]; [lia|inversion He].
  - pose proof (cover_no_boundary_inside _ _ _ e (cover_cons _ _ _ Hc Hrest) He c
                  ltac:(apply elem_of_cons; by left)) as Hne.
    pose proof (isBoundary_ge _ _ _ _ (cover_cons _ _ _ Hc Hrest) Hs) as Hsge.
    assert (isBoundary (cend c) rest e) as He'.
    { destruct He as [->|He]; [lia|]. simpl in He.
      apply elem_of_cons in He as [->|He]; [by left|by right]. }
    rewrite editRange_cons. unfold inRange. destruct (decide (cstart c = s)) as [<-|Hns].
    + rewrite Nat.leb_refl, Nat.eqb_refl.
      assert ((cstart c <? e) = true) as -> by (by apply Nat.ltb_lt).
      rewrite andb_true_l, renderedChunks_cons. cbn [edit cstart cend content].
      rewrite Nat.leb_refl.
      assert ((cend c <=? e) = true) as -> by (apply Nat.leb_le; lia).
      rewrite andb_true_l, (editRange_rendered_after _ _ _ _ _ _ Hrest Hc He').
      apply append_empty_r.
    + assert ((s <=? cstart c) = false) as -> by (apply Nat.leb_gt; lia).
      rewrite andb_false_l, renderedChunks_cons.
      assert ((s <=? cstart c) = false) as -> by (apply Nat.leb_gt; lia).
      rewrite andb_false_l. apply IH; [|done|done].
      destruct Hs as [->|Hs]; [done|]. simpl in Hs.
      apply elem_of_cons in Hs as [->|Hs]; [by left|by right].
Qed.

(** Both ends of a range that is compatible with the ranges edited so far
    can be split. *)
Lemma not_inside_edited n E m (a b x : nat) :
  edited_within n E m ->
  (forall r, r ∈ E -> Transformer.compatible (a, b) r) -> a < b -> x = a \/ x = b ->
  forall c, c ∈ chunks m -> cstart c < x < cend c -> edited c = false.
Proof.
  intros (_ & _ & _ & Hed) Hcompat Hab Hx c Hc Hin.
  destruct (edited c) eqn:He; [|done]. exfalso.
  destruct (Hed c Hc He) as ([r1 r2] & Hr & H1 & H2). simpl in *.
  destruct (Hcompat _ Hr) as [[= <- <-]|[Hd|Hd]]; simpl in *; lia.
Qed.

Lemma split_both n E m a b :
  edited_within n E m -> a < b <= n ->
  (forall r, r ∈ E -> Transformer.compatible (a, b) r) ->
  exists cs1 cs2,
    split_ a (chunks m) = Ok cs1 /\ split_ b cs1 = Ok cs2
    /\ cover 0 cs2 n
    /\ isBoundary 0 cs2 a /\ isBoundary 0 cs2 b
    /\ (forall y, isBoundary 0 (chunks m) y -> isBoundary 0 cs2 y)
    /\ (forall c, c ∈ cs2 -> edited c = true -> c ∈ chunks m)
    /\ (forall u v, isBoundary 0 (chunks m) u -> isBoundary 0 (chunks m) v ->
          v <= a \/ b <= u -> renderedChunks u v cs2 = renderedChunks u v (chunks m)).
Proof.
  intros Hm Hab Hcompat. pose proof Hm as (Hlen & Hcover & Hbnd & Hed).
  destruct (split_spec 0 (chunks m) n a Hcover ltac:(lia) ltac:(lia))
    as (cs1 & Hs1 & Hc1 & Hb1 & Ha1 & He1 & Hr1).
  { apply (not_inside_edited n E m a b a Hm Hcompat); [lia|by left]. }
  destruct (split_spec 0 cs1 n b Hc1 ltac:(lia) ltac:(lia))
    as (cs2 & Hs2 & Hc2 & Hb2 & Ha2 & He2 & Hr2).
  { intros c Hc Hin. destruct (edited c) eqn:He; [|done].
    rewrite <- (not_inside_edited n E m a b b Hm Hcompat ltac:(lia) ltac:(by right) c);
      [done|by apply He1|done]. }
  exists cs1, cs2. repeat split; auto.
  intros u v Hu Hv Hdis. rewrite Hr2, Hr1; auto; lia.
Qed.

Lemma edit_spec n E m a b t cs2 :
  edited_within n E m -> a < b <= n ->
  cover 0 cs2 n -> isBoundary 0 cs2 a -> isBoundary 0 cs2 b ->
  (forall y, isBoundary 0 (chunks m) y -> isBoundary 0 cs2 y) ->
  (forall c, c ∈ cs2 -> edited c = true -> c ∈ chunks m) ->
  (forall u v, isBoundary 0 (chunks m) u -> isBoundary 0 (chunks m) v ->
     v <= a \/ b <= u -> renderedChunks u v cs2 = renderedChunks u v (chunks m)) ->
  let m' := {| original := original m; chunks := editRange a b t cs2 |} in
  edited_within n ((a, b) :: E) m'
  /\ rendered a b m' = t
  /\ (forall r, r ∈ E -> Transformer.disjoint r (a, b) ->
        rendered r.1 r.2 m' = rendered r.1 r.2 m).
Proof.
  intros (Hlen & Hcover & Hbnd & Hed) Hab Hc2 Ha Hb Hkeep He2 Hr2 m'.
  split; [|split].
  - split; [done|]. split; [by apply editRange_cover|]. split.
    + intros r Hr. unfold isBoundary. simpl. rewrite editRange_ends.
      apply elem_of_cons in Hr as [->|Hr]; [done|].
      destruct (Hbnd _ Hr). split; by apply Hkeep.
    + intros c Hc He. simpl in Hc.
      destruct (editRange_edited _ _ _ _ _ Hc He) as [[Hc' He']|[H1 H2]].
      * destruct (Hed c (He2 _ Hc' He') He') as (r & Hr & Hin).
        exists r. split; [apply elem_of_cons; by right|done].
      * exists (a, b). split; [apply elem_of_cons; by left|]. simpl. split; [done|].
        pose proof (cover_no_boundary_inside 0 (editRange a b t cs2) n b
                      (editRange_cover _ _ _ _ _ _ Hc2)) as Hno.
        specialize (Hno ltac:(unfold isBoundary; by rewrite editRange_ends) c Hc).
        destruct (cover_bounds _ _ _ (editRange_cover 0 cs2 n a b t Hc2)) as [_ Hbounds].
        destruct (Hbounds _ Hc) as (? & ? & ?). lia.
  - unfold rendered. simpl. apply (editRange_rendered 0 cs2 n); auto; lia.
  - intros r Hr Hdis. unfold rendered. simpl.
    rewrite (editRange_rendered_other 0 cs2 n a b t r.1 r.2 Hc2).
    + destruct (Hbnd _ Hr). apply Hr2; auto; destruct Hdis; simpl in *; lia.
    + destruct Hdis; simpl in *; lia.
Qed.

Lemma remove_spec n E m a b :
  edited_within n E m -> a < b <= n ->
  (forall r, r ∈ E -> Transformer.compatible (a, b) r) ->
  exists m', remove a b m = Ok m'
    /\ edited_within n ((a, b) :: E) m'
    /\ (forall r, r ∈ E -> Transformer.disjoint r (a, b) ->
          rendered r.1 r.2 m' = rendered r.1 r.2 m).
Proof.
  intros Hm Hab Hcompat.
  destruct (split_both _ _ _ _ _ Hm Hab Hcompat)
    as (cs1 & cs2 & Hs1 & Hs2 & Hc2 & Ha & Hb & Hkeep & He2 & Hr2).
  destruct (edit_spec n E m a b "" cs2 Hm Hab Hc2 Ha Hb Hkeep He2 Hr2) as (Hm' & _ & Hren).
  eexists. split; [|split; [exact Hm'|exact Hren]].
  unfold remove. destruct Hm as (Hlen & _).
  assert ((a =? b) = false) as -> by (apply Nat.eqb_neq; lia).
  assert ((String.length (original m) <? b) = false) as -> by (apply Nat.ltb_ge; lia).
  assert ((b <? a) = false) as -> by (apply Nat.ltb_ge; lia).
  rewrite Hs1. simpl. rewrite Hs2. simpl.
  by rewrite (removeAt_editRange 0 cs2 n a b Hc2 Ha ltac:(lia)).
Qed.

Lemma overwrite_spec n E m a b t :
  edited_within n E m -> a < b <= n ->
  (forall r, r ∈ E -> Transformer.compatible (a, b) r) ->
  exists m', overwrite a b t m = Ok m'
    /\ edited_within n ((a, b) :: E) m'
    /\ rendered a b m' = t
    /\ (forall r, r ∈ E -> Transformer.disjoint r (a, b) ->
          rendered r.1 r.2 m' = rendered r.1 r.2 m).
Proof.
  intros Hm Hab Hcompat.
  destruct (split_both _ _ _ _ _ Hm Hab Hcompat)
    as (cs1 & cs2 & Hs1 & Hs2 & Hc2 & Ha & Hb & Hkeep & He2 & Hr2).
  destruct (edit_spec n E m a b t cs2 Hm Hab Hc2 Ha Hb Hkeep He2 Hr2) as (Hm' & Ht & Hren).
  eexists. split; [|split; [exact Hm'|split; [exact Ht|exact Hren]]].
  unfold overwrite. destruct Hm as (Hlen & _).
  assert ((String.length (original m) <? b) = false) as -> by (apply Nat.ltb_ge; lia).
  assert ((a =? b) = false) as -> by (apply Nat.eqb_neq; lia).
  rewrite Hs1. simpl. rewrite Hs2. simpl.
  by rewrite (overwriteAt_editRange 0 cs2 n a b t Hc2 Ha Hb ltac:(lia)).
Qed.

Lemma new_edited_within text :
  0 < String.length text -> edited_within (String.length text) [] (new text).
Proof.
  intros Hlen. split; [done|]. split; [|split].
  - apply (cover_cons {| cstart := 0; cend := String.length text; coriginal := text;
                         content := text; edited := false |}); [done|constructor].
  - intros r Hr. inversion Hr.
  - intros c Hc He. simpl in Hc. apply list_elem_of_singleton in Hc as ->. done.
Qed.

End Patching.

(** ** Transformer: every edit of a well-formed module succeeds *)
Section Edits.
Import MagicString Transformer.
Variables (n : nat) (R : list range).
Hypothesis R_bounds : forall r, r ∈ R -> r.1 < r.2 <= n.
Hypothesis R_compatible : forall r1 r2, r1 ∈ R -> r2 ∈ R -> compatible r1 r2.

Lemma tracked_at_tracked d t m : tracked_at n R d t m -> tracked n R m.
Proof. intros (E & HE & Hm & _). by exists E. Qed.

Lemma remove_tracked m r :
  tracked n R m -> r ∈ R -> exists m', remove r.1 r.2 m = Ok m' /\ tracked n R m'.
Proof.
  intros (E & HE & Hm) Hr. destruct r as [a b].
  destruct (remove_spec n E m a b Hm (R_bounds _ Hr)) as (m' & Hrm & Hm' & _).
  { intros r' Hr'. apply R_compatible; auto. }
  exists m'. split; [done|]. exists ((a, b) :: E). split; [|done].
  intros r' Hr'. apply elem_of_cons in Hr' as [->|Hr']; auto.
Qed.

Lemma overwrite_tracked_new m d t :
  tracked n R m -> d ∈ R -> exists m', overwrite d.1 d.2 t m = Ok m' /\ tracked_at n R d t m'.
Proof.
  intros (E & HE & Hm) Hd. destruct d as [a b].
  destruct (overwrite_spec n E m a b t Hm (R_bounds _ Hd)) as (m' & Hov & Hm' & Ht & _).
  { intros r' Hr'. apply R_compatible; auto. }
  exists m'. split; [done|]. exists ((a, b) :: E). split; [|split; [done|split]].
  - intros r' Hr'. apply elem_of_cons in Hr' as [->|Hr']; auto.
  - apply elem_of_cons. by left.
  - done.
Qed.

Lemma overwrite_tracked_keep m d t r t' :
  tracked_at n R d t m -> r ∈ R -> disjoint r d ->
  exists m', overwrite r.1 r.2 t' m = Ok m' /\ tracked_at n R d t m'.
Proof.
  intros (E & HE & Hm & Hd & Ht) Hr Hdis. destruct r as [a b].
  destruct (overwrite_spec n E m a b t' Hm (R_bounds _ Hr)) as (m' & Hov & Hm' & _ & Hren).
  { intros r' Hr'. apply R_compatible; auto. }
  exists m'. split; [done|]. exists ((a, b) :: E). split; [|split; [done|split]].
  - intros r' Hr'. apply elem_of_cons in Hr' as [->|Hr']; auto.
  - apply elem_of_cons. by right.
  - rewrite Hren; [done|done|]. destruct Hdis; [by right|by left].
Qed.

Lemma step2_tracked imps st :
  (forall i, i ∈ imps -> (nstart (imp.node_ i.1), nend (imp.node_ i.1)) ∈ R) ->
  tracked n R (s st) ->
  exists st', step2 imps st = Ok st' /\ tracked n R (s st')
              /\ exportGetters st' = exportGetters st.
Proof.
  revert st. induction imps as [|[i moduleId] rest IH]; intros st Hin Hst; simpl.
  - by exists st.
  - destruct (remove_tracked (s st) (nstart (imp.node_ i), nend (imp.node_ i)) Hst)
      as (m' & Hrm & Hm').
    { apply (Hin (i, moduleId)), elem_of_cons. by left. }
    simpl in Hrm. rewrite Hrm. simpl.
    destruct (IH {| s := m'; moduleVarNames := moduleVarNames st;
                    loadModuleCalls := loadModuleCalls st ++ [loadModuleCall
                      (show (map_get (moduleVarNames st) (imp.source i))) moduleId];
                    exportGetters := exportGetters st |}) as (st' & Hst' & Ht & Hg).
    + intros i' Hi'. apply Hin, elem_of_cons. by right.
    + done.
    + by exists st'.
Qed.

Lemma step1_ok projectRoot imps names :
  (forall i, i ∈ imps -> is_Some (imp.resolvedPath i)) ->
  exists imps' names', step1 projectRoot imps names = Ok (imps', names')
                       /\ map fst imps' = imps.
Proof.
  revert names. induction imps as [|i rest IH]; intros names Hres; simpl.
  - by exists [], names.
  - destruct (Hres i) as [p Hp]; [apply elem_of_cons; by left|].
    rewrite Hp. simpl.
    destruct (IH (if map_has names (imp.source i) then names
                  else map_set names (imp.source i) (makeVarName (imp.source i))))
      as (imps' & names' & Hstep & Hfst).
    { intros i' Hi'. apply Hres, elem_of_cons. by right. }
    rewrite Hstep. simpl. eexists _, _. split; [reflexivity|]. simpl. by rewrite Hfst.
Qed.

Lemma namedExport_tracked info projectRoot e st :
  exportRange e ∈ R -> tracked n R (s st) ->
  exists st', namedExport info projectRoot e st = Ok st' /\ tracked n R (s st').
Proof.
  intros He Hst. unfold namedExport.
  destruct (remove_tracked (s st) (exportRange e) Hst He) as (m' & Hrm & Hm').
  assert (match exp.declarationNode e with
          | Some decl => MagicString.remove (nstart (exp.node_ e)) (nstart decl) (s st)
          | None => MagicString.remove (nstart (exp.node_ e)) (nend (exp.node_ e)) (s st)
          end = Ok m') as ->.
  { unfold exportRange in Hrm. by destruct (exp.declarationNode e). }
  simpl. destruct (truthy (exp.reexportSource e)); eexists; split; try reflexivity; done.
Qed.

Lemma step3_tracked info projectRoot es st :
  (forall e, e ∈ es -> exportRange e ∈ R) -> tracked n R (s st) ->
  exists st', step3 info projectRoot es st = Ok st' /\ tracked n R (s st').
Proof.
  revert st. induction es as [|e rest IH]; intros st Hin Hst; simpl; [by exists st|].
  destruct (namedExport_tracked info projectRoot e st) as (st1 & H1 & Ht1); [|done|].
  { apply Hin, elem_of_cons. by left. }
  rewrite H1. simpl. apply IH; [|done]. intros e' He'. apply Hin, elem_of_cons. by right.
Qed.

Lemma applyReplacements_tracked d t rs m :
  (forall r, r ∈ rs -> (rstart r, rend r) ∈ R /\ disjoint (rstart r, rend r) d) ->
  tracked_at n R d t m ->
  exists m', applyReplacements rs m = Ok m' /\ tracked_at n R d t m'.
Proof.
  revert m. induction rs as [|r rest IH]; intros m Hin Hm; simpl; [by exists m|].
  destruct (Hin r) as [Hr Hdis]; [apply elem_of_cons; by left|].
  destruct (overwrite_tracked_keep m d t _ (rtext r) Hm Hr Hdis) as (m' & Hov & Hm').
  simpl in Hov. rewrite Hov. simpl. apply IH; [|done].
  intros r' Hr'. apply Hin, elem_of_cons. by right.
Qed.

Lemma step5_tracked d t projectRoot dyns m :
  (forall x, x ∈ dyns -> truthy (dyn.resolvedPath x) = true ->
     (nstart (dyn.node_ x), nend (dyn.node_ x)) ∈ R
     /\ disjoint (nstart (dyn.node_ x), nend (dyn.node_ x)) d) ->
  tracked_at n R d t m ->
  exists m', step5 projectRoot dyns m = Ok m' /\ tracked_at n R d t m'.
Proof.
  revert m. induction dyns as [|x rest IH]; intros m Hin Hm; simpl; [by exists m|].
  assert (forall x', x' ∈ rest -> truthy (dyn.resolvedPath x') = true ->
            (nstart (dyn.node_ x'), nend (dyn.node_ x')) ∈ R
            /\ disjoint (nstart (dyn.node_ x'), nend (dyn.node_ x')) d) as Hrest.
  { intros x' Hx'. apply Hin, elem_of_cons. by right. }
  destruct (truthy (dyn.resolvedPath x)) eqn:Htruthy; [|by apply IH].
  destruct (Hin x) as [Hr Hdis]; [apply elem_of_cons; by left|done|].
  destruct (overwrite_tracked_keep m d t _
              (dynamicImportCall
                 (DependencyGraph.toChunkId
                    (DependencyGraph.toModuleId (default "" (dyn.resolvedPath x)) projectRoot))
                 (DependencyGraph.toModuleId (default "" (dyn.resolvedPath x)) projectRoot))
              Hm Hr Hdis) as (m' & Hov & Hm').
  simpl in Hov. rewrite Hov. simpl. by apply IH.
Qed.

End Edits.

Section DefaultExport.
Import MagicString Transformer.

Lemma insertByStart_elem r l x : x ∈ insertByStart r l -> x = r \/ x ∈ l.
Proof.
  induction l as [|y l IH]; simpl.
  - intros Hx. apply list_elem_of_singleton in Hx. by left.
  - destruct (rstart r <=? rstart y).
    + intros Hx. apply elem_of_cons in Hx as [->|Hx].
      * right. apply elem_of_cons. by left.
      * destruct (IH Hx) as [->|?]; [by left|]. right. apply elem_of_cons. by right.
    + intros Hx. apply elem_of_cons in Hx as [->|Hx]; [by left|by right].
Qed.

Lemma sortByStartDescending_elem l x : x ∈ sortByStartDescending l -> x ∈ l.
Proof.
  unfold sortByStartDescending.
  assert (forall acc, x ∈ fold_left (fun acc r => insertByStart r acc) l acc ->
                      x ∈ acc \/ x ∈ l) as Hgen.
  { induction l as [|r l IH]; intros acc; simpl; [by left|].
    intros Hx. destruct (IH _ Hx) as [Hin|Hin].
    - destruct (insertByStart_elem _ _ _ Hin) as [->|?]; [|by left].
      right. apply elem_of_cons. by left.
    - right. apply elem_of_cons. by right. }
  intros Hx. destruct (Hgen [] Hx) as [Hin|?]; [inversion Hin|done].
Qed.

Lemma collectReplacements_ranges info names r :
  r ∈ collectReplacements info names -> (rstart r, rend r) ∈ identifierRanges info.
Proof.
  unfold collectReplacements, identifierRanges. intros Hr.
  apply list_elem_of_In, in_flat_map in Hr as (v & Hv & Hr).
  destruct (String.eqb (vtype v) "Identifier") eqn:Hty; [|inversion Hr].
  apply String.eqb_eq in Hty.
  unfold Identifier in Hr.
  destruct (map_get _ _); [|inversion Hr].
  destruct (vancestors v !! 1); [|inversion Hr].
  destruct (skipped _ _); [inversion Hr|].
  destruct (map_get names _) as [varName|]; [|inversion Hr].
  destruct (String.eqb varName ""); [inversion Hr|].
  destruct Hr as [<-|[]]. simpl.
  apply list_elem_of_fmap. exists v. split; [done|].
  apply list_elem_of_filter. split; [done|]. by apply list_elem_of_In.
Qed.

Lemma defaultExport_anonymous n R info st defNode decl :
  (forall r, r ∈ R -> r.1 < r.2 <= n) ->
  (forall r1 r2, r1 ∈ R -> r2 ∈ R -> compatible r1 r2) ->
  hasDefault (exports info) = true ->
  defaultNode (exports info) = Some defNode ->
  child "declaration" defNode = Some decl ->
  (defaultType (exports info) = Some expression
   \/ (defaultType (exports info) = Some declaration
       /\ truthy (nameOf (child "id" decl)) = false)) ->
  (nstart defNode, nstart decl) ∈ R ->
  tracked n R (s st) ->
  exists st', defaultExport info st = Ok st'
    /\ tracked_at n R (nstart defNode, nstart decl) "var __default_export__ = " (s st')
    /\ exportGetters st' = exportGetters st ++ [defaultGetter]
    /\ moduleVarNames st' = moduleVarNames st
    /\ loadModuleCalls st' = loadModuleCalls st.
Proof.
  intros HRb HRc Hhas Hnode Hdecl Hkind Hd Hst.
  unfold defaultExport. rewrite Hhas, Hnode, Hdecl.
  destruct Hkind as [Hty|[Hty Hanon]]; rewrite Hty.
  - rewrite bool_decide_eq_false_2 by done.
    destruct (overwrite_tracked_new n R HRb HRc (s st) _ "var __default_export__ = " Hst Hd)
      as (m' & Hov & Hm').
    simpl in Hov. rewrite Hov. simpl. eexists. split; [reflexivity|]. by repeat split.
  - rewrite bool_decide_eq_true_2 by done.
    destruct (remove_tracked n R HRb HRc (s st) _ Hst Hd) as (m1 & Hrm & Hm1).
    simpl in Hrm. rewrite Hrm. simpl. rewrite Hanon.
    destruct (overwrite_tracked_new n R HRb HRc m1 _ "var __default_export__ = " Hm1 Hd)
      as (m' & Hov & Hm').
    simpl in Hov. rewrite Hov. simpl. eexists. split; [reflexivity|]. by repeat split.
Qed.

Lemma contains_trans s t u : contains s t -> contains t u -> contains s u.
Proof.
  intros (p1 & q1 & ->) (p2 & q2 & ->). exists (p1 +:+ p2), (q2 +:+ q1).
  by rewrite !append_assoc.
Qed.

Lemma contains_join sep l x : x ∈ l -> contains (join sep l) x.
Proof.
  unfold join. induction l as [|y l IH]; intros Hx; [inversion Hx|].
  apply elem_of_cons in Hx as [->|Hx].
  - destruct l as [|z l]; simpl; [apply contains_refl|].
    apply contains_append_r, contains_refl.
  - destruct l as [|z l]; [inversion Hx|]. simpl.
    do 2 apply contains_append_l. by apply IH.
Qed.

End DefaultExport.


